(** * One-Call: signaling plane and access plane

    A shallow embedding of the presence registry
    (apps/signaling/src/room-manager.ts), of the signaling endpoint
    (apps/signaling/src/server.ts, apps/signaling/src/types.ts) and of the
    grant issuer (apps/api/src/modules/token/token.service.ts,
    apps/api/src/modules/room/room.service.ts), with the properties the
    specification states about them.

    Conventions.
    - A JavaScript [Map<string, V>] is a [gmap string V].  A JavaScript
      [Set<string>] iterates in insertion order, and the order shows in the
      lists the registry returns, so a set is a duplicate-free [list string]
      with [set_add] appending at the end.
    - [string | null] is [option string]; the truthiness test of JavaScript
      ([!x], [x && ...]) is [truthy]: [null] and the empty string are falsy.
    - Functions that mutate the singleton [roomManager] take the registry
      and return the new one next to their result.
    - Socket operations are collected, in program order, as a list of
      [Effect]s. *)

From stdpp Require Import gmap strings list.
From Stdlib Require Import ZArith Ascii.

Open Scope string_scope.
Open Scope list_scope.
Open Scope nat_scope.

(** ** JavaScript values *)

(** [!!x] for [x : string | null]. *)
Definition truthy (x : option string) : bool :=
  match x with
  | Some s => negb (bool_decide (s = EmptyString))
  | None => false
  end.

(** [!!s] for [s : string]. *)
Definition truthy_str (s : string) : bool := negb (bool_decide (s = EmptyString)).

(** [Set.prototype.add]: a new element goes last, a present one stays. *)
Definition set_add (x : string) (s : list string) : list string :=
  if bool_decide (x ∈ s) then s else s ++ [x].

(** [Set.prototype.delete]. *)
Definition set_delete (x : string) (s : list string) : list string :=
  filter (λ y, y ≠ x) s.

(** ** types.ts: internal types *)

Module Peer.
Record t := mk {
  socketId : string;
  roomId : option string;
  userId : option string;
  appId : option string
}.
End Peer.

Module Room.
Record t := mk {
  id : string;
  appId : string;
  peers : list string;
  maxParticipants : nat
}.
End Room.

(** ** room-manager.ts *)

Definition DEFAULT_MAX_PARTICIPANTS : nat := 2.

Record RoomManager := mkRoomManager {
  rooms : gmap string Room.t;
  peers : gmap string Peer.t
}.

Definition emptyManager : RoomManager := mkRoomManager ∅ ∅.

Definition freshPeer (socketId : string) : Peer.t :=
  Peer.mk socketId None None None.

Definition registerPeer (socketId : string) (rm : RoomManager)
  : RoomManager * Peer.t :=
  let peer := freshPeer socketId in
  (mkRoomManager (rooms rm) (<[socketId := peer]> (peers rm)), peer).

Definition getPeer (socketId : string) (rm : RoomManager) : option Peer.t :=
  peers rm !! socketId.

Inductive JoinResult :=
| JoinSuccess
| JoinFailure (error code : string).

Definition joinRoom (socketId roomId userId appId : string) (rm : RoomManager)
  : RoomManager * JoinResult :=
  match peers rm !! socketId with
  | None => (rm, JoinFailure "Peer not found" "INTERNAL_ERROR")
  | Some peer =>
    if bool_decide (Peer.roomId peer ≠ None) then
      (rm, JoinFailure "Already in a room" "ALREADY_IN_ROOM")
    else
      (* get or create room *)
      let '(room, rooms1) :=
        match rooms rm !! roomId with
        | Some room => (room, rooms rm)
        | None =>
          let room := Room.mk roomId appId [] DEFAULT_MAX_PARTICIPANTS in
          (room, <[roomId := room]> (rooms rm))
        end in
      if bool_decide (0 < length (Room.peers room))
         && bool_decide (Room.appId room ≠ appId) then
        (mkRoomManager rooms1 (peers rm),
         JoinFailure "Room belongs to different app" "INVALID_TOKEN")
      else if bool_decide (Room.maxParticipants room ≤ length (Room.peers room)) then
        (mkRoomManager rooms1 (peers rm),
         JoinFailure "Room is full" "ROOM_FULL")
      else
        let room' := Room.mk (Room.id room) (Room.appId room)
                             (set_add socketId (Room.peers room))
                             (Room.maxParticipants room) in
        let peer' := Peer.mk (Peer.socketId peer)
                             (Some roomId) (Some userId) (Some appId) in
        (mkRoomManager (<[roomId := room']> rooms1)
                       (<[socketId := peer']> (peers rm)),
         JoinSuccess)
  end.

Record LeaveResult := mkLeaveResult {
  lr_roomId : string;
  lr_remainingPeers : list string
}.

Definition leaveRoom (socketId : string) (rm : RoomManager)
  : RoomManager * option LeaveResult :=
  match peers rm !! socketId with
  | None => (rm, None)
  | Some peer =>
    match Peer.roomId peer with
    | None => (rm, None)
    | Some roomId =>
      if negb (truthy (Some roomId)) then (rm, None)
      else
        match rooms rm !! roomId with
        | None => (rm, None)
        | Some room =>
          let members := set_delete socketId (Room.peers room) in
          let room' := Room.mk (Room.id room) (Room.appId room) members
                               (Room.maxParticipants room) in
          let rooms' :=
            if bool_decide (length members = 0)
            then delete roomId (rooms rm)
            else <[roomId := room']> (rooms rm) in
          let peer' := Peer.mk (Peer.socketId peer) None None None in
          (mkRoomManager rooms' (<[socketId := peer']> (peers rm)),
           Some (mkLeaveResult roomId members))
        end
    end
  end.

Record RemoveResult := mkRemoveResult {
  rr_roomId : string;
  rr_remainingPeers : list string;
  rr_userId : string
}.

Definition removePeer (socketId : string) (rm : RoomManager)
  : RoomManager * option RemoveResult :=
  match peers rm !! socketId with
  | None => (rm, None)
  | Some peer =>
    let userId := Peer.userId peer in
    let '(rm1, leaveResult) := leaveRoom socketId rm in
    let rm2 := mkRoomManager (rooms rm1) (delete socketId (peers rm1)) in
    match leaveResult, userId with
    | Some lr, Some u =>
      if truthy (Some u)
      then (rm2, Some (mkRemoveResult (lr_roomId lr) (lr_remainingPeers lr) u))
      else (rm2, None)
    | _, _ => (rm2, None)
    end
  end.

Definition getRoomPeers (socketId : string) (rm : RoomManager) : list string :=
  match peers rm !! socketId with
  | None => []
  | Some peer =>
    match Peer.roomId peer with
    | None => []
    | Some roomId =>
      if negb (truthy (Some roomId)) then []
      else
        match rooms rm !! roomId with
        | None => []
        | Some room => filter (λ id, id ≠ socketId) (Room.peers room)
        end
    end
  end.

(** The [userId] pushed for one member in the loop of [getRoomUserIds]:
    nothing when the peer record is missing or its [userId] is falsy. *)
Definition memberUserId (rm : RoomManager) (socketId : string) : option string :=
  match peers rm !! socketId with
  | Some peer => if truthy (Peer.userId peer) then Peer.userId peer else None
  | None => None
  end.

Definition getRoomUserIds (roomId : string) (rm : RoomManager) : list string :=
  match rooms rm !! roomId with
  | None => []
  | Some room => omap (memberUserId rm) (Room.peers room)
  end.

Definition getUserId (socketId : string) (rm : RoomManager) : option string :=
  match peers rm !! socketId with
  | Some peer => Peer.userId peer
  | None => None
  end.

Definition getRoom (roomId : string) (rm : RoomManager) : option Room.t :=
  rooms rm !! roomId.

Record Stats := mkStats {
  totalPeers : nat;
  totalRooms : nat;
  peersInRooms : nat
}.

Definition getStats (rm : RoomManager) : Stats :=
  mkStats (size (peers rm)) (size (rooms rm))
          (map_fold (λ _ room acc, acc + length (Room.peers room)) 0 (rooms rm)).

(** ** types.ts: wire protocol *)

#[local] Set Warnings "-register-all".

(** A parsed JSON value, as [JSON.parse] returns it.  An object is the list
    of its properties, one binding per key. *)
Inductive Json :=
| JNull
| JBool (b : bool)
| JNum (n : Z)
| JStr (s : string)
| JArr (items : list Json)
| JObj (props : list (string * Json)).

(** Property access [obj[key]]; [None] is [undefined]. *)
Fixpoint lookupProp (key : string) (props : list (string * Json)) : option Json :=
  match props with
  | [] => None
  | (k, v) :: rest => if bool_decide (k = key) then Some v else lookupProp key rest
  end.

Definition prop (key : string) (data : Json) : option Json :=
  match data with
  | JObj props => lookupProp key props
  | _ => None
  end.

(** [typeof v === 'object' && v !== null], for a property that may be absent. *)
Definition isObject (v : option Json) : bool :=
  match v with
  | Some (JObj _) | Some (JArr _) => true
  | _ => false
  end.

(** [typeof v === 'string']. *)
Definition isString (v : option Json) : bool :=
  match v with
  | Some (JStr _) => true
  | _ => false
  end.

Inductive IncomingMessage :=
| JoinMessage (roomId token : string)
| OfferMessage (sdp : Json)
| AnswerMessage (sdp : Json)
| IceCandidateMessage (candidate : Json)
| LeaveMessage.

Inductive OutgoingMessage :=
| PeerJoinedMessage (userId : string) (isInitiator : bool)
| PeerLeftMessage (userId : string)
| RelayedOfferMessage (sdp : Json) (fromUserId : string)
| RelayedAnswerMessage (sdp : Json) (fromUserId : string)
| RelayedIceMessage (candidate : Json) (fromUserId : string)
| JoinedMessage (roomId userId : string) (peers : list string)
| ErrorMessage (code message : string).

Module SignalingErrorCodes.
Definition INVALID_MESSAGE := "INVALID_MESSAGE".
Definition INVALID_TOKEN := "INVALID_TOKEN".
Definition TOKEN_EXPIRED := "TOKEN_EXPIRED".
Definition ROOM_FULL := "ROOM_FULL".
Definition NOT_IN_ROOM := "NOT_IN_ROOM".
Definition ALREADY_IN_ROOM := "ALREADY_IN_ROOM".
Definition INTERNAL_ERROR := "INTERNAL_ERROR".

(** The values of the [SignalingErrorCodes] object. *)
Definition values : list string :=
  [INVALID_MESSAGE; INVALID_TOKEN; TOKEN_EXPIRED; ROOM_FULL;
   NOT_IN_ROOM; ALREADY_IN_ROOM; INTERNAL_ERROR].
End SignalingErrorCodes.

(** The type guard [isValidIncomingMessage]. *)
Definition isValidIncomingMessage (data : Json) : bool :=
  match data with
  | JObj _ | JArr _ =>
    match prop "type" data with
    | Some (JStr type) =>
      if bool_decide (type = "join") then
        isString (prop "roomId" data) && isString (prop "token" data)
      else if bool_decide (type = "offer") || bool_decide (type = "answer") then
        isObject (prop "sdp" data)
      else if bool_decide (type = "ice") then
        isObject (prop "candidate" data)
      else if bool_decide (type = "leave") then true
      else false
    | _ => false
    end
  | _ => false
  end.

(** The narrowing of a guarded value to [IncomingMessage]: the fields the
    [switch] of [handleMessage] reads. *)
Definition asIncomingMessage (data : Json) : option IncomingMessage :=
  match prop "type" data with
  | Some (JStr type) =>
    if bool_decide (type = "join") then
      match prop "roomId" data, prop "token" data with
      | Some (JStr roomId), Some (JStr token) => Some (JoinMessage roomId token)
      | _, _ => None
      end
    else if bool_decide (type = "offer") then OfferMessage <$> prop "sdp" data
    else if bool_decide (type = "answer") then AnswerMessage <$> prop "sdp" data
    else if bool_decide (type = "ice") then IceCandidateMessage <$> prop "candidate" data
    else if bool_decide (type = "leave") then Some LeaveMessage
    else None
  | _ => None
  end.

(** ** token.types.ts and the claims of types.ts *)

(** [TokenClaims] of the API.  After [jwt.verify] the object is only cast,
    so at run time [role] is whatever string the payload holds. *)
Module TokenClaims.
Record t := mk {
  jti : string;
  appId : string;
  roomId : string;
  userId : string;
  role : string
}.
End TokenClaims.

(** [TokenPayload] of the API, which is [TokenClaims] of the signaling
    server: the claims with [iat] and [exp], in seconds.  A token that was
    signed without a lifetime has no [exp]. *)
Module TokenPayload.
Record t := mk {
  jti : string;
  appId : string;
  roomId : string;
  userId : string;
  role : string;
  iat : Z;
  exp : option Z
}.
End TokenPayload.

Record CreateTokenInput := mkCreateTokenInput {
  input_userId : string;
  input_role : string;
  input_expiresIn : option string
}.

(** [expiresAt] is kept as the instant in epoch seconds that the source
    prints with [toISOString]. *)
Record CreateTokenResponse := mkCreateTokenResponse {
  token : string;
  expiresAt : Z
}.

(** ** jsonwebtoken

    The library is a dependency of the repository.  Its interface is a
    class: the MAC under a key, and the compact serialization of a signed
    payload with its inverse.  [sign] and [verify] follow the library for
    HS256 tokens whose payload has the seven fields above. *)

Class JwtLib := {
  hmacSha256 : string → TokenPayload.t → string;
  jwtEncode : TokenPayload.t → string → string;
  jwtDecode : string → option (TokenPayload.t * string);
  jwtDecode_encode : ∀ payload signature,
    jwtDecode (jwtEncode payload signature) = Some (payload, signature)
}.

Inductive JwtError :=
| TokenExpiredError
| JsonWebTokenError (message : string).

Section Jwt.
Context `{JwtLib}.

(** [jwt.sign(claims, secret, { expiresIn })] at clock reading
    [timestamp] (seconds). *)
Definition jwt_sign (claims : TokenClaims.t) (secret : string)
    (expiresIn timestamp : Z) : string :=
  let payload :=
    TokenPayload.mk (TokenClaims.jti claims) (TokenClaims.appId claims)
                    (TokenClaims.roomId claims) (TokenClaims.userId claims)
                    (TokenClaims.role claims)
                    timestamp (Some (timestamp + expiresIn)%Z) in
  jwtEncode payload (hmacSha256 secret payload).

(** [jwt.verify(token, secret)] at clock reading [clockTimestamp]: the
    signature is checked first, then [exp] when the payload has one. *)
Definition jwt_verify (token secret : string) (clockTimestamp : Z)
  : JwtError + TokenPayload.t :=
  match jwtDecode token with
  | None => inl (JsonWebTokenError "jwt malformed")
  | Some (payload, signature) =>
    if bool_decide (signature ≠ hmacSha256 secret payload) then
      inl (JsonWebTokenError "invalid signature")
    else
      match TokenPayload.exp payload with
      | Some exp =>
        if bool_decide (exp ≤ clockTimestamp)%Z then inl TokenExpiredError
        else inr payload
      | None => inr payload
      end
  end.
End Jwt.

(** ** server.ts *)

Inductive ReadyState := CONNECTING | OPEN | CLOSING | CLOSED.

#[global] Instance ReadyState_eq_dec : EqDecision ReadyState.
Proof. solve_decision. Defined.

Record ExtendedWebSocket := mkSocket {
  ws_socketId : string;
  readyState : ReadyState;
  isAlive : bool
}.

Record WebSocketServer := mkWss {
  clients : list ExtendedWebSocket
}.

(** What a handler does to sockets.  These are all the socket operations
    of server.ts: [socket.send], [socket.ping] and [socket.terminate]; the
    file never calls [socket.close]. *)
Inductive Effect :=
| Send (socketId : string) (message : OutgoingMessage)
| Ping (socketId : string)
| Terminate (socketId : string).

Definition findSocket (wss : WebSocketServer) (socketId : string)
  : option ExtendedWebSocket :=
  List.find (λ socket, bool_decide (ws_socketId socket = socketId)
                       && bool_decide (readyState socket = OPEN))
            (clients wss).

Definition send (socket : ExtendedWebSocket) (message : OutgoingMessage)
  : list Effect :=
  if bool_decide (readyState socket = OPEN)
  then [Send (ws_socketId socket) message]
  else [].

Definition sendError (socket : ExtendedWebSocket) (code message : string)
  : list Effect :=
  send socket (ErrorMessage code message).

(** The loop shared by [handleJoin], [handleOffer], [handleAnswer],
    [handleIce] and [notifyPeerLeft]: look each socket id up and send the
    frame to the sockets found. *)
Definition sendToPeers (wss : WebSocketServer) (peerSocketIds : list string)
    (message : OutgoingMessage) : list Effect :=
  flat_map (λ peerSocketId,
              match findSocket wss peerSocketId with
              | Some peerSocket => send peerSocket message
              | None => []
              end)
           peerSocketIds.

Definition notifyPeerLeft (wss : WebSocketServer) (peerSocketIds : list string)
    (userId : string) : list Effect :=
  sendToPeers wss peerSocketIds (PeerLeftMessage userId).

(** The guard [!peer?.roomId || !peer.userId] of the relay handlers and of
    [handleLeave], returning the [userId] when it passes. *)
Definition joinedUserId (socket : ExtendedWebSocket) (rm : RoomManager)
  : option string :=
  match getPeer (ws_socketId socket) rm with
  | Some peer =>
    if truthy (Peer.roomId peer) && truthy (Peer.userId peer)
    then Peer.userId peer
    else None
  | None => None
  end.

(** The body shared by [handleOffer], [handleAnswer] and [handleIce]. *)
Definition relay (socket : ExtendedWebSocket) (wss : WebSocketServer)
    (rm : RoomManager) (frame : string → OutgoingMessage) : list Effect :=
  match joinedUserId socket rm with
  | None =>
    sendError socket SignalingErrorCodes.NOT_IN_ROOM "Must join a room first"
  | Some userId =>
    sendToPeers wss (getRoomPeers (ws_socketId socket) rm) (frame userId)
  end.

Definition handleOffer (socket : ExtendedWebSocket) (sdp : Json)
    (wss : WebSocketServer) (rm : RoomManager) : list Effect :=
  relay socket wss rm (RelayedOfferMessage sdp).

Definition handleAnswer (socket : ExtendedWebSocket) (sdp : Json)
    (wss : WebSocketServer) (rm : RoomManager) : list Effect :=
  relay socket wss rm (RelayedAnswerMessage sdp).

Definition handleIce (socket : ExtendedWebSocket) (candidate : Json)
    (wss : WebSocketServer) (rm : RoomManager) : list Effect :=
  relay socket wss rm (RelayedIceMessage candidate).

Definition handleLeave (socket : ExtendedWebSocket) (wss : WebSocketServer)
    (rm : RoomManager) : RoomManager * list Effect :=
  match joinedUserId socket rm with
  | None => (rm, [])
  | Some userId =>
    let '(rm', result) := leaveRoom (ws_socketId socket) rm in
    match result with
    | Some r => (rm', notifyPeerLeft wss (lr_remainingPeers r) userId)
    | None => (rm', [])
    end
  end.

Definition handleDisconnect (socket : ExtendedWebSocket) (wss : WebSocketServer)
    (rm : RoomManager) : RoomManager * list Effect :=
  let '(rm', result) := removePeer (ws_socketId socket) rm in
  match result with
  | Some r => (rm', notifyPeerLeft wss (rr_remainingPeers r) (rr_userId r))
  | None => (rm', [])
  end.

Section Signaling.
Context `{JwtLib}.

(** [handleJoin] from "Get existing peers before joining" on: the part
    that runs once the token has verified and names the requested room. *)
Definition admitAndNotify (socket : ExtendedWebSocket) (roomId : string)
    (claims : TokenPayload.t) (wss : WebSocketServer) (rm : RoomManager)
  : RoomManager * list Effect :=
  let existingPeers := getRoomUserIds roomId rm in
  let '(rm', result) :=
    joinRoom (ws_socketId socket) roomId
             (TokenPayload.userId claims) (TokenPayload.appId claims) rm in
  match result with
  | JoinFailure error code => (rm', sendError socket code error)
  | JoinSuccess =>
    (rm',
     send socket (JoinedMessage roomId (TokenPayload.userId claims) existingPeers)
     ++ sendToPeers wss (getRoomPeers (ws_socketId socket) rm')
                    (PeerJoinedMessage (TokenPayload.userId claims) true))
  end.

(** [now] is the reading of the clock that [jwt.verify] takes. *)
Definition handleJoin (socket : ExtendedWebSocket) (roomId token jwtSecret : string)
    (wss : WebSocketServer) (now : Z) (rm : RoomManager)
  : RoomManager * list Effect :=
  match jwt_verify token jwtSecret now with
  | inl TokenExpiredError =>
    (rm, sendError socket SignalingErrorCodes.TOKEN_EXPIRED "Token has expired")
  | inl (JsonWebTokenError _) =>
    (rm, sendError socket SignalingErrorCodes.INVALID_TOKEN "Invalid token")
  | inr claims =>
    if bool_decide (TokenPayload.roomId claims ≠ roomId) then
      (rm, sendError socket SignalingErrorCodes.INVALID_TOKEN
                     "Token not valid for this room")
    else admitAndNotify socket roomId claims wss rm
  end.

(** [data] is the result of [JSON.parse(data.toString())], [None] when it
    throws. *)
Definition handleMessage (socket : ExtendedWebSocket) (data : option Json)
    (jwtSecret : string) (wss : WebSocketServer) (now : Z) (rm : RoomManager)
  : RoomManager * list Effect :=
  match data with
  | None =>
    (rm, sendError socket SignalingErrorCodes.INVALID_MESSAGE "Invalid JSON")
  | Some message =>
    if negb (isValidIncomingMessage message) then
      (rm, sendError socket SignalingErrorCodes.INVALID_MESSAGE
                     "Invalid message format")
    else
      match asIncomingMessage message with
      | Some (JoinMessage roomId token) =>
        handleJoin socket roomId token jwtSecret wss now rm
      | Some (OfferMessage sdp) => (rm, handleOffer socket sdp wss rm)
      | Some (AnswerMessage sdp) => (rm, handleAnswer socket sdp wss rm)
      | Some (IceCandidateMessage candidate) =>
        (rm, handleIce socket candidate wss rm)
      | Some LeaveMessage => handleLeave socket wss rm
      | None => (rm, [])
      end
  end.
End Signaling.

(** The ['connection'] callback: the new socket gets [socketId] (a fresh
    UUID in the source) and is registered as a peer. *)
Definition handleConnection (socketId : string) (wss : WebSocketServer)
    (rm : RoomManager) : WebSocketServer * RoomManager :=
  (mkWss (clients wss ++ [mkSocket socketId OPEN true]),
   (registerPeer socketId rm).1).

(** [socket.terminate()] of the ws library: a socket that is not closed
    is closing from the call on; its ['close'] event comes later. *)
Definition terminate (socket : ExtendedWebSocket) : ExtendedWebSocket :=
  if bool_decide (readyState socket = CLOSED) then socket
  else mkSocket (ws_socketId socket) CLOSING (isAlive socket).

(** One tick of the heartbeat interval: a socket whose flag is clear is
    terminated, the others have their flag cleared and are pinged.  The
    tick leaves the set of clients as it is: a terminated socket leaves it
    with its ['close'] event. *)
Definition heartbeat (wss : WebSocketServer) : WebSocketServer * list Effect :=
  (mkWss (List.map (λ socket,
                      if isAlive socket
                      then mkSocket (ws_socketId socket) (readyState socket) false
                      else terminate socket)
                   (clients wss)),
   List.map (λ socket,
               if isAlive socket then Ping (ws_socketId socket)
               else Terminate (ws_socketId socket))
            (clients wss)).

(** ** shared/errors.ts *)

Inductive AppError :=
| ValidationError (message : string)
| ForbiddenError (message : string)
| NotFoundError (resource id : string).

Definition statusCode (e : AppError) : Z :=
  match e with
  | ValidationError _ => 400
  | ForbiddenError _ => 403
  | NotFoundError _ _ => 404
  end.

Definition errorCode (e : AppError) : string :=
  match e with
  | ValidationError _ => "VALIDATION_ERROR"
  | ForbiddenError _ => "FORBIDDEN"
  | NotFoundError _ _ => "NOT_FOUND"
  end.

(** ** Strings of JavaScript

    A string is its sequence of code units, here the ones below 256. *)

(** White space and line terminators, as [String.prototype.trim] strips
    them: TAB, LF, VT, FF, CR, SP and NBSP. *)
Definition isWhiteSpace (c : Ascii.ascii) : bool :=
  bool_decide (Ascii.nat_of_ascii c ∈ [9; 10; 11; 12; 13; 32; 160]).

Fixpoint trimStart (s : string) : string :=
  match s with
  | EmptyString => EmptyString
  | String c rest => if isWhiteSpace c then trimStart rest else s
  end.

Fixpoint trimEnd (s : string) : string :=
  match s with
  | EmptyString => EmptyString
  | String c rest =>
    let rest' := trimEnd rest in
    if isWhiteSpace c && bool_decide (rest' = EmptyString)
    then EmptyString
    else String c rest'
  end.

Definition trim (s : string) : string := trimEnd (trimStart s).

(** [\d] *)
Definition isDigit (c : Ascii.ascii) : bool :=
  bool_decide (48 ≤ Ascii.nat_of_ascii c ≤ 57).

Definition digitValue (c : Ascii.ascii) : Z := Z.of_nat (Ascii.nat_of_ascii c) - 48.

(** [expiresIn.match(/^(\d+)([smhd])$/)] with [parseInt(match[1], 10)]
    already applied to the first group: [acc] is the value of the digits
    read so far, [None] before the first one. *)
Fixpoint matchExpiresIn (acc : option Z) (s : string) : option (Z * Ascii.ascii) :=
  match s with
  | EmptyString => None
  | String c EmptyString =>
    match acc with
    | Some value =>
      if bool_decide (c ∈ ["s"; "m"; "h"; "d"]%char) then Some (value, c) else None
    | None => None
    end
  | String c rest =>
    if isDigit c
    then matchExpiresIn (Some (10 * default 0%Z acc + digitValue c)%Z) rest
    else None
  end.

(** ** room.service.ts *)

(** The Prisma [Room] model. *)
Module DbRoom.
Record t := mk {
  id : string;
  name : string;
  maxParticipants : Z;
  appId : string;
  createdAt : Z
}.
End DbRoom.

Module RoomService.
Definition DEFAULT_MAX_PARTICIPANTS : Z := 2.
Definition MAX_PARTICIPANTS_LIMIT : Z := 1000.

Record CreateRoomInput := mkCreateRoomInput {
  name : string;
  maxParticipants : option Z
}.

(** [prisma.room.create] assigns [id] and [createdAt]; they are the
    arguments [newId] and [createdAt].  The result is the stored row. *)
Definition createRoom (newId : string) (createdAt : Z)
    (appId : string) (input : CreateRoomInput)
    (db : gmap string DbRoom.t) : AppError + gmap string DbRoom.t * DbRoom.t :=
  if negb (truthy_str (name input)) || bool_decide (trim (name input) = EmptyString) then
    inl (ValidationError "Room name is required")
  else if negb (truthy_str appId) then
    inl (ValidationError "App ID is required")
  else
    let maxParticipants := default DEFAULT_MAX_PARTICIPANTS (maxParticipants input) in
    if bool_decide (maxParticipants < 1)%Z
       || bool_decide (maxParticipants > MAX_PARTICIPANTS_LIMIT)%Z then
      inl (ValidationError "Max participants must be between 1 and 1000")
    else
      let room := DbRoom.mk newId (trim (name input)) maxParticipants appId createdAt in
      inr (<[newId := room]> db, room).

Definition getRoomInternal (roomId : string) (db : gmap string DbRoom.t)
  : option DbRoom.t :=
  db !! roomId.
End RoomService.

(** ** token.service.ts *)

Record Config := mkConfig {
  jwt_secret : string;
  jwt_expiresIn : string
}.

Definition VALID_ROLES : list string := ["host"; "participant"; "viewer"].

Definition dquote : string := String (Ascii.ascii_of_nat 34) EmptyString.

(** The message of the first [ValidationError] of [parseExpiresIn], which
    quotes its three examples. *)
Definition invalidExpiresInMessage : string :=
  String.concat EmptyString
    ["Invalid expiresIn format. Use format like "; dquote; "1h"; dquote; ", ";
     dquote; "30m"; dquote; ", "; dquote; "7d"; dquote].

(** [Number.MAX_SAFE_INTEGER]: up to here the numbers of the source are
    the integers. *)
Definition MAX_SAFE_INTEGER : Z := 9007199254740991.

(** The result is the integer that the digits and the unit denote.  The
    source computes it in doubles: up to [MAX_SAFE_INTEGER] its number is
    this integer, beyond it is a rounded one or [Infinity].
    [createToken], the one caller, treats the two ranges apart. *)
Definition parseExpiresIn (expiresIn : string) : AppError + Z :=
  match matchExpiresIn None expiresIn with
  | None =>
    inl (ValidationError invalidExpiresInMessage)
  | Some (value, unit) =>
    if bool_decide (unit = "s"%char) then inr value
    else if bool_decide (unit = "m"%char) then inr (value * 60)%Z
    else if bool_decide (unit = "h"%char) then inr (value * 60 * 60)%Z
    else if bool_decide (unit = "d"%char) then inr (value * 60 * 60 * 24)%Z
    else inl (ValidationError "Invalid time unit")
  end.

(** The [claims] object that [createToken] assembles and signs. *)
Definition issuedClaims (jti appId roomId : string) (input : CreateTokenInput)
  : TokenClaims.t :=
  TokenClaims.mk jti appId roomId (trim (input_userId input)) (input_role input).

(** [input.expiresIn || config.jwt.expiresIn] *)
Definition expiresInOrDefault (config : Config) (input : CreateTokenInput) : string :=
  if truthy (input_expiresIn input)
  then default (jwt_expiresIn config) (input_expiresIn input)
  else jwt_expiresIn config.

(** The largest time value of a [Date], in milliseconds; beyond it, on
    either side, [new Date(ms)] is an invalid date. *)
Definition MAX_TIME_VALUE : Z := 8640000000000000.

Definition validTimeValue (ms : Z) : bool :=
  bool_decide (- MAX_TIME_VALUE ≤ ms ≤ MAX_TIME_VALUE)%Z.

(** What [createToken] throws: one of the typed errors of errors.ts; the
    RangeError of [toISOString] on an invalid date; or, for a time to live
    beyond [MAX_SAFE_INTEGER], where the doubles of the source are
    rounded, an exception of the runtime that is no typed error: the
    RangeError of [toISOString], or the Error of [jwt.sign] when the
    lifetime is not finite. *)
Inductive Thrown :=
| AppErr (e : AppError)
| RangeError
| NativeError.

Section TokenService.
Context `{JwtLib}.
Variable config : Config.

(** [db] is the room table that [getRoomInternal] reads, [now] the
    reading of [Date.now()] in seconds, [signTime] the reading that
    [jwt.sign] takes for [iat], and [jti] the value of [generateJti()].
    The token is signed before [expiresAt] is formatted; when the
    formatting throws, no response is returned. *)
Definition createToken (db : gmap string DbRoom.t) (now signTime : Z)
    (jti : string) (appId roomId : string) (input : CreateTokenInput)
  : Thrown + CreateTokenResponse :=
  if negb (truthy_str appId) then
    inl (AppErr (ValidationError "App ID is required"))
  else if negb (truthy_str roomId) then
    inl (AppErr (ValidationError "Room ID is required"))
  else if negb (truthy_str (input_userId input))
          || bool_decide (String.length (trim (input_userId input)) = 0) then
    inl (AppErr (ValidationError "User ID is required"))
  else if negb (truthy_str (input_role input))
          || negb (bool_decide (input_role input ∈ VALID_ROLES)) then
    inl (AppErr (ValidationError "Role must be one of: host, participant, viewer"))
  else
    match RoomService.getRoomInternal roomId db with
    | None => inl (AppErr (NotFoundError "Room" roomId))
    | Some room =>
      if bool_decide (DbRoom.appId room ≠ appId) then
        inl (AppErr (ForbiddenError "Room does not belong to this app"))
      else
        let expiresIn := expiresInOrDefault config input in
        match parseExpiresIn expiresIn with
        | inl e => inl (AppErr e)
        | inr expiresInSeconds =>
          let exp := (now + expiresInSeconds)%Z in
          if bool_decide (MAX_SAFE_INTEGER < expiresInSeconds)%Z then
            inl NativeError
          else if negb (validTimeValue (exp * 1000)) then
            inl RangeError
          else
            let claims := issuedClaims jti appId roomId input in
            let token :=
              jwt_sign claims (jwt_secret config) expiresInSeconds signTime in
            inr (mkCreateTokenResponse token exp)
        end
    end.

Definition verifyToken (token : string) (now : Z) : AppError + TokenClaims.t :=
  match jwt_verify token (jwt_secret config) now with
  | inr decoded =>
    inr (TokenClaims.mk (TokenPayload.jti decoded) (TokenPayload.appId decoded)
                        (TokenPayload.roomId decoded) (TokenPayload.userId decoded)
                        (TokenPayload.role decoded))
  | inl TokenExpiredError => inl (ValidationError "Token has expired")
  | inl (JsonWebTokenError _) => inl (ValidationError "Invalid token")
  end.
End TokenService.

(** ** token.schema.ts *)

(** The constraints of [createTokenSchema.body] on a body whose fields
    have their declared types: [userId] of 1 to 255 characters, [role] one
    of the three, [expiresIn], when given, matching [^[0-9]+[smhd]$]. *)
Definition createTokenSchema_body (input : CreateTokenInput) : bool :=
  bool_decide (1 ≤ String.length (input_userId input) ≤ 255)
  && bool_decide (input_role input ∈ ["host"; "participant"; "viewer"])
  && match input_expiresIn input with
     | Some expiresIn => bool_decide (is_Some (matchExpiresIn None expiresIn))
     | None => true
     end.

(** ** The registry invariants *)

(** The member set of a room, empty when the registry has no entry. *)
Definition roomMembers (roomId : string) (rm : RoomManager) : list string :=
  match rooms rm !! roomId with
  | Some room => Room.peers room
  | None => []
  end.

Record inv (rm : RoomManager) : Prop := mkInv {
  (** forward index into reverse index *)
  inv_forward : ∀ c p r,
    peers rm !! c = Some p → Peer.roomId p = Some r →
    ∃ room, rooms rm !! r = Some room ∧ c ∈ Room.peers room;
  (** reverse index into forward index *)
  inv_reverse : ∀ r room c,
    rooms rm !! r = Some room → c ∈ Room.peers room →
    ∃ p, peers rm !! c = Some p ∧ Peer.roomId p = Some r;
  (** no connection in the member sets of two rooms *)
  inv_one_room : ∀ r1 r2 room1 room2 c,
    rooms rm !! r1 = Some room1 → rooms rm !! r2 = Some room2 →
    c ∈ Room.peers room1 → c ∈ Room.peers room2 → r1 = r2;
  (** no room entry with an empty member set *)
  inv_nonempty : ∀ r room,
    rooms rm !! r = Some room → Room.peers room ≠ [];
  (** the capacity bound *)
  inv_capacity : ∀ r room,
    rooms rm !! r = Some room →
    length (Room.peers room) ≤ Room.maxParticipants room;
  (** a member set is a set *)
  inv_nodup : ∀ r room,
    rooms rm !! r = Some room → NoDup (Room.peers room)
}.

(** The connection is in no room according to the forward index: it has no
    peer record, or a record whose [roomId] is [null]. *)
Definition notInRoom (socketId : string) (rm : RoomManager) : Prop :=
  ∀ p, peers rm !! socketId = Some p → Peer.roomId p = None.

(** The connection is not in the room whose id is the empty string, the
    one room id that the test [!peer.roomId] of [leaveRoom] takes for
    [null]. *)
Definition notInEmptyNamedRoom (socketId : string) (rm : RoomManager) : Prop :=
  ∀ p, peers rm !! socketId = Some p → Peer.roomId p ≠ Some EmptyString.

(** The invariants as a check that runs. *)
Definition peerOk (rm : RoomManager) (c : string) (p : Peer.t) : bool :=
  match Peer.roomId p with
  | None => true
  | Some r =>
    bool_decide (is_Some (rooms rm !! r)) && bool_decide (c ∈ roomMembers r rm)
  end.

Definition memberOk (rm : RoomManager) (r c : string) : bool :=
  match peers rm !! c with
  | Some p => bool_decide (Peer.roomId p = Some r)
  | None => false
  end.

Definition roomOk (rm : RoomManager) (r : string) (room : Room.t) : bool :=
  forallb (memberOk rm r) (Room.peers room)
  && negb (bool_decide (Room.peers room = []))
  && bool_decide (length (Room.peers room) ≤ Room.maxParticipants room)
  && bool_decide (NoDup (Room.peers room)).

Definition invb (rm : RoomManager) : bool :=
  forallb (λ cp, peerOk rm cp.1 cp.2) (map_to_list (peers rm))
  && forallb (λ rr, roomOk rm rr.1 rr.2) (map_to_list (rooms rm)).

(** The registries that the four operations build from the empty one. *)
Inductive reachable : RoomManager → Prop :=
| reach_empty : reachable emptyManager
| reach_register c rm : reachable rm → reachable (registerPeer c rm).1
| reach_join c r u a rm : reachable rm → reachable (joinRoom c r u a rm).1
| reach_leave c rm : reachable rm → reachable (leaveRoom c rm).1
| reach_remove c rm : reachable rm → reachable (removePeer c rm).1.

(** ** Registries of the examples *)

(** Three registries: one connection
    registered, then admitted to room R of tenant T as alice, then a second
    connection admitted to the same room as bob. *)
Definition rmRegistered : RoomManager := (registerPeer "c1" emptyManager).1.
Definition rmAlice : RoomManager := (joinRoom "c1" "R" "alice" "T" rmRegistered).1.
Definition rmAliceBob : RoomManager :=
  (joinRoom "c2" "R" "bob" "T" (registerPeer "c2" rmAlice).1).1.

(** Every entry has the default cap and no more members than it. *)
Definition capped (rm : RoomManager) : Prop :=
  ∀ r room, rooms rm !! r = Some room →
    Room.maxParticipants room = DEFAULT_MAX_PARTICIPANTS ∧
    length (Room.peers room) ≤ DEFAULT_MAX_PARTICIPANTS.

(** ** Recipients of a frame *)

(** The socket ids among [ids] for which [findSocket] finds an open
    socket. *)
Definition openPeers (wss : WebSocketServer) (ids : list string) : list string :=
  filter (λ id, is_Some (findSocket wss id)) ids.

(** The members other than [socketId]. *)
Definition others (socketId : string) (members : list string) : list string :=
  filter (λ id, id ≠ socketId) members.

(** ** An instance of the token library

    The laws of [JwtLib] hold for this instance, which the examples use: a
    token is the binary numeral of the code of its payload and signature,
    and the MAC lists the key and the claims. *)

#[global] Instance TokenPayload_eq_dec : EqDecision TokenPayload.t.
Proof. solve_decision. Defined.

#[global] Instance TokenPayload_countable : Countable TokenPayload.t.
Proof.
  refine (inj_countable'
    (λ p, (TokenPayload.jti p, TokenPayload.appId p, TokenPayload.roomId p,
           TokenPayload.userId p, TokenPayload.role p,
           TokenPayload.iat p, TokenPayload.exp p))
    (λ t, let '(jti, appId, roomId, userId, role, iat, exp) := t in
          TokenPayload.mk jti appId roomId userId role iat exp) _).
  by intros [].
Defined.

Fixpoint bitsOfPositive (p : positive) : string :=
  match p with
  | xH => EmptyString
  | xO q => String "0" (bitsOfPositive q)
  | xI q => String "1" (bitsOfPositive q)
  end.

Fixpoint positiveOfBits (s : string) : option positive :=
  match s with
  | EmptyString => Some xH
  | String c rest =>
    if bool_decide (c = "0"%char) then xO <$> positiveOfBits rest
    else if bool_decide (c = "1"%char) then xI <$> positiveOfBits rest
    else None
  end.

#[global] Instance demoJwt : JwtLib.
Proof.
  refine {|
    hmacSha256 := λ secret payload,
      String.concat "."
        [secret; TokenPayload.jti payload; TokenPayload.appId payload;
         TokenPayload.roomId payload; TokenPayload.userId payload;
         TokenPayload.role payload];
    jwtEncode := λ payload signature, bitsOfPositive (encode (payload, signature));
    jwtDecode := λ token, positiveOfBits token ≫= decode
  |}.
  intros payload signature.
  assert (∀ p, positiveOfBits (bitsOfPositive p) = Some p) as Hbits.
  { induction p as [q IH|q IH|]; simpl; by rewrite ?IH. }
  rewrite Hbits. simpl. apply decode_encode.
Defined.

Definition demoConfig : Config := mkConfig "secret" "1h".
Definition demoDb : gmap string DbRoom.t :=
  {[ "R" := DbRoom.mk "R" "r" 2 "T" 0 ]}.

(** The sockets and frames of the examples. *)
Definition sock1 : ExtendedWebSocket := mkSocket "c1" OPEN true.
Definition sock2 : ExtendedWebSocket := mkSocket "c2" OPEN true.
Definition sock3 : ExtendedWebSocket := mkSocket "c3" OPEN true.
Definition wssOpen : WebSocketServer := mkWss [sock1; sock2; sock3].
(** The same server while the socket of c1, or of c2, is closing. *)
Definition wssClosing1 : WebSocketServer :=
  mkWss [mkSocket "c1" CLOSING true; sock2; sock3].
Definition wssClosing2 : WebSocketServer :=
  mkWss [sock1; mkSocket "c2" CLOSING true; sock3].

Definition sdpX : Json := JObj [("type", JStr "offer"); ("sdp", JStr "X")].

Definition joinFrame (roomId token : string) : Json :=
  JObj [("type", JStr "join"); ("roomId", JStr roomId); ("token", JStr token)].

(** The token that [createToken] issues in the examples, and the empty
    string should it refuse. *)
Definition issue (jti userId role : string) : string :=
  match createToken demoConfig demoDb 1000 1000 jti "T" "R"
                    (mkCreateTokenInput userId role None) with
  | inr response => token response
  | inl _ => EmptyString
  end.

Definition offerFrame (sdp : Json) : Json :=
  JObj [("type", JStr "offer"); ("sdp", sdp)].

(** A signed, unexpired token of the examples whose role is none of the
    three and whose user id is empty. *)
Definition malformedPayload : TokenPayload.t :=
  TokenPayload.mk "j9" "T" "R" EmptyString "admin" 1000 (Some 4600%Z).
Definition malformedToken : string :=
  jwtEncode malformedPayload (hmacSha256 "secret" malformedPayload).

(** A user id of 256 letters. *)
Definition longUserId : string :=
  String.concat EmptyString (replicate 256 "a").

(** ** server.ts: the pong handler *)

(** The ['pong'] callback of a connection sets the flag of its socket. *)
Definition handlePong (socketId : string) (wss : WebSocketServer) : WebSocketServer :=
  mkWss (List.map (λ socket,
                     if bool_decide (ws_socketId socket = socketId)
                     then mkSocket (ws_socketId socket) (readyState socket) true
                     else socket)
                  (clients wss)).

(** The sockets that a server hands to its ['connection'] callback are
    open, and none is CONNECTING afterwards, the one state in which
    [ping] throws. *)
Definition serverSockets (wss : WebSocketServer) : Prop :=
  Forall (λ socket, readyState socket ≠ CONNECTING) (clients wss).

(** The ['close'] event of a socket.  The listener that the ws server
    installed before the ['connection'] callback ran takes the socket out
    of [clients]; then the listener of server.ts runs [handleDisconnect]. *)
Definition handleClose (socket : ExtendedWebSocket) (wss : WebSocketServer)
    (rm : RoomManager) : WebSocketServer * (RoomManager * list Effect) :=
  let wss' :=
    mkWss (filter (λ client, ws_socketId client ≠ ws_socketId socket)
                  (clients wss)) in
  (wss', handleDisconnect socket wss' rm).

(** ** room.service.ts: reading and deleting rooms *)

(** [getRoomById]; the response has the fields of the row. *)
Definition getRoomById (appId roomId : string) (db : gmap string DbRoom.t)
  : AppError + DbRoom.t :=
  match db !! roomId with
  | None => inl (NotFoundError "Room" roomId)
  | Some room =>
    if bool_decide (DbRoom.appId room ≠ appId)
    then inl (ForbiddenError "Room does not belong to this app")
    else inr room
  end.

(** [roomExistsForApp]: the rows with this id and this owner are counted;
    [id] is the key of the table. *)
Definition roomExistsForApp (appId roomId : string) (db : gmap string DbRoom.t)
  : bool :=
  match db !! roomId with
  | Some room => bool_decide (DbRoom.appId room = appId)
  | None => false
  end.

Definition deleteRoom (appId roomId : string) (db : gmap string DbRoom.t)
  : AppError + gmap string DbRoom.t :=
  match db !! roomId with
  | None => inl (NotFoundError "Room" roomId)
  | Some room =>
    if bool_decide (DbRoom.appId room ≠ appId)
    then inl (ForbiddenError "Room does not belong to this app")
    else inr (delete roomId db)
  end.

(** ** app.service.ts *)

(** The Prisma [App] model. *)
Module App.
Record t := mk {
  id : string;
  name : string;
  secret : string;
  createdAt : Z;
  updatedAt : Z
}.
End App.

Module AppService.
Record CreateAppResponse := mkCreateAppResponse {
  id : string;
  name : string;
  secret : string;
  createdAt : Z
}.

Record GetAppResponse := mkGetAppResponse {
  get_id : string;
  get_name : string;
  get_createdAt : Z
}.

(** The table is the list of its rows.  [prisma.app.create] assigns [id]
    and the two dates; they are the arguments [newId] and [now], and
    [newSecret] is the value of [generateSecret()]. *)
Definition createApp (newId newSecret : string) (now : Z) (inputName : string)
    (apps : list App.t) : AppError + list App.t * CreateAppResponse :=
  if negb (truthy_str inputName)
     || bool_decide (String.length (trim inputName) = 0) then
    inl (ValidationError "App name is required")
  else
    let app := App.mk newId (trim inputName) newSecret now now in
    inr (apps ++ [app],
         mkCreateAppResponse (App.id app) (App.name app) (App.secret app)
                             (App.createdAt app)).

Definition getAppInternal (appId : string) (apps : list App.t) : option App.t :=
  List.find (λ app, bool_decide (App.id app = appId)) apps.

Definition getAppById (appId : string) (apps : list App.t)
  : AppError + GetAppResponse :=
  match List.find (λ app, bool_decide (App.id app = appId)) apps with
  | None => inl (NotFoundError "App" appId)
  | Some app => inr (mkGetAppResponse (App.id app) (App.name app) (App.createdAt app))
  end.

(** [prisma.app.findFirst({ where: { id, secret } })] *)
Definition validateAppCredentials (appId appSecret : string) (apps : list App.t)
  : option App.t :=
  List.find (λ app, bool_decide (App.id app = appId)
                    && bool_decide (App.secret app = appSecret)) apps.

Definition appExists (appId : string) (apps : list App.t) : bool :=
  bool_decide (0 < length (List.filter (λ app, bool_decide (App.id app = appId)) apps)).
End AppService.

(** ** The app authentication hook *)

(** A request header is absent, a string, or a list of strings. *)
Inductive HeaderValue :=
| HeaderString (s : string)
| HeaderList (l : list string).

(** What a protected route answers when it does not succeed, as the
    error handler of the server replies: 400 when the request does not
    pass the schema of the route, the UnauthorizedError of the hook (401),
    the typed error of the service function with its status, and 500 for
    any other exception. *)
Inductive RouteError :=
| ValidationFailed
| UnauthorizedError (message : string)
| ServiceError (e : AppError)
| InternalServerError.

Definition routeStatus (e : RouteError) : Z :=
  match e with
  | ValidationFailed => 400
  | UnauthorizedError _ => 401
  | ServiceError e => statusCode e
  | InternalServerError => 500
  end.

(** [!v || typeof v !== 'string'] fails: [v] is a non-empty string. *)
Definition headerString (v : option HeaderValue) : option string :=
  match v with
  | Some (HeaderString s) => if truthy_str s then Some s else None
  | _ => None
  end.

(** The [preHandler] hook of [appAuthPlugin]; its result is the value of
    [request.app]. *)
Definition preHandler (headers : gmap string HeaderValue) (apps : list App.t)
  : RouteError + App.t :=
  match headerString (headers !! "x-app-id") with
  | None => inl (UnauthorizedError "Missing x-app-id header")
  | Some appId =>
    match headerString (headers !! "x-app-secret") with
    | None => inl (UnauthorizedError "Missing x-app-secret header")
    | Some appSecret =>
      match AppService.validateAppCredentials appId appSecret apps with
      | None => inl (UnauthorizedError "Invalid app credentials")
      | Some app => inr app
      end
    end
  end.

(** ** The routes behind the hook

    A request is validated against the schema of its route before the
    hook runs; validation fills in the defaults of the schema.  The
    headers are as Node delivers them, [x-app-id] and [x-app-secret] each
    a string or absent; bodies have fields of their declared types. *)

Definition requestHeaders (raw : gmap string string) : gmap string HeaderValue :=
  HeaderString <$> raw.

(** [required: ['x-app-id', 'x-app-secret']] of the header schemas. *)
Definition hasCredentialHeaders (raw : gmap string string) : bool :=
  bool_decide (is_Some (raw !! "x-app-id"))
  && bool_decide (is_Some (raw !! "x-app-secret")).

(** [createRoomSchema.body]: [name] of 1 to 255 characters,
    [maxParticipants], when given, from 1 to 1000. *)
Definition createRoomSchema_body (body : RoomService.CreateRoomInput) : bool :=
  bool_decide (1 ≤ String.length (RoomService.name body) ≤ 255)
  && match RoomService.maxParticipants body with
     | Some maxParticipants => bool_decide (1 ≤ maxParticipants ≤ 1000)%Z
     | None => true
     end.

(** [default: 100] of [maxParticipants] in [createRoomSchema]. *)
Definition createRoomBodyDefaults (body : RoomService.CreateRoomInput)
  : RoomService.CreateRoomInput :=
  RoomService.mkCreateRoomInput
    (RoomService.name body)
    (Some (default 100%Z (RoomService.maxParticipants body))).

(** [default: '1h'] of [expiresIn] in [createTokenSchema]. *)
Definition createTokenBodyDefaults (body : CreateTokenInput) : CreateTokenInput :=
  mkCreateTokenInput (input_userId body) (input_role body)
                     (Some (default "1h" (input_expiresIn body))).

(** [POST /rooms] *)
Definition postRooms (raw : gmap string string) (apps : list App.t)
    (newId : string) (createdAt : Z) (body : RoomService.CreateRoomInput)
    (db : gmap string DbRoom.t) : RouteError + gmap string DbRoom.t * DbRoom.t :=
  if negb (hasCredentialHeaders raw && createRoomSchema_body body) then
    inl ValidationFailed
  else
    match preHandler (requestHeaders raw) apps with
    | inl e => inl e
    | inr app =>
      match RoomService.createRoom newId createdAt (App.id app)
                                   (createRoomBodyDefaults body) db with
      | inl e => inl (ServiceError e)
      | inr stored => inr stored
      end
    end.

(** [GET /rooms/:roomId] *)
Definition getRoomRoute (raw : gmap string string) (apps : list App.t)
    (roomId : string) (db : gmap string DbRoom.t) : RouteError + DbRoom.t :=
  if negb (hasCredentialHeaders raw) then inl ValidationFailed
  else
    match preHandler (requestHeaders raw) apps with
    | inl e => inl e
    | inr app =>
      match getRoomById (App.id app) roomId db with
      | inl e => inl (ServiceError e)
      | inr room => inr room
      end
    end.

Section TokenRoutes.
Context `{JwtLib}.
Variable config : Config.

(** [POST /rooms/:roomId/token] *)
Definition postToken (raw : gmap string string) (apps : list App.t)
    (db : gmap string DbRoom.t) (now signTime : Z) (jti roomId : string)
    (body : CreateTokenInput) : RouteError + CreateTokenResponse :=
  if negb (hasCredentialHeaders raw && createTokenSchema_body body) then
    inl ValidationFailed
  else
    match preHandler (requestHeaders raw) apps with
    | inl e => inl e
    | inr app =>
      match createToken config db now signTime jti (App.id app) roomId
                        (createTokenBodyDefaults body) with
      | inl (AppErr e) => inl (ServiceError e)
      | inl _ => inl InternalServerError
      | inr response => inr response
      end
    end.
End TokenRoutes.

(** The credentials that a request carries. *)
Definition credentials (appId appSecret : string) : gmap string HeaderValue :=
  {[ "x-app-id" := HeaderString appId; "x-app-secret" := HeaderString appSecret ]}.

(** The same as the header lines of a request. *)
Definition credentialLines (appId appSecret : string) : gmap string string :=
  {[ "x-app-id" := appId; "x-app-secret" := appSecret ]}.

(** ** Further invariants of the registry *)

(** All members of a room are of the tenant pinned in the room entry. *)
Definition sameTenant (rm : RoomManager) : Prop :=
  ∀ r room c p,
    rooms rm !! r = Some room → c ∈ Room.peers room →
    peers rm !! c = Some p → Peer.appId p = Some (Room.appId room).

(** A peer record is stored under its socket id and is either unadmitted,
    with all three of room, user and tenant [null], or admitted, with all
    three set; a room entry is stored under its id. *)
Definition wellFormed (rm : RoomManager) : Prop :=
  (∀ c p, peers rm !! c = Some p →
     Peer.socketId p = c ∧
     ((Peer.roomId p = None ∧ Peer.userId p = None ∧ Peer.appId p = None) ∨
      (is_Some (Peer.roomId p) ∧ is_Some (Peer.userId p) ∧ is_Some (Peer.appId p)))) ∧
  (∀ r room, rooms rm !! r = Some room → Room.id room = r).

(** ** Decimal numerals *)

(** The string of the decimal digits [ds], most significant first. *)
Fixpoint digitString (ds : list nat) : string :=
  match ds with
  | [] => EmptyString
  | d :: rest => String (Ascii.ascii_of_nat (48 + d)) (digitString rest)
  end.

(** The number that the digits [ds] denote after the digits of [acc]. *)
Fixpoint decimalValue (acc : Z) (ds : list nat) : Z :=
  match ds with
  | [] => acc
  | d :: rest => decimalValue (10 * acc + Z.of_nat d) rest
  end.

(** The seconds in a unit of [parseExpiresIn]. *)
Definition unitSeconds (unit : Ascii.ascii) : Z :=
  if bool_decide (unit = "s"%char) then 1
  else if bool_decide (unit = "m"%char) then 60
  else if bool_decide (unit = "h"%char) then 3600
  else 86400.

(** [sameTenant] as a check that runs. *)
Definition sameTenantb (rm : RoomManager) : bool :=
  forallb (λ rr,
             forallb (λ c,
                        match peers rm !! c with
                        | Some p => bool_decide (Peer.appId p = Some (Room.appId rr.2))
                        | None => true
                        end)
                     (Room.peers rr.2))
          (map_to_list (rooms rm)).

(** ** First and last character of a string *)

Definition firstChar (s : string) : option Ascii.ascii :=
  match s with
  | EmptyString => None
  | String c _ => Some c
  end.

Fixpoint lastChar (s : string) : option Ascii.ascii :=
  match s with
  | EmptyString => None
  | String c rest =>
    match lastChar rest with
    | Some d => Some d
    | None => Some c
    end
  end.

(** Neither the first nor the last character of [s] is white space. *)
Definition trimmed (s : string) : Prop :=
  (∀ c, firstChar s = Some c → isWhiteSpace c = false) ∧
  (∀ c, lastChar s = Some c → isWhiteSpace c = false).

(** * Properties *)

(** ** Sets as lists *)

Lemma elem_of_set_add x y s : y ∈ set_add x s ↔ y = x ∨ y ∈ s.
Proof.
  unfold set_add. case_bool_decide.
  - split; [auto | intros [->|]; auto].
  - rewrite elem_of_app, list_elem_of_singleton. tauto.
Qed.

Lemma NoDup_set_add x s : NoDup s → NoDup (set_add x s).
Proof.
  intros Hs. unfold set_add. case_bool_decide; [done|].
  apply NoDup_app. split; [done|]. split.
  - intros y Hy ->%list_elem_of_singleton. done.
  - apply NoDup_singleton.
Qed.

Lemma length_set_add x s : length (set_add x s) ≤ S (length s).
Proof.
  unfold set_add. case_bool_decide; [lia|].
  rewrite length_app. simpl. lia.
Qed.

Lemma set_add_nonempty x s : set_add x s ≠ [].
Proof.
  intros Heq. assert (x ∈ set_add x s) as Hx by (apply elem_of_set_add; auto).
  rewrite Heq in Hx. by apply not_elem_of_nil in Hx.
Qed.

Lemma elem_of_set_delete x y s : y ∈ set_delete x s ↔ y ∈ s ∧ y ≠ x.
Proof. unfold set_delete. rewrite list_elem_of_filter. tauto. Qed.

Lemma NoDup_set_delete x s : NoDup s → NoDup (set_delete x s).
Proof. apply NoDup_filter. Qed.

Lemma length_set_delete x s : length (set_delete x s) ≤ length s.
Proof. apply length_filter. Qed.

Lemma inv_empty : inv emptyManager.
Proof. split; simpl; intros *; by rewrite ?lookup_empty. Qed.

(** ** Preservation of the invariants *)

Lemma registerPeer_inv c rm :
  inv rm → notInRoom c rm → inv (registerPeer c rm).1.
Proof.
  intros [Hfwd Hrev Hone Hne Hcap Hnd] Hc. split; simpl; try done.
  - intros c' p r Hp Hr. destruct (decide (c = c')) as [->|Hcc].
    + rewrite lookup_insert_eq in Hp. by simplify_eq.
    + rewrite lookup_insert_ne in Hp by done. eauto.
  - intros r room c' Hroom Hin.
    destruct (Hrev _ _ _ Hroom Hin) as (p & Hp & Hr).
    destruct (decide (c = c')) as [->|Hcc].
    + apply Hc in Hp. congruence.
    + exists p. by rewrite lookup_insert_ne.
Qed.

(** A failed [joinRoom] leaves the registry as it was: the entry it makes
    for a new room always admits its first member. *)
Lemma joinRoom_failure c r u a rm rm' e code :
  joinRoom c r u a rm = (rm', JoinFailure e code) → rm' = rm.
Proof.
  unfold joinRoom. destruct rm as [rs ps]; simpl.
  destruct (ps !! c) as [peer|]; [|by intros [= <-]].
  case_bool_decide; [by intros [= <-]|].
  destruct (rs !! r) as [room|]; simpl.
  - repeat case_match; intros Heq; by simplify_eq.
  - by intros.
Qed.

(** What a successful [joinRoom] does. *)
Lemma joinRoom_success c r u a rm rm' :
  joinRoom c r u a rm = (rm', JoinSuccess) →
  ∃ peer room,
    peers rm !! c = Some peer ∧ Peer.roomId peer = None ∧
    (rooms rm !! r = Some room ∨
     rooms rm !! r = None ∧ room = Room.mk r a [] DEFAULT_MAX_PARTICIPANTS) ∧
    (Room.peers room = [] ∨ Room.appId room = a) ∧
    length (Room.peers room) < Room.maxParticipants room ∧
    rooms rm' = <[r := Room.mk (Room.id room) (Room.appId room)
                               (set_add c (Room.peers room))
                               (Room.maxParticipants room)]> (rooms rm) ∧
    peers rm' = <[c := Peer.mk (Peer.socketId peer) (Some r) (Some u) (Some a)]>
                  (peers rm).
Proof.
  unfold joinRoom. destruct rm as [rs ps]; simpl.
  destruct (ps !! c) as [peer|] eqn:Hpeer; [|done].
  case_bool_decide as Hnull; [done|].
  assert (Peer.roomId peer = None) as Hrid.
  { destruct (Peer.roomId peer); [by destruct Hnull|done]. }
  destruct (rs !! r) as [room|] eqn:Hroom; simpl.
  - destruct (bool_decide (0 < length (Room.peers room))) eqn:Hpos;
      destruct (bool_decide (Room.appId room ≠ a)) eqn:Happ; simpl; try done;
      destruct (bool_decide (Room.maxParticipants room ≤ length (Room.peers room)))
        eqn:Hfull; try done;
      intros Heq; simplify_eq; exists peer, room; simpl;
      apply bool_decide_eq_false in Hfull;
      (split_and!; [done|done|by left| |lia|done|done]).
    + right. apply bool_decide_eq_false in Happ. by apply dec_stable.
    + left. apply bool_decide_eq_false in Hpos.
      destruct (Room.peers room); [done|simpl in Hpos; lia].
    + left. apply bool_decide_eq_false in Hpos.
      destruct (Room.peers room); [done|simpl in Hpos; lia].
  - intros Heq; simplify_eq. eexists peer, _; simpl.
    split_and!; [done|done|right; done|by left|unfold DEFAULT_MAX_PARTICIPANTS; simpl; lia| |done].
    simpl. by rewrite insert_insert_eq.
Qed.

(** The reverse index alone already keeps a connection out of a second
    room, because a peer record names one room. *)
Lemma inv_intro rm :
  (∀ c p r, peers rm !! c = Some p → Peer.roomId p = Some r →
            ∃ room, rooms rm !! r = Some room ∧ c ∈ Room.peers room) →
  (∀ r room c, rooms rm !! r = Some room → c ∈ Room.peers room →
               ∃ p, peers rm !! c = Some p ∧ Peer.roomId p = Some r) →
  (∀ r room, rooms rm !! r = Some room → Room.peers room ≠ []) →
  (∀ r room, rooms rm !! r = Some room →
             length (Room.peers room) ≤ Room.maxParticipants room) →
  (∀ r room, rooms rm !! r = Some room → NoDup (Room.peers room)) →
  inv rm.
Proof.
  intros Hfwd Hrev Hne Hcap Hnd. split; try done.
  intros r1 r2 room1 room2 c H1 H2 Hc1 Hc2.
  destruct (Hrev _ _ _ H1 Hc1) as (p1 & Hp1 & Hr1).
  destruct (Hrev _ _ _ H2 Hc2) as (p2 & Hp2 & Hr2).
  congruence.
Qed.

Lemma invb_sound rm : invb rm = true → inv rm.
Proof.
  unfold invb. intros [Hpeers Hrooms]%andb_true_iff.
  rewrite forallb_forall in Hpeers. rewrite forallb_forall in Hrooms.
  assert (∀ r room, rooms rm !! r = Some room → roomOk rm r room = true) as Hroom.
  { intros r room Hr. apply (Hrooms (r, room)).
    by apply list_elem_of_In, elem_of_map_to_list. }
  apply inv_intro.
  - intros c p r Hp Hr.
    assert (peerOk rm c p = true) as Hok.
    { apply (Hpeers (c, p)). by apply list_elem_of_In, elem_of_map_to_list. }
    unfold peerOk, roomMembers in Hok. rewrite Hr in Hok.
    apply andb_true_iff in Hok as [[room Hroom']%bool_decide_eq_true Hin].
    rewrite Hroom' in Hin. apply bool_decide_eq_true in Hin. eauto.
  - intros r room c Hr Hin. apply Hroom in Hr. unfold roomOk in Hr.
    apply andb_true_iff in Hr as [[[Hmem _]%andb_true_iff _]%andb_true_iff _].
    rewrite forallb_forall in Hmem.
    apply list_elem_of_In, Hmem in Hin. unfold memberOk in Hin.
    destruct (peers rm !! c) as [p|]; [|done].
    apply bool_decide_eq_true in Hin. eauto.
  - intros r room Hr. apply Hroom in Hr. unfold roomOk in Hr.
    apply andb_true_iff in Hr as [[[_ Hne]%andb_true_iff _]%andb_true_iff _].
    by apply negb_true_iff, bool_decide_eq_false in Hne.
  - intros r room Hr. apply Hroom in Hr. unfold roomOk in Hr.
    apply andb_true_iff in Hr as [[_ Hcap]%andb_true_iff _].
    by apply bool_decide_eq_true in Hcap.
  - intros r room Hr. apply Hroom in Hr. unfold roomOk in Hr.
    apply andb_true_iff in Hr as [_ Hnd].
    by apply bool_decide_eq_true in Hnd.
Qed.

Lemma joinRoom_inv c r u a rm : inv rm → inv (joinRoom c r u a rm).1.
Proof.
  intros Hinv. destruct (joinRoom c r u a rm) as [rm' res] eqn:Hj.
  destruct res as [|e code]; simpl;
    [|by rewrite (joinRoom_failure _ _ _ _ _ _ _ _ Hj)].
  apply joinRoom_success in Hj
    as (peer & room & Hpeer & Hrid & Hroom & _ & Hlt & Hrooms & Hpeers).
  destruct Hinv as [Hfwd Hrev _ Hne Hcap Hnd].
  assert (∀ room0, rooms rm !! r = Some room0 → room0 = room) as Hsame.
  { intros room0 H0. destruct Hroom as [Hroom|[Hroom _]]; congruence. }
  assert (∀ c', c' ∈ Room.peers room →
                ∃ p, peers rm !! c' = Some p ∧ Peer.roomId p = Some r) as Hmem.
  { intros c' Hc'. destruct Hroom as [Hroom|[_ ->]]; [eauto|].
    by apply not_elem_of_nil in Hc'. }
  assert (NoDup (Room.peers room)) as Hnd0.
  { destruct Hroom as [Hroom|[_ ->]]; [eauto|apply NoDup_nil_2]. }
  apply inv_intro; rewrite ?Hrooms, ?Hpeers.
  - intros c' p r' Hp Hr'. destruct (decide (c = c')) as [->|Hcc].
    + rewrite lookup_insert_eq in Hp. simplify_eq; simpl in *. simplify_eq.
      eexists. rewrite lookup_insert_eq. split; [done|]. simpl.
      apply elem_of_set_add. by left.
    + rewrite lookup_insert_ne in Hp by done.
      destruct (Hfwd _ _ _ Hp Hr') as (room0 & H0 & Hin).
      destruct (decide (r = r')) as [->|Hrr].
      * apply Hsame in H0 as ->. eexists. rewrite lookup_insert_eq.
        split; [done|]. simpl. apply elem_of_set_add. by right.
      * exists room0. by rewrite lookup_insert_ne.
  - intros r' room' c' Hr' Hin. destruct (decide (r = r')) as [->|Hrr].
    + rewrite lookup_insert_eq in Hr'. simplify_eq; simpl in *.
      apply elem_of_set_add in Hin as [->|Hin].
      * eexists. rewrite lookup_insert_eq. done.
      * destruct (Hmem _ Hin) as (p & Hp & Hpr). exists p.
        rewrite lookup_insert_ne; [done|]. intros ->. congruence.
    + rewrite lookup_insert_ne in Hr' by done.
      destruct (Hrev _ _ _ Hr' Hin) as (p & Hp & Hpr). exists p.
      rewrite lookup_insert_ne; [done|]. intros ->. congruence.
  - intros r' room' Hr'. destruct (decide (r = r')) as [->|Hrr].
    + rewrite lookup_insert_eq in Hr'. simplify_eq; simpl.
      apply set_add_nonempty.
    + rewrite lookup_insert_ne in Hr' by done. eauto.
  - intros r' room' Hr'. destruct (decide (r = r')) as [->|Hrr].
    + rewrite lookup_insert_eq in Hr'. simplify_eq; simpl.
      pose proof (length_set_add c (Room.peers room)). lia.
    + rewrite lookup_insert_ne in Hr' by done. eauto.
  - intros r' room' Hr'. destruct (decide (r = r')) as [->|Hrr].
    + rewrite lookup_insert_eq in Hr'. simplify_eq; simpl.
      by apply NoDup_set_add.
    + rewrite lookup_insert_ne in Hr' by done. eauto.
Qed.

Lemma leaveRoom_none c rm rm' :
  leaveRoom c rm = (rm', None) → rm' = rm.
Proof.
  unfold leaveRoom. repeat case_match; intros Heq; by simplify_eq.
Qed.

(** What [leaveRoom] does when it returns a result. *)
Lemma leaveRoom_some c rm rm' lr :
  leaveRoom c rm = (rm', Some lr) →
  ∃ peer room,
    peers rm !! c = Some peer ∧
    Peer.roomId peer = Some (lr_roomId lr) ∧
    lr_roomId lr ≠ EmptyString ∧
    rooms rm !! lr_roomId lr = Some room ∧
    lr_remainingPeers lr = set_delete c (Room.peers room) ∧
    rooms rm' =
      (if bool_decide (length (lr_remainingPeers lr) = 0)
       then delete (lr_roomId lr) (rooms rm)
       else <[lr_roomId lr :=
                Room.mk (Room.id room) (Room.appId room) (lr_remainingPeers lr)
                        (Room.maxParticipants room)]> (rooms rm)) ∧
    peers rm' = <[c := Peer.mk (Peer.socketId peer) None None None]> (peers rm).
Proof.
  unfold leaveRoom.
  destruct (peers rm !! c) as [peer|] eqn:Hpeer; [|done].
  destruct (Peer.roomId peer) as [r|] eqn:Hrid; [|done].
  destruct (negb (truthy (Some r))) eqn:Htruthy; [done|].
  destruct (rooms rm !! r) as [room|] eqn:Hroom; [|done].
  intros Heq; simplify_eq; simpl. exists peer, room.
  split_and!; try done.
  simpl in Htruthy. apply negb_false_iff, negb_true_iff in Htruthy.
  by apply bool_decide_eq_false in Htruthy.
Qed.

Lemma leaveRoom_inv c rm : inv rm → inv (leaveRoom c rm).1.
Proof.
  intros Hinv. destruct (leaveRoom c rm) as [rm' [lr|]] eqn:Hl; simpl;
    [|by rewrite (leaveRoom_none _ _ _ Hl)].
  apply leaveRoom_some in Hl
    as (peer & room & Hpeer & Hrid & _ & Hroom & Hrem & Hrooms & Hpeers).
  destruct lr as [r members]; simpl in *. subst members.
  destruct Hinv as [Hfwd Hrev Hone Hne Hcap Hnd].
  (* the rooms of the new registry, by lookup *)
  assert (∀ r' room', rooms rm' !! r' = Some room' →
            (r' ≠ r ∧ rooms rm !! r' = Some room') ∨
            (r' = r ∧ set_delete c (Room.peers room) ≠ [] ∧
             room' = Room.mk (Room.id room) (Room.appId room)
                             (set_delete c (Room.peers room))
                             (Room.maxParticipants room))) as Hlk.
  { intros r' room'. rewrite Hrooms. case_bool_decide as Hlen.
    - destruct (decide (r = r')) as [->|Hrr].
      + by rewrite lookup_delete_eq.
      + rewrite lookup_delete_ne by done. auto.
    - destruct (decide (r = r')) as [->|Hrr].
      + rewrite lookup_insert_eq. intros [= <-]. right. split_and!; try done.
        intros Hnil. by rewrite Hnil in Hlen.
      + rewrite lookup_insert_ne by done. auto. }
  apply inv_intro; rewrite ?Hpeers.
  - intros c' p r' Hp Hr'. destruct (decide (c = c')) as [->|Hcc].
    + rewrite lookup_insert_eq in Hp. by simplify_eq.
    + rewrite lookup_insert_ne in Hp by done.
      destruct (Hfwd _ _ _ Hp Hr') as (room0 & H0 & Hin).
      rewrite Hrooms. destruct (decide (r = r')) as [->|Hrr].
      * simplify_eq.
        assert (c' ∈ set_delete c (Room.peers room)) as Hin'
          by (apply elem_of_set_delete; auto).
        rewrite bool_decide_eq_false_2.
        -- eexists. rewrite lookup_insert_eq. by split.
        -- intros Hlen. apply nil_length_inv in Hlen. rewrite Hlen in Hin'.
           by apply not_elem_of_nil in Hin'.
      * exists room0. split; [|done].
        case_bool_decide; by rewrite ?lookup_delete_ne, ?lookup_insert_ne.
  - intros r' room' c' Hr' Hin.
    destruct (Hlk _ _ Hr') as [[Hrr H0]|(-> & _ & ->)]; simpl in *.
    + destruct (Hrev _ _ _ H0 Hin) as (p & Hp & Hpr). exists p.
      rewrite lookup_insert_ne; [done|]. intros ->. congruence.
    + apply elem_of_set_delete in Hin as [Hin Hcc].
      destruct (Hrev _ _ _ Hroom Hin) as (p & Hp & Hpr). exists p.
      by rewrite lookup_insert_ne.
  - intros r' room' Hr'.
    destruct (Hlk _ _ Hr') as [[Hrr H0]|(-> & Hnn & ->)]; simpl; eauto.
  - intros r' room' Hr'.
    destruct (Hlk _ _ Hr') as [[Hrr H0]|(-> & Hnn & ->)]; simpl; eauto.
    pose proof (length_set_delete c (Room.peers room)).
    pose proof (Hcap _ _ Hroom). lia.
  - intros r' room' Hr'.
    destruct (Hlk _ _ Hr') as [[Hrr H0]|(-> & Hnn & ->)]; simpl; eauto.
    apply NoDup_set_delete. eauto.
Qed.

(** After [leaveRoom] the connection is in no room, unless it sits in the
    room whose id is the empty string. *)
Lemma leaveRoom_notInRoom c rm :
  notInEmptyNamedRoom c rm → inv rm → notInRoom c (leaveRoom c rm).1.
Proof.
  intros Hc Hinv. destruct (leaveRoom c rm) as [rm' [lr|]] eqn:Hl; simpl.
  - apply leaveRoom_some in Hl as (peer & room & _ & _ & _ & _ & _ & _ & Hpeers).
    intros p. rewrite Hpeers, lookup_insert_eq. by intros [= <-].
  - pose proof (leaveRoom_none _ _ _ Hl) as ->. intros p Hp.
    destruct (Peer.roomId p) as [r|] eqn:Hr; [|done]. exfalso.
    destruct (inv_forward _ Hinv _ _ _ Hp Hr) as (room & Hroom & _).
    unfold leaveRoom in Hl. rewrite Hp, Hr, Hroom in Hl. simpl in Hl.
    case_bool_decide as Hempty; [|done]. subst r. by apply (Hc p).
Qed.

Lemma removePeer_rooms_peers c rm :
  rooms (removePeer c rm).1 = rooms (leaveRoom c rm).1 ∧
  peers (removePeer c rm).1 = delete c (peers (leaveRoom c rm).1).
Proof.
  unfold removePeer. destruct (peers rm !! c) as [peer|] eqn:Hpeer.
  - destruct (leaveRoom c rm) as [rm1 lr]; simpl. by repeat case_match.
  - unfold leaveRoom. rewrite Hpeer. simpl. split; [done|].
    by rewrite delete_id.
Qed.

Lemma removePeer_inv c rm :
  inv rm → notInEmptyNamedRoom c rm → inv (removePeer c rm).1.
Proof.
  intros Hinv Hc.
  pose proof (leaveRoom_inv c rm Hinv) as [Hfwd Hrev _ Hne Hcap Hnd].
  pose proof (leaveRoom_notInRoom c rm Hc Hinv) as Hout.
  destruct (removePeer_rooms_peers c rm) as [Hrooms Hpeers].
  apply inv_intro; rewrite ?Hrooms, ?Hpeers; try done.
  - intros c' p r Hp Hr. apply lookup_delete_Some in Hp as [Hcc Hp]. eauto.
  - intros r room c' Hroom Hin.
    destruct (Hrev _ _ _ Hroom Hin) as (p & Hp & Hpr). exists p.
    rewrite lookup_delete_ne; [done|]. intros ->.
    apply Hout in Hp. congruence.
Qed.

(** ** The presence registry: invariants, registration, tenants *)

(** C1, as amended.  Every operation of the presence registry preserves
    the registry invariants (forward and reverse index consistent, no
    connection in the member sets of two rooms, no room entry with an empty
    member set, member count at most [maxParticipants]): [joinRoom] and
    [leaveRoom] from every registry and for every argument, [registerPeer]
    when the connection id is not that of a peer currently in a room, and
    [removePeer] when the peer is not in the room whose id is the empty
    string. *)
Theorem registry_operations_preserve_invariants rm :
  inv rm →
  (∀ c, notInRoom c rm → inv (registerPeer c rm).1) ∧
  (∀ c r u a, inv (joinRoom c r u a rm).1) ∧
  (∀ c, inv (leaveRoom c rm).1) ∧
  (∀ c, notInEmptyNamedRoom c rm → inv (removePeer c rm).1).
Proof.
  intros Hinv. split_and!.
  - intros c Hc. by apply registerPeer_inv.
  - intros c r u a. by apply joinRoom_inv.
  - intros c. by apply leaveRoom_inv.
  - intros c Hc. by apply removePeer_inv.
Qed.

Lemma registry_operations_preserve_invariants_witness :
  inv rmAlice ∧
  inv (registerPeer "c2" rmAlice).1 ∧
  inv (joinRoom "c1" "R2" "alice" "T" rmAlice).1 ∧
  inv (leaveRoom "c1" rmAlice).1 ∧
  inv (removePeer "c1" rmAlice).1.
Proof.
  assert (inv rmAlice) as Hinv by (apply invb_sound; by vm_compute).
  pose proof (registry_operations_preserve_invariants rmAlice Hinv)
    as (Hreg & Hjoin & Hleave & Hremove).
  split_and!.
  - exact Hinv.
  - apply Hreg. intros p Hp. vm_compute in Hp. discriminate.
  - apply Hjoin.
  - apply Hleave.
  - apply Hremove. intros p Hp. vm_compute in Hp. by simplify_eq.
Defined.

(** C1 as stated fails for [registerPeer]: registering the id of an
    admitted connection again resets the forward index and leaves the
    connection in the member set of its room. *)
Lemma registerPeer_admitted_id_breaks_invariants :
  inv rmAlice ∧ ¬ inv (registerPeer "c1" rmAlice).1.
Proof.
  split; [apply invb_sound; by vm_compute|].
  intros [_ Hrev _ _ _ _].
  destruct (Hrev "R" (Room.mk "R" "T" ["c1"] 2) "c1") as (p & Hp & Hr).
  - reflexivity.
  - apply list_elem_of_here.
  - vm_compute in Hp. by simplify_eq.
Qed.

(** After the second registration the connection can be admitted to
    another room, and is then a member of two rooms. *)
Example registerPeer_then_join_two_rooms :
  let rm := (joinRoom "c1" "R2" "alice" "T" (registerPeer "c1" rmAlice).1).1 in
  roomMembers "R" rm = ["c1"] ∧ roomMembers "R2" rm = ["c1"].
Proof. by vm_compute. Qed.

(** [removePeer] of a peer in the room with the empty id deletes the peer
    record and keeps the connection in the member set. *)
Example removePeer_empty_room_id :
  let rm := (joinRoom "c1" EmptyString "alice" "T" rmRegistered).1 in
  let rm' := (removePeer "c1" rm).1 in
  getPeer "c1" rm' = None ∧ roomMembers EmptyString rm' = ["c1"].
Proof. by vm_compute. Qed.

(** C8, as amended.  [registerPeer] never fails: for every connection id,
    registered before or not, it stores and returns a fresh unadmitted peer
    record under that id, replacing the record that was there, and leaves
    the rooms and the other peer records as they were. *)
Theorem registerPeer_replaces_record c rm :
  (registerPeer c rm).2 = freshPeer c ∧
  getPeer c (registerPeer c rm).1 = Some (freshPeer c) ∧
  peers (registerPeer c rm).1 = <[c := freshPeer c]> (peers rm) ∧
  rooms (registerPeer c rm).1 = rooms rm.
Proof.
  unfold registerPeer, getPeer; simpl. split_and!; try done.
  apply lookup_insert_eq.
Qed.

(** C8 as stated fails: the second registration of the id of an admitted
    connection returns a peer, as the first did, and the record of the
    admission is gone. *)
Lemma registerPeer_twice_replaces_silently :
  getPeer "c1" rmAlice = Some (Peer.mk "c1" (Some "R") (Some "alice") (Some "T")) ∧
  (registerPeer "c1" rmAlice).2 = Peer.mk "c1" None None None ∧
  getPeer "c1" (registerPeer "c1" rmAlice).1 = Some (Peer.mk "c1" None None None).
Proof. by vm_compute. Qed.

(** C6, as amended.  For every admission of a registered connection that is
    in no room, where the named room exists with members and its pinned
    tenant id differs from the supplied one, [joinRoom] fails with the
    error "Room belongs to different app" under the code INVALID_TOKEN and
    leaves the registry as it was; TENANT_MISMATCH is not among the
    signaling error codes. *)
Theorem joinRoom_other_tenant_invalid_token c r u a rm peer room :
  peers rm !! c = Some peer → Peer.roomId peer = None →
  rooms rm !! r = Some room → Room.peers room ≠ [] → Room.appId room ≠ a →
  joinRoom c r u a rm =
    (rm, JoinFailure "Room belongs to different app"
                     SignalingErrorCodes.INVALID_TOKEN) ∧
  "TENANT_MISMATCH" ∉ SignalingErrorCodes.values.
Proof.
  intros Hpeer Hrid Hroom Hne Happ.
  split; [|by apply (bool_decide_unpack _); vm_compute].
  unfold joinRoom. rewrite Hpeer, Hrid, Hroom.
  rewrite bool_decide_eq_false_2 by (by intros []).
  rewrite (bool_decide_eq_true_2 (0 < _)),  (bool_decide_eq_true_2 (_ ≠ _)); try done.
  - by destruct rm.
  - destruct (Room.peers room); [done|simpl; lia].
Qed.

Lemma joinRoom_other_tenant_invalid_token_witness :
  joinRoom "c3" "R" "eve" "T2" (registerPeer "c3" rmAlice).1 =
    ((registerPeer "c3" rmAlice).1,
     JoinFailure "Room belongs to different app" "INVALID_TOKEN") ∧
  "TENANT_MISMATCH" ∉ SignalingErrorCodes.values.
Proof.
  apply (joinRoom_other_tenant_invalid_token "c3" "R" "eve" "T2"
           (registerPeer "c3" rmAlice).1
           (freshPeer "c3") (Room.mk "R" "T" ["c1"] 2));
    by vm_compute.
Defined.

(** C6 as stated fails: the admission of a connection of tenant T2 to the
    room that tenant T occupies is refused under the code INVALID_TOKEN,
    not TENANT_MISMATCH. *)
Lemma joinRoom_other_tenant_code_is_not_tenant_mismatch :
  ∃ error code,
    (joinRoom "c3" "R" "eve" "T2" (registerPeer "c3" rmAlice).1).2
      = JoinFailure error code ∧
    code ≠ "TENANT_MISMATCH".
Proof. exists "Room belongs to different app", "INVALID_TOKEN". by vm_compute. Qed.

(** ** The capacity of a room in the registry *)

Lemma joinRoom_capped c r u a rm : capped rm → capped (joinRoom c r u a rm).1.
Proof.
  intros Hcap. destruct (joinRoom c r u a rm) as [rm' res] eqn:Hj.
  destruct res as [|e code]; simpl;
    [|by rewrite (joinRoom_failure _ _ _ _ _ _ _ _ Hj)].
  apply joinRoom_success in Hj
    as (peer & room & _ & _ & Hroom & _ & Hlt & Hrooms & _).
  assert (Room.maxParticipants room = DEFAULT_MAX_PARTICIPANTS) as Hmax.
  { destruct Hroom as [Hroom|[_ ->]]; [by apply (Hcap r)|done]. }
  intros r' room'. rewrite Hrooms.
  destruct (decide (r = r')) as [->|Hrr].
  - rewrite lookup_insert_eq. intros [= <-]; simpl. split; [done|].
    pose proof (length_set_add c (Room.peers room)). lia.
  - rewrite lookup_insert_ne by done. apply Hcap.
Qed.

Lemma leaveRoom_capped c rm : capped rm → capped (leaveRoom c rm).1.
Proof.
  intros Hcap. destruct (leaveRoom c rm) as [rm' [lr|]] eqn:Hl; simpl;
    [|by rewrite (leaveRoom_none _ _ _ Hl)].
  apply leaveRoom_some in Hl
    as (peer & room & _ & _ & _ & Hroom & Hrem & Hrooms & _).
  destruct (Hcap _ _ Hroom) as [Hmax Hlen].
  intros r' room'. rewrite Hrooms. case_bool_decide.
  - intros [_ Hr']%lookup_delete_Some. by apply (Hcap r').
  - destruct (decide (lr_roomId lr = r')) as [<-|Hrr].
    + rewrite lookup_insert_eq. intros [= <-]; simpl. split; [done|].
      rewrite Hrem. pose proof (length_set_delete c (Room.peers room)). lia.
    + rewrite lookup_insert_ne by done. apply Hcap.
Qed.

Lemma reachable_capped rm : reachable rm → capped rm.
Proof.
  induction 1 as [|c rm _ IH|c r u a rm _ IH|c rm _ IH|c rm _ IH].
  - intros r room; simpl. by rewrite lookup_empty.
  - done.
  - by apply joinRoom_capped.
  - by apply leaveRoom_capped.
  - intros r room. destruct (removePeer_rooms_peers c rm) as [-> _].
    by apply leaveRoom_capped.
Qed.

(** [joinRoom] into a room that is at its cap. *)
Lemma joinRoom_full c r u a rm room :
  rooms rm !! r = Some room →
  Room.maxParticipants room ≤ length (Room.peers room) →
  (∃ error code, joinRoom c r u a rm = (rm, JoinFailure error code)) ∧
  (∀ peer, peers rm !! c = Some peer → Peer.roomId peer = None →
           Room.appId room = a →
           joinRoom c r u a rm =
             (rm, JoinFailure "Room is full" SignalingErrorCodes.ROOM_FULL)).
Proof.
  intros Hroom Hfull. destruct rm as [rs ps]; simpl in *. unfold joinRoom; simpl.
  destruct (ps !! c) as [peer|]; [|split; [eauto|done]].
  case_bool_decide as Hnull; [split; [eauto|]|].
  { intros p [= <-] Hp. by rewrite Hp in Hnull. }
  rewrite Hroom. rewrite (bool_decide_eq_true_2 (_ ≤ _)) by done.
  split.
  - destruct (_ && _); eauto.
  - intros p _ _ Happ. by rewrite (bool_decide_eq_false_2 (_ ≠ _)), andb_false_r by auto.
Qed.

(** C10.  Every room entry of a registry built by the registry's
    operations has [maxParticipants] 2 and at most 2 members, whatever the
    room table of the REST service holds: [createRoom] there stores any cap
    from 1 to 1000, and [joinRoom] takes no cap and reads no table.  A join
    into a room with 2 members fails and changes nothing; it fails with
    ROOM_FULL when the connection is registered, in no room and of the
    room's tenant. *)
Theorem signaling_room_capacity_is_two rm :
  reachable rm →
  (∀ r room, rooms rm !! r = Some room →
     Room.maxParticipants room = 2 ∧ length (Room.peers room) ≤ 2) ∧
  (∀ c r u a room, rooms rm !! r = Some room → length (Room.peers room) = 2 →
     ∃ error code, joinRoom c r u a rm = (rm, JoinFailure error code)) ∧
  (∀ c r u a room peer,
     rooms rm !! r = Some room → length (Room.peers room) = 2 →
     peers rm !! c = Some peer → Peer.roomId peer = None → Room.appId room = a →
     joinRoom c r u a rm = (rm, JoinFailure "Room is full" "ROOM_FULL")) ∧
  (∀ newId createdAt appId name (cap : Z) db,
     trim name ≠ EmptyString → appId ≠ EmptyString → (1 ≤ cap ≤ 1000)%Z →
     ∃ db' row,
       RoomService.createRoom newId createdAt appId
         (RoomService.mkCreateRoomInput name (Some cap)) db = inr (db', row) ∧
       DbRoom.maxParticipants row = cap).
Proof.
  intros Hreach. pose proof (reachable_capped _ Hreach) as Hcap.
  split_and!.
  - intros r room Hroom. by apply (Hcap r).
  - intros c r u a room Hroom Hlen.
    destruct (Hcap _ _ Hroom) as [Hmax _].
    apply (joinRoom_full c r u a rm room Hroom). rewrite Hmax, Hlen. done.
  - intros c r u a room peer Hroom Hlen Hpeer Hrid Happ.
    destruct (Hcap _ _ Hroom) as [Hmax _].
    eapply (joinRoom_full c r u a rm room Hroom); [|done..].
    rewrite Hmax, Hlen. done.
  - intros newId createdAt appId name cap db Hname Happ Hcapz.
    unfold RoomService.createRoom; simpl.
    assert (name ≠ EmptyString) as Hname' by (by intros ->).
    unfold truthy_str.
    rewrite !(bool_decide_eq_false_2 (_ = EmptyString)) by done. simpl.
    rewrite (bool_decide_eq_false_2 (cap < 1)%Z) by lia.
    unfold RoomService.MAX_PARTICIPANTS_LIMIT.
    rewrite (bool_decide_eq_false_2 (cap > 1000)%Z) by lia. simpl.
    eauto.
Qed.

Lemma reachable_rmAliceBob : reachable rmAliceBob.
Proof. repeat constructor. Qed.

Lemma signaling_room_capacity_is_two_witness :
  reachable rmAliceBob ∧
  roomMembers "R" rmAliceBob = ["c1"; "c2"] ∧
  joinRoom "c3" "R" "carol" "T" (registerPeer "c3" rmAliceBob).1 =
    ((registerPeer "c3" rmAliceBob).1, JoinFailure "Room is full" "ROOM_FULL").
Proof.
  split; [apply reachable_rmAliceBob|]. split; [reflexivity|].
  assert (reachable (registerPeer "c3" rmAliceBob).1) as Hreach
    by (constructor; apply reachable_rmAliceBob).
  destruct (signaling_room_capacity_is_two _ Hreach) as (_ & _ & Hfull & _).
  apply (Hfull "c3" "R" "carol" "T" (Room.mk "R" "T" ["c1"; "c2"] 2) (freshPeer "c3"));
    reflexivity.
Defined.

(** ** The signaling endpoint: relay and presence frames *)

Lemma findSocket_Some wss id socket :
  findSocket wss id = Some socket →
  ws_socketId socket = id ∧ readyState socket = OPEN.
Proof.
  unfold findSocket. intros Hfind. apply find_some in Hfind as [_ Hb].
  apply andb_true_iff in Hb as [H1 H2].
  by apply bool_decide_eq_true in H1, H2.
Qed.

Lemma sendToPeers_spec wss ids message :
  sendToPeers wss ids message =
    List.map (λ id, Send id message) (openPeers wss ids).
Proof.
  unfold sendToPeers, openPeers. induction ids as [|id ids IH]; [done|].
  simpl. rewrite filter_cons, IH.
  destruct (findSocket wss id) as [socket|] eqn:Hfind.
  - destruct (findSocket_Some _ _ _ Hfind) as [Hid Hopen].
    rewrite decide_True by eauto. unfold send.
    rewrite bool_decide_eq_true_2 by done. simpl. by rewrite Hid.
  - rewrite decide_False; [done|]. by intros [? ?].
Qed.

Lemma getRoomPeers_spec c rm peer r :
  peers rm !! c = Some peer → Peer.roomId peer = Some r → r ≠ EmptyString →
  getRoomPeers c rm = others c (roomMembers r rm).
Proof.
  intros Hpeer Hrid Hr. unfold getRoomPeers, roomMembers, others.
  rewrite Hpeer, Hrid. simpl. rewrite bool_decide_eq_false_2 by done. simpl.
  by destruct (rooms rm !! r).
Qed.

Lemma others_set_add c members : others c (set_add c members) = others c members.
Proof.
  unfold others, set_add. case_bool_decide; [done|].
  rewrite filter_app, filter_cons, filter_nil.
  rewrite decide_False by (by intros []). by rewrite app_nil_r.
Qed.

Lemma joinedUserId_Some socket rm peer r u :
  getPeer (ws_socketId socket) rm = Some peer →
  Peer.roomId peer = Some r → r ≠ EmptyString →
  Peer.userId peer = Some u → u ≠ EmptyString →
  joinedUserId socket rm = Some u.
Proof.
  intros Hpeer Hrid Hr Huid Hu. unfold joinedUserId.
  rewrite Hpeer, Hrid, Huid. simpl.
  by rewrite !bool_decide_eq_false_2.
Qed.

Lemma joinedUserId_notInRoom socket rm :
  notInRoom (ws_socketId socket) rm → joinedUserId socket rm = None.
Proof.
  intros Hout. unfold joinedUserId, getPeer.
  destruct (peers rm !! ws_socketId socket) as [peer|] eqn:Hpeer; [|done].
  by rewrite (Hout _ Hpeer).
Qed.

Lemma relay_joined socket wss rm frame peer r u :
  getPeer (ws_socketId socket) rm = Some peer →
  Peer.roomId peer = Some r → r ≠ EmptyString →
  Peer.userId peer = Some u → u ≠ EmptyString →
  relay socket wss rm frame =
    List.map (λ id, Send id (frame u))
             (openPeers wss (others (ws_socketId socket) (roomMembers r rm))).
Proof.
  intros Hpeer Hrid Hr Huid Hu. unfold relay.
  rewrite (joinedUserId_Some _ _ _ _ _ Hpeer Hrid Hr Huid Hu).
  by rewrite sendToPeers_spec, (getRoomPeers_spec _ _ _ _ Hpeer Hrid Hr).
Qed.

Lemma relay_notInRoom socket wss rm frame :
  notInRoom (ws_socketId socket) rm → readyState socket = OPEN →
  relay socket wss rm frame =
    [Send (ws_socketId socket)
          (ErrorMessage "NOT_IN_ROOM" "Must join a room first")].
Proof.
  intros Hout Hopen. unfold relay. rewrite joinedUserId_notInRoom by done.
  unfold sendError, send. by rewrite bool_decide_eq_true_2.
Qed.

(** C3, as amended.  For every offer, answer or ice frame from a sender
    whose peer record holds a non-empty room id and user id, the server
    sends one frame with the same sdp or candidate payload, stamped with
    [fromUserId] equal to the sender's user id, to every other member of
    that room whose socket is open, in membership order, and produces no
    other effect; a member whose socket is not open gets nothing.  If the
    sender is in no room and its socket is open, the server replies with a
    NOT_IN_ROOM error and relays nothing.  If the sender is admitted and
    the room has no other member, nothing is sent and no error is
    raised. *)
Theorem relay_to_open_members socket wss rm (payload : Json) :
  let sender := ws_socketId socket in
  (∀ peer r u,
     getPeer sender rm = Some peer →
     Peer.roomId peer = Some r → r ≠ EmptyString →
     Peer.userId peer = Some u → u ≠ EmptyString →
     let recipients := openPeers wss (others sender (roomMembers r rm)) in
     handleOffer socket payload wss rm =
       List.map (λ id, Send id (RelayedOfferMessage payload u)) recipients ∧
     handleAnswer socket payload wss rm =
       List.map (λ id, Send id (RelayedAnswerMessage payload u)) recipients ∧
     handleIce socket payload wss rm =
       List.map (λ id, Send id (RelayedIceMessage payload u)) recipients ∧
     (others sender (roomMembers r rm) = [] →
      handleOffer socket payload wss rm = [] ∧
      handleAnswer socket payload wss rm = [] ∧
      handleIce socket payload wss rm = [])) ∧
  (notInRoom sender rm → readyState socket = OPEN →
   let reply :=
     [Send sender (ErrorMessage "NOT_IN_ROOM" "Must join a room first")] in
   handleOffer socket payload wss rm = reply ∧
   handleAnswer socket payload wss rm = reply ∧
   handleIce socket payload wss rm = reply).
Proof.
  intros sender. subst sender. split.
  - intros peer r u Hpeer Hrid Hr Huid Hu recipients. subst recipients.
    unfold handleOffer, handleAnswer, handleIce.
    rewrite !(relay_joined _ _ _ _ _ _ _ Hpeer Hrid Hr Huid Hu).
    split_and!; try done.
    intros Hnone. by rewrite Hnone.
  - intros Hout Hopen reply. subst reply. unfold handleOffer, handleAnswer, handleIce.
    by rewrite !relay_notInRoom.
Qed.

Lemma relay_to_open_members_witness :
  handleOffer sock1 sdpX wssOpen rmAliceBob =
    [Send "c2" (RelayedOfferMessage sdpX "alice")] ∧
  handleAnswer sock2 sdpX wssOpen rmAliceBob =
    [Send "c1" (RelayedAnswerMessage sdpX "bob")] ∧
  handleIce sock1 sdpX wssOpen rmAlice = [] ∧
  handleOffer sock3 sdpX wssOpen rmAliceBob =
    [Send "c3" (ErrorMessage "NOT_IN_ROOM" "Must join a room first")].
Proof.
  destruct (relay_to_open_members sock1 wssOpen rmAliceBob sdpX) as [H1 _].
  destruct (relay_to_open_members sock2 wssOpen rmAliceBob sdpX) as [H2 _].
  destruct (relay_to_open_members sock1 wssOpen rmAlice sdpX) as [H3 _].
  destruct (relay_to_open_members sock3 wssOpen rmAliceBob sdpX) as [_ H4].
  split_and!.
  - apply (H1 (Peer.mk "c1" (Some "R") (Some "alice") (Some "T")) "R" "alice");
      by vm_compute.
  - apply (H2 (Peer.mk "c2" (Some "R") (Some "bob") (Some "T")) "R" "bob");
      by vm_compute.
  - apply (H3 (Peer.mk "c1" (Some "R") (Some "alice") (Some "T")) "R" "alice");
      by vm_compute.
  - apply H4; [|reflexivity]. intros p Hp. vm_compute in Hp. discriminate.
Defined.

(** C3 as stated fails: bob is a member of alice's room, his socket is
    closing, and alice's offer is relayed to no one. *)
Lemma offer_not_relayed_to_closing_member :
  getPeer "c1" rmAliceBob = Some (Peer.mk "c1" (Some "R") (Some "alice") (Some "T")) ∧
  "c2" ∈ others "c1" (roomMembers "R" rmAliceBob) ∧
  handleOffer sock1 sdpX wssClosing2 rmAliceBob = [].
Proof.
  split_and!; [reflexivity | | reflexivity].
  by apply (bool_decide_unpack _); vm_compute.
Qed.

Section SignalingProperties.
Context `{JwtLib}.

Lemma handleMessage_joinFrame socket roomId token jwtSecret wss now rm :
  handleMessage socket (Some (joinFrame roomId token)) jwtSecret wss now rm =
  handleJoin socket roomId token jwtSecret wss now rm.
Proof. reflexivity. Qed.

(** [handleJoin] once the token has verified and names the room. *)
Lemma handleJoin_verified socket roomId token jwtSecret wss now rm claims :
  jwt_verify token jwtSecret now = inr claims →
  TokenPayload.roomId claims = roomId →
  handleJoin socket roomId token jwtSecret wss now rm =
  admitAndNotify socket roomId claims wss rm.
Proof.
  intros Hverify Hroom. unfold handleJoin. rewrite Hverify.
  by rewrite bool_decide_eq_false_2 by (by intros []).
Qed.

Lemma joinRoom_success_members c r u a rm rm' :
  joinRoom c r u a rm = (rm', JoinSuccess) →
  roomMembers r rm' = set_add c (roomMembers r rm) ∧
  ∃ peer', peers rm' !! c = Some peer' ∧ Peer.roomId peer' = Some r.
Proof.
  intros (peer & room & _ & _ & Hroom & _ & _ & Hrooms & Hpeers)%joinRoom_success.
  split.
  - unfold roomMembers. rewrite Hrooms, lookup_insert_eq. simpl.
    by destruct Hroom as [->|[-> ->]].
  - eexists. rewrite Hpeers, lookup_insert_eq. done.
Qed.

(** C4, as amended.  On a successful join into a room with a non-empty
    id, by a connection whose socket is open, the server first sends the
    newly admitted peer a joined message carrying the room id, the user
    id of the grant and the user ids that [getRoomUserIds] listed for the
    room before this admission; then it sends a peer-joined message
    carrying the new peer's user id, with isInitiator true, to each
    member that was already in the room and whose socket is open, to
    those members only and never to the new peer; it produces no other
    effect. *)
Theorem join_notifies_open_members
    socket roomId token jwtSecret wss now rm claims rm' :
  jwt_verify token jwtSecret now = inr claims →
  TokenPayload.roomId claims = roomId →
  roomId ≠ EmptyString →
  joinRoom (ws_socketId socket) roomId
           (TokenPayload.userId claims) (TokenPayload.appId claims) rm
    = (rm', JoinSuccess) →
  readyState socket = OPEN →
  handleJoin socket roomId token jwtSecret wss now rm =
    (rm',
     Send (ws_socketId socket)
          (JoinedMessage roomId (TokenPayload.userId claims)
                         (getRoomUserIds roomId rm))
     :: List.map (λ id, Send id (PeerJoinedMessage (TokenPayload.userId claims) true))
          (openPeers wss (others (ws_socketId socket) (roomMembers roomId rm)))) ∧
  getRoomUserIds roomId rm = omap (memberUserId rm) (roomMembers roomId rm).
Proof.
  intros Hverify Hroom Hne Hjoin Hopen. split.
  - rewrite (handleJoin_verified _ _ _ _ _ _ _ _ Hverify Hroom).
    unfold admitAndNotify. rewrite Hjoin.
    destruct (joinRoom_success_members _ _ _ _ _ _ Hjoin)
      as (Hmembers & peer' & Hpeer' & Hrid').
    rewrite sendToPeers_spec.
    rewrite (getRoomPeers_spec _ _ _ _ Hpeer' Hrid' Hne).
    rewrite Hmembers, others_set_add.
    unfold send. by rewrite bool_decide_eq_true_2.
  - unfold getRoomUserIds, roomMembers. by destruct (rooms rm !! roomId).
Qed.
End SignalingProperties.

Lemma join_notifies_open_members_witness :
  handleJoin sock2 "R" (issue "j2" "bob" "participant") "secret" wssOpen 2000
             (registerPeer "c2" rmAlice).1 =
    (rmAliceBob,
     [Send "c2" (JoinedMessage "R" "bob" ["alice"]);
      Send "c1" (PeerJoinedMessage "bob" true)]).
Proof.
  refine (proj1 (join_notifies_open_members sock2 "R" _ "secret" wssOpen 2000
                   (registerPeer "c2" rmAlice).1
                   (TokenPayload.mk "j2" "T" "R" "bob" "participant" 1000 (Some 4600%Z))
                   rmAliceBob _ _ _ _ _));
    by vm_compute.
Defined.

(** C4 as stated fails: alice was in the room before bob's admission, her
    socket is closing, and the join sends her no peer-joined message. *)
Lemma join_does_not_notify_closing_member :
  roomMembers "R" (registerPeer "c2" rmAlice).1 = ["c1"] ∧
  handleJoin sock2 "R" (issue "j2" "bob" "participant") "secret" wssClosing1 2000
             (registerPeer "c2" rmAlice).1 =
    (rmAliceBob, [Send "c2" (JoinedMessage "R" "bob" ["alice"])]).
Proof. by vm_compute. Qed.

(** ** The signaling endpoint: errors *)

Section SignalingErrors.
Context `{JwtLib}.

Lemma elem_of_send socket message e :
  e ∈ send socket message →
  e = Send (ws_socketId socket) message ∧ send socket message = [e].
Proof.
  unfold send. case_bool_decide.
  - by intros ->%list_elem_of_singleton.
  - by intros ?%not_elem_of_nil.
Qed.

Lemma elem_of_sendToPeers wss ids message e :
  e ∈ sendToPeers wss ids message → ∃ id, e = Send id message.
Proof.
  rewrite sendToPeers_spec. intros (id & -> & _)%list_elem_of_fmap. eauto.
Qed.

(** Where an error frame is sent it is all that the handler does. *)
Ltac error_path :=
  let Hin := fresh "Hin" in
  intros [= <- <-] Hin; unfold sendError in *;
  apply elem_of_send in Hin as [[= <- <- <-] ->]; by split.

Ltac no_error_frame :=
  let Hin := fresh "Hin" in
  intros [= <- <-] Hin;
  repeat match goal with
  | Hin : _ ∈ [] |- _ => by apply not_elem_of_nil in Hin
  | Hin : _ ∈ _ ++ _ |- _ => apply elem_of_app in Hin as [Hin|Hin]
  | Hin : _ ∈ send _ _ |- _ => by apply elem_of_send in Hin as [[=] _]
  | Hin : _ ∈ notifyPeerLeft _ _ _ |- _ => unfold notifyPeerLeft in Hin
  | Hin : _ ∈ sendToPeers _ _ _ |- _ =>
      by apply elem_of_sendToPeers in Hin as [? [=]]
  end.

Lemma relay_error_frame_alone socket wss rm frame id code message :
  (∀ u, frame u ≠ ErrorMessage code message) →
  Send id (ErrorMessage code message) ∈ relay socket wss rm frame →
  relay socket wss rm frame =
    [Send (ws_socketId socket) (ErrorMessage code message)].
Proof.
  intros Hframe. unfold relay. destruct (joinedUserId socket rm) as [u|].
  - intros [id' [= -> Heq]]%elem_of_sendToPeers. by destruct (Hframe u).
  - unfold sendError. by intros [[= <- <- <-] ->]%elem_of_send.
Qed.

Lemma handleMessage_error_frame_alone
    socket data jwtSecret wss now rm rm' effects id code message :
  handleMessage socket data jwtSecret wss now rm = (rm', effects) →
  Send id (ErrorMessage code message) ∈ effects →
  effects = [Send (ws_socketId socket) (ErrorMessage code message)] ∧ rm' = rm.
Proof.
  unfold handleMessage. destruct data as [json|]; [|error_path].
  destruct (negb (isValidIncomingMessage json)); [error_path|].
  destruct (asIncomingMessage json) as [[roomId token|sdp|sdp|candidate|]|].
  - unfold handleJoin.
    destruct (jwt_verify token jwtSecret now) as [[|?]|claims];
      [error_path|error_path|].
    case_bool_decide; [error_path|]. unfold admitAndNotify.
    destruct (joinRoom _ _ _ _ rm) as [rm1 [|error code']] eqn:Hjoin.
    + no_error_frame.
    + apply joinRoom_failure in Hjoin as ->. error_path.
  - intros [= <- <-] Hin. split; [|done].
    by apply relay_error_frame_alone in Hin.
  - intros [= <- <-] Hin. split; [|done].
    by apply relay_error_frame_alone in Hin.
  - intros [= <- <-] Hin. split; [|done].
    by apply relay_error_frame_alone in Hin.
  - unfold handleLeave. destruct (joinedUserId socket rm) as [u|];
      [|no_error_frame].
    destruct (leaveRoom _ rm) as [rm1 [lr|]]; no_error_frame.
  - no_error_frame.
Qed.

Lemma handleMessage_only_sends socket data jwtSecret wss now rm e :
  e ∈ (handleMessage socket data jwtSecret wss now rm).2 →
  ∃ id message, e = Send id message.
Proof.
  assert (∀ s m, e ∈ send s m → ∃ id message, e = Send id message) as Hsend.
  { intros s m [-> _]%elem_of_send. eauto. }
  assert (∀ ids m, e ∈ sendToPeers wss ids m → ∃ id message, e = Send id message)
    as Hpeers.
  { intros ids m [id ->]%elem_of_sendToPeers. eauto. }
  assert (∀ frame, e ∈ relay socket wss rm frame → ∃ id message, e = Send id message)
    as Hrelay.
  { intros frame. unfold relay, sendError. destruct (joinedUserId socket rm); eauto. }
  unfold handleMessage, sendError. destruct data as [json|]; simpl; [|eauto].
  destruct (negb (isValidIncomingMessage json)); simpl; [eauto|].
  destruct (asIncomingMessage json) as [[roomId token|sdp|sdp|candidate|]|];
    simpl; eauto.
  - unfold handleJoin, sendError.
    destruct (jwt_verify token jwtSecret now) as [[|?]|claims]; simpl; eauto.
    case_bool_decide; simpl; eauto. unfold admitAndNotify, sendError.
    destruct (joinRoom _ _ _ _ rm) as [rm1 [|error code']]; simpl; eauto.
    intros [?|?]%elem_of_app; eauto.
  - unfold handleLeave, notifyPeerLeft.
    destruct (joinedUserId socket rm) as [u|]; simpl;
      [|by intros ?%not_elem_of_nil].
    destruct (leaveRoom _ rm) as [rm1 [lr|]]; simpl; eauto.
    by intros ?%not_elem_of_nil.
  - by intros ?%not_elem_of_nil.
Qed.

(** C5, as amended.  Whenever the signaling endpoint emits an error
    frame, with a fatal code or any other, the frame goes to the socket
    whose message is being handled and is the only effect of the handler:
    nothing follows it, the handler terminates no socket (its effects are
    sends) and the registry is as before, so the transport stays open.
    In particular a client with a valid grant that joins a room at its
    cap receives a ROOM_FULL error, and that is all. *)
Theorem error_frame_is_not_followed_by_close
    socket data jwtSecret wss now rm :
  (∀ e, e ∈ (handleMessage socket data jwtSecret wss now rm).2 →
        ∃ id message, e = Send id message) ∧
  (∀ id code message,
     Send id (ErrorMessage code message)
       ∈ (handleMessage socket data jwtSecret wss now rm).2 →
     handleMessage socket data jwtSecret wss now rm =
       (rm, [Send (ws_socketId socket) (ErrorMessage code message)])) ∧
  (∀ roomId token claims peer room,
     data = Some (joinFrame roomId token) →
     jwt_verify token jwtSecret now = inr claims →
     TokenPayload.roomId claims = roomId →
     peers rm !! ws_socketId socket = Some peer → Peer.roomId peer = None →
     rooms rm !! roomId = Some room →
     Room.appId room = TokenPayload.appId claims →
     Room.maxParticipants room ≤ length (Room.peers room) →
     readyState socket = OPEN →
     handleMessage socket data jwtSecret wss now rm =
       (rm, [Send (ws_socketId socket) (ErrorMessage "ROOM_FULL" "Room is full")])).
Proof.
  split_and!.
  - apply handleMessage_only_sends.
  - intros id code message Hin.
    destruct (handleMessage socket data jwtSecret wss now rm)
      as [rm' effects] eqn:Hhandle.
    by destruct (handleMessage_error_frame_alone _ _ _ _ _ _ _ _ _ _ _ Hhandle Hin)
      as [-> ->].
  - intros roomId token claims peer room -> Hverify Hroom Hpeer Hrid Hentry Happ
      Hfull Hopen.
    rewrite handleMessage_joinFrame.
    rewrite (handleJoin_verified _ _ _ _ _ _ _ _ Hverify Hroom).
    unfold admitAndNotify.
    destruct (joinRoom_full (ws_socketId socket) roomId
                (TokenPayload.userId claims) (TokenPayload.appId claims)
                rm room Hentry Hfull) as [_ Hjoin].
    rewrite (Hjoin peer Hpeer Hrid Happ).
    unfold sendError, send. by rewrite bool_decide_eq_true_2.
Qed.
End SignalingErrors.

Lemma error_frame_is_not_followed_by_close_witness :
  handleMessage sock3 (Some (joinFrame "R" (issue "j3" "carol" "participant")))
                "secret" wssOpen 2000 (registerPeer "c3" rmAliceBob).1 =
    ((registerPeer "c3" rmAliceBob).1,
     [Send "c3" (ErrorMessage "ROOM_FULL" "Room is full")]).
Proof.
  refine (proj2 (proj2 (error_frame_is_not_followed_by_close sock3 _ "secret"
                          wssOpen 2000 (registerPeer "c3" rmAliceBob).1))
            "R" _ (TokenPayload.mk "j3" "T" "R" "carol" "participant" 1000 (Some 4600%Z))
            (freshPeer "c3") (Room.mk "R" "T" ["c1"; "c2"] 2) _ _ _ _ _ _ _ _ _);
    by vm_compute.
Defined.

(** C5 as stated fails: carol joins the full room of alice and bob; the
    handler sends her the ROOM_FULL frame and does nothing after it, in
    particular it does not terminate her socket. *)
Lemma room_full_error_without_close :
  ∃ effects,
    (handleMessage sock3 (Some (joinFrame "R" (issue "j3" "carol" "participant")))
                   "secret" wssOpen 2000 (registerPeer "c3" rmAliceBob).1).2
      = effects ∧
    last effects = Some (Send "c3" (ErrorMessage "ROOM_FULL" "Room is full")) ∧
    Terminate "c3" ∉ effects.
Proof.
  eexists. split; [by vm_compute|]. split; [reflexivity|].
  by intros [=]%list_elem_of_singleton.
Qed.

(** ** The grant issuer *)

Lemma trim_nonempty s : trim s ≠ EmptyString → s ≠ EmptyString.
Proof. by intros Hs ->. Qed.

Lemma length_zero_empty s : String.length s = 0 ↔ s = EmptyString.
Proof. by destruct s. Qed.

Lemma valid_role_nonempty role : role ∈ VALID_ROLES → role ≠ EmptyString.
Proof.
  unfold VALID_ROLES. intros Hin ->.
  repeat (apply elem_of_cons in Hin as [Hin|Hin]; [discriminate|]).
  by apply not_elem_of_nil in Hin.
Qed.

(** ** The time to live *)

Lemma nat_of_digit d : d < 10 → Ascii.nat_of_ascii (Ascii.ascii_of_nat (48 + d)) = 48 + d.
Proof. intros Hd. apply Ascii.nat_ascii_embedding. lia. Qed.

Lemma matchExpiresIn_cons acc c c' rest :
  matchExpiresIn acc (String c (String c' rest)) =
    if isDigit c
    then matchExpiresIn (Some (10 * default 0 acc + digitValue c)%Z) (String c' rest)
    else None.
Proof. reflexivity. Qed.

Lemma digitString_unit ds unit :
  ∃ c rest, digitString ds +:+ String unit EmptyString = String c rest.
Proof. destruct ds; eexists _, _; reflexivity. Qed.

Lemma digitString_cons d ds unit :
  digitString (d :: ds) +:+ String unit EmptyString =
    String (Ascii.ascii_of_nat (48 + d)) (digitString ds +:+ String unit EmptyString).
Proof. reflexivity. Qed.

Lemma matchExpiresIn_digits acc ds unit :
  Forall (λ d, d < 10) ds →
  unit ∈ ["s"; "m"; "h"; "d"]%char →
  ds ≠ [] ∨ is_Some acc →
  matchExpiresIn acc (digitString ds +:+ String unit EmptyString) =
    Some (decimalValue (default 0%Z acc) ds, unit).
Proof.
  intros Hds Hunit. revert acc. induction Hds as [|d ds Hd Hds IH]; intros acc Hacc.
  - destruct Hacc as [?|[v ->]]; [done|].
    change (matchExpiresIn (Some v) (String unit EmptyString) =
            Some (v, unit)).
    unfold matchExpiresIn. by rewrite bool_decide_eq_true_2.
  - rewrite digitString_cons.
    destruct (digitString_unit ds unit) as (c' & rest' & Heq).
    rewrite Heq, matchExpiresIn_cons, <- Heq.
    assert (isDigit (Ascii.ascii_of_nat (48 + d)) = true) as ->.
    { unfold isDigit. rewrite nat_of_digit by done.
      apply bool_decide_eq_true_2. lia. }
    assert (digitValue (Ascii.ascii_of_nat (48 + d)) = Z.of_nat d) as ->.
    { unfold digitValue. rewrite nat_of_digit by done. lia. }
    rewrite IH by (right; eauto). done.
Qed.

Lemma matchExpiresIn_inv acc s value unit :
  matchExpiresIn acc s = Some (value, unit) →
  ∃ ds,
    s = digitString ds +:+ String unit EmptyString ∧
    Forall (λ d, d < 10) ds ∧
    unit ∈ ["s"; "m"; "h"; "d"]%char ∧
    (ds ≠ [] ∨ is_Some acc) ∧
    value = decimalValue (default 0%Z acc) ds.
Proof.
  revert acc. induction s as [|c rest IH]; intros acc; [done|].
  destruct rest as [|c' rest'].
  - unfold matchExpiresIn. destruct acc as [v|]; [|done].
    case_bool_decide as Hunit; [|done]. intros [= <- <-].
    exists []. split_and!; eauto.
  - rewrite matchExpiresIn_cons.
    destruct (isDigit c) eqn:Hdigit; [|done]. intros Hrest.
    apply IH in Hrest as (ds & Hs & Hds & Hunit & _ & Hvalue).
    unfold isDigit in Hdigit. apply bool_decide_eq_true in Hdigit.
    exists ((Ascii.nat_of_ascii c - 48) :: ds). split_and!.
    + rewrite digitString_cons, <- Hs. f_equal.
      replace (48 + (Ascii.nat_of_ascii c - 48)) with (Ascii.nat_of_ascii c) by lia.
      by rewrite Ascii.ascii_nat_embedding.
    + constructor; [lia|done].
    + done.
    + by left.
    + rewrite Hvalue. unfold digitValue.
      change (decimalValue (default 0%Z acc) ((Ascii.nat_of_ascii c - 48) :: ds))
        with (decimalValue (10 * default 0%Z acc
                            + Z.of_nat (Ascii.nat_of_ascii c - 48))%Z ds).
      f_equal. simpl default. lia.
Qed.

Lemma decimalValue_nonneg acc ds : (0 ≤ acc)%Z → (0 ≤ decimalValue acc ds)%Z.
Proof.
  revert acc. induction ds as [|d ds IH]; intros acc Hacc; simpl; [done|].
  apply IH. lia.
Qed.

Lemma unitSeconds_spec value unit :
  unit ∈ ["s"; "m"; "h"; "d"]%char →
  (if bool_decide (unit = "s"%char) then inr value
   else if bool_decide (unit = "m"%char) then inr (value * 60)%Z
   else if bool_decide (unit = "h"%char) then inr (value * 60 * 60)%Z
   else if bool_decide (unit = "d"%char) then inr (value * 60 * 60 * 24)%Z
   else inl (ValidationError "Invalid time unit"))
  = (inr (value * unitSeconds unit)%Z : AppError + Z).
Proof.
  intros Hunit. unfold unitSeconds.
  repeat (apply elem_of_cons in Hunit as [->|Hunit]; [simpl; f_equal; lia|]).
  by apply not_elem_of_nil in Hunit.
Qed.

Lemma parseExpiresIn_accepts ds unit :
  ds ≠ [] → Forall (λ d, d < 10) ds → unit ∈ ["s"; "m"; "h"; "d"]%char →
  parseExpiresIn (digitString ds +:+ String unit EmptyString) =
    inr (decimalValue 0 ds * unitSeconds unit)%Z.
Proof.
  intros Hne Hds Hunit. unfold parseExpiresIn.
  rewrite matchExpiresIn_digits by eauto. simpl. by apply unitSeconds_spec.
Qed.

Lemma parseExpiresIn_inv s seconds :
  parseExpiresIn s = inr seconds →
  (0 ≤ seconds)%Z ∧
  ∃ ds unit,
    ds ≠ [] ∧ Forall (λ d, d < 10) ds ∧ unit ∈ ["s"; "m"; "h"; "d"]%char ∧
    s = digitString ds +:+ String unit EmptyString ∧
    seconds = (decimalValue 0 ds * unitSeconds unit)%Z.
Proof.
  unfold parseExpiresIn.
  destruct (matchExpiresIn None s) as [[value unit]|] eqn:Hmatch; [|done].
  apply matchExpiresIn_inv in Hmatch as (ds & -> & Hds & Hunit & Hne & ->).
  rewrite unitSeconds_spec by done. intros [= <-]. simpl. split.
  - apply Z.mul_nonneg_nonneg; [by apply decimalValue_nonneg|].
    unfold unitSeconds. repeat case_bool_decide; lia.
  - exists ds, unit. split_and!; try done.
    by destruct Hne as [?|[? ?]].
Qed.

Lemma parseExpiresIn_error s e :
  parseExpiresIn s = inl e → e = ValidationError invalidExpiresInMessage.
Proof.
  unfold parseExpiresIn.
  destruct (matchExpiresIn None s) as [[value unit]|] eqn:Hmatch;
    [|by intros [= <-]].
  apply matchExpiresIn_inv in Hmatch as (_ & _ & _ & Hunit & _).
  by rewrite unitSeconds_spec.
Qed.

Lemma parseExpiresIn_nonneg s seconds :
  parseExpiresIn s = inr seconds → (0 ≤ seconds)%Z.
Proof. intros Hparse. by apply parseExpiresIn_inv in Hparse as [? _]. Qed.

(** An expiry within the range of [Date], for a clock that is not before
    the epoch, is a safe integer and a valid time value. *)
Lemma expiry_in_range now secs :
  (0 ≤ now)%Z → (0 ≤ secs)%Z → ((now + secs) * 1000 ≤ MAX_TIME_VALUE)%Z →
  bool_decide (MAX_SAFE_INTEGER < secs)%Z = false ∧
  validTimeValue ((now + secs) * 1000) = true.
Proof.
  unfold MAX_TIME_VALUE, MAX_SAFE_INTEGER, validTimeValue, MAX_TIME_VALUE.
  intros Hnow Hsecs Hexp. split.
  - apply bool_decide_eq_false_2. lia.
  - apply bool_decide_eq_true_2. lia.
Qed.

Section Grants.
Context `{JwtLib}.
Variable config : Config.

(** [createToken] succeeds on every input that meets its checks and
    whose expiry is within the range of [Date]. *)
Lemma createToken_success db now signTime jti appId roomId input room secs :
  appId ≠ EmptyString → roomId ≠ EmptyString →
  trim (input_userId input) ≠ EmptyString →
  input_role input ∈ VALID_ROLES →
  db !! roomId = Some room → DbRoom.appId room = appId →
  parseExpiresIn (expiresInOrDefault config input) = inr secs →
  (0 ≤ now)%Z → ((now + secs) * 1000 ≤ MAX_TIME_VALUE)%Z →
  createToken config db now signTime jti appId roomId input =
    inr (mkCreateTokenResponse
           (jwt_sign (issuedClaims jti appId roomId input) (jwt_secret config)
                     secs signTime)
           (now + secs)).
Proof.
  intros Happ Hroom Huser Hrole Hdb Howner Hparse Hnow Hexp.
  unfold createToken, truthy_str.
  pose proof (trim_nonempty _ Huser) as Huser'.
  pose proof (valid_role_nonempty _ Hrole) as Hrole'.
  rewrite !(bool_decide_eq_false_2 (_ = EmptyString)) by done. simpl.
  rewrite (bool_decide_eq_false_2 (String.length _ = 0))
    by (by rewrite length_zero_empty).
  rewrite (bool_decide_eq_true_2 (_ ∈ _)) by done. simpl.
  unfold RoomService.getRoomInternal. rewrite Hdb.
  rewrite bool_decide_eq_false_2 by (by intros []).
  rewrite Hparse.
  destruct (expiry_in_range now secs Hnow (parseExpiresIn_nonneg _ _ Hparse) Hexp)
    as [-> ->].
  done.
Qed.

Lemma jwt_verify_signed token payload secret now :
  jwtDecode token = Some (payload, hmacSha256 secret payload) →
  (∀ exp, TokenPayload.exp payload = Some exp → (now < exp)%Z) →
  jwt_verify token secret now = inr payload.
Proof.
  intros Hdecode Hexp. unfold jwt_verify. rewrite Hdecode.
  rewrite bool_decide_eq_false_2 by (by intros []).
  destruct (TokenPayload.exp payload) as [exp|]; [|done].
  rewrite bool_decide_eq_false_2; [done|]. specialize (Hexp exp eq_refl). lia.
Qed.

(** The token that [jwt.sign] makes verifies before its [exp]. *)
Lemma verifyToken_signed claims secs signTime now :
  (now < signTime + secs)%Z →
  verifyToken config (jwt_sign claims (jwt_secret config) secs signTime) now
    = inr claims.
Proof.
  intros Hnow. unfold verifyToken, jwt_sign.
  erewrite jwt_verify_signed; [|apply jwtDecode_encode|].
  - by destruct claims.
  - simpl. intros exp [= <-]. lia.
Qed.

(** C2, as amended.  For every claim set that passes the checks of
    [createToken] (the user id not blank, which is more than non-empty)
    and every well-formed time to live whose expiry is within the range
    of [Date], issuing succeeds, and verifying the issued token at any
    time before its [exp] yields the issued claim object (jti, appId,
    roomId, userId, role) with the user id trimmed; these are exactly
    the claims given when the user id has no white space around it. *)
Theorem createToken_verifyToken_roundtrip
    db now signTime jti appId roomId input room secs t :
  appId ≠ EmptyString → roomId ≠ EmptyString →
  trim (input_userId input) ≠ EmptyString →
  input_role input ∈ VALID_ROLES →
  db !! roomId = Some room → DbRoom.appId room = appId →
  parseExpiresIn (expiresInOrDefault config input) = inr secs →
  (0 ≤ now)%Z → ((now + secs) * 1000 ≤ MAX_TIME_VALUE)%Z →
  (t < signTime + secs)%Z →
  ∃ response,
    createToken config db now signTime jti appId roomId input = inr response ∧
    expiresAt response = (now + secs)%Z ∧
    verifyToken config (token response) t =
      inr (TokenClaims.mk jti appId roomId (trim (input_userId input))
                          (input_role input)) ∧
    (trim (input_userId input) = input_userId input →
     verifyToken config (token response) t =
       inr (TokenClaims.mk jti appId roomId (input_userId input) (input_role input))).
Proof.
  intros Happ Hroom Huser Hrole Hdb Howner Hparse Hnow Hexp Ht.
  eexists. split; [by eapply createToken_success|]. simpl. split; [done|].
  rewrite verifyToken_signed by done. split; [done|].
  intros Htrim. unfold issuedClaims. by rewrite Htrim.
Qed.

(** C7, as amended.  For every token whose signature verifies and whose
    [exp] is in the future, whatever strings its claims are (a role
    outside host, participant and viewer, an empty user id), [verifyToken]
    returns the claims jti, appId, roomId, userId and role as they are,
    and the join handler goes on to the admission with them whenever the
    [roomId] claim equals the requested room id; it answers INVALID_TOKEN
    otherwise.  Neither looks at the role or at the user id.  The same
    holds of a signed token that has no [exp]. *)
Theorem verification_does_not_validate_claims
    token payload now socket roomId wss rm :
  jwtDecode token = Some (payload, hmacSha256 (jwt_secret config) payload) →
  (∀ exp, TokenPayload.exp payload = Some exp → (now < exp)%Z) →
  verifyToken config token now =
    inr (TokenClaims.mk (TokenPayload.jti payload) (TokenPayload.appId payload)
                        (TokenPayload.roomId payload) (TokenPayload.userId payload)
                        (TokenPayload.role payload)) ∧
  handleJoin socket roomId token (jwt_secret config) wss now rm =
    if bool_decide (TokenPayload.roomId payload ≠ roomId)
    then (rm, sendError socket "INVALID_TOKEN" "Token not valid for this room")
    else admitAndNotify socket roomId payload wss rm.
Proof.
  intros Hdecode Hexp.
  pose proof (jwt_verify_signed _ _ _ _ Hdecode Hexp) as Hverify.
  unfold verifyToken, handleJoin. by rewrite Hverify.
Qed.

(** C9, as amended.  For every input whose user id is empty or only white
    space, [createToken] fails with a validation error and produces no
    token.  It puts no upper bound on the length of the user id: an input
    that meets its other checks, with an expiry within the range of
    [Date], is issued a token whatever the length.  The bound of 255
    characters is enforced one layer up: the route
    [POST /rooms/:roomId/token] validates the body against
    [createTokenSchema] before the hook and [createToken] run, and answers
    400 to a body whose user id is empty or longer than 255 characters,
    whatever the headers, the tables and the rest of the body. *)
Theorem createToken_userId_checks
    db now signTime jti appId roomId input :
  (trim (input_userId input) = EmptyString →
   ∃ message,
     createToken config db now signTime jti appId roomId input
       = inl (AppErr (ValidationError message))) ∧
  (∀ room secs,
     appId ≠ EmptyString → roomId ≠ EmptyString →
     trim (input_userId input) ≠ EmptyString →
     input_role input ∈ VALID_ROLES →
     db !! roomId = Some room → DbRoom.appId room = appId →
     parseExpiresIn (expiresInOrDefault config input) = inr secs →
     (0 ≤ now)%Z → ((now + secs) * 1000 ≤ MAX_TIME_VALUE)%Z →
     ∃ response,
       createToken config db now signTime jti appId roomId input = inr response) ∧
  (¬ (1 ≤ String.length (input_userId input) ≤ 255) →
   ∀ raw apps,
     postToken config raw apps db now signTime jti roomId input
       = inl ValidationFailed ∧
     routeStatus ValidationFailed = 400%Z).
Proof.
  split_and!.
  - intros Hblank. unfold createToken.
    destruct (negb (truthy_str appId)); [eauto|].
    destruct (negb (truthy_str roomId)); [eauto|].
    rewrite Hblank. simpl. rewrite orb_true_r. eauto.
  - intros room secs ?????????. eexists. by eapply createToken_success.
  - intros Hlen raw apps. split; [|done]. unfold postToken, createTokenSchema_body.
    rewrite (bool_decide_eq_false_2 (1 ≤ _ ≤ 255)) by done.
    by rewrite andb_false_r.
Qed.
End Grants.

Lemma createToken_verifyToken_roundtrip_witness :
  ∃ response,
    createToken demoConfig demoDb 1000 1000 "j1" "T" "R"
                (mkCreateTokenInput " alice " "host" (Some "15m")) = inr response ∧
    expiresAt response = 1900%Z ∧
    verifyToken demoConfig (token response) 1899 =
      inr (TokenClaims.mk "j1" "T" "R" "alice" "host").
Proof.
  destruct (createToken_verifyToken_roundtrip demoConfig demoDb 1000 1000
              "j1" "T" "R" (mkCreateTokenInput " alice " "host" (Some "15m"))
              (DbRoom.mk "R" "r" 2 "T" 0) 900 1899)
    as (response & Hcreate & Hexp & Hverify & _);
    try by vm_compute.
  - by apply (bool_decide_unpack _); vm_compute.
  - exists response. by split_and!.
Defined.

(** C2 as stated fails in three ways.  A user id with white space around
    it is non-empty and valid, and the token verifies to another user id,
    the trimmed one; a user id of one space is non-empty and is refused;
    and the well-formed time to live of 100000000 days, whose expiry is
    beyond the range of [Date], makes [createToken] throw a RangeError, so
    that there is no token to verify. *)
Lemma createToken_roundtrip_not_exact :
  (∃ response,
     createToken demoConfig demoDb 1000 1000 "j1" "T" "R"
                 (mkCreateTokenInput " alice " "host" (Some "15m")) = inr response ∧
     verifyToken demoConfig (token response) 1899 =
       inr (TokenClaims.mk "j1" "T" "R" "alice" "host") ∧
     TokenClaims.mk "j1" "T" "R" "alice" "host"
       ≠ TokenClaims.mk "j1" "T" "R" " alice " "host") ∧
  createToken demoConfig demoDb 1000 1000 "j1" "T" "R"
              (mkCreateTokenInput " " "host" (Some "15m"))
    = inl (AppErr (ValidationError "User ID is required")) ∧
  parseExpiresIn "100000000d" = inr 8640000000000%Z ∧
  createToken demoConfig demoDb 1000 1000 "j1" "T" "R"
              (mkCreateTokenInput "alice" "host" (Some "100000000d"))
    = inl RangeError.
Proof.
  split_and!; try by vm_compute.
  eexists. split_and!; [by vm_compute|by vm_compute|done].
Qed.

Lemma verification_does_not_validate_claims_witness :
  verifyToken demoConfig malformedToken 2000 =
    inr (TokenClaims.mk "j9" "T" "R" EmptyString "admin").
Proof.
  refine (proj1 (verification_does_not_validate_claims demoConfig malformedToken
                   malformedPayload 2000 sock1 "R" wssOpen rmRegistered _ _)).
  - by vm_compute.
  - intros exp Hexp. vm_compute in Hexp. by simplify_eq.
Defined.

(** C7 as stated fails: the token is signed and unexpired, its role is not
    one of the three and its user id is empty; [verifyToken] returns its
    claims, and the join handler admits the connection with them. *)
Lemma malformed_claims_are_accepted :
  (TokenPayload.role malformedPayload ∉ VALID_ROLES) ∧
  TokenPayload.userId malformedPayload = EmptyString ∧
  verifyToken demoConfig malformedToken 2000 =
    inr (TokenClaims.mk "j9" "T" "R" EmptyString "admin") ∧
  handleJoin sock1 "R" malformedToken "secret" wssOpen 2000 rmRegistered =
    (mkRoomManager
       {[ "R" := Room.mk "R" "T" ["c1"] 2 ]}
       {[ "c1" := Peer.mk "c1" (Some "R") (Some EmptyString) (Some "T") ]},
     [Send "c1" (JoinedMessage "R" EmptyString [])]).
Proof.
  split_and!; try by vm_compute.
  by apply (bool_decide_unpack _); vm_compute.
Qed.

Lemma createToken_userId_checks_witness :
  (∃ message,
     createToken demoConfig demoDb 1000 1000 "j1" "T" "R"
                 (mkCreateTokenInput "   " "host" None)
       = inl (AppErr (ValidationError message))) ∧
  postToken demoConfig (credentialLines "T" "s3cret")
            [App.mk "T" "acme" "s3cret" 0 0] demoDb 1000 1000 "j1" "R"
            (mkCreateTokenInput EmptyString "host" None)
    = inl ValidationFailed.
Proof.
  split.
  - apply (proj1 (createToken_userId_checks demoConfig demoDb 1000 1000 "j1" "T" "R"
                    (mkCreateTokenInput "   " "host" None))).
    reflexivity.
  - apply (proj2 (proj2 (createToken_userId_checks demoConfig demoDb 1000 1000
                           "j1" "T" "R"
                           (mkCreateTokenInput EmptyString "host" None)))).
    simpl. lia.
Defined.

(** C9 as stated fails: a user id of 256 characters is issued a token by
    [createToken]; it is the request schema of the route that refuses
    it, with status 400 and before [createToken] is called. *)
Lemma createToken_accepts_long_userId :
  String.length longUserId = 256 ∧
  (∃ response,
     createToken demoConfig demoDb 1000 1000 "j1" "T" "R"
                 (mkCreateTokenInput longUserId "host" None) = inr response) ∧
  postToken demoConfig (credentialLines "T" "s3cret")
            [App.mk "T" "acme" "s3cret" 0 0] demoDb 1000 1000 "j1" "R"
            (mkCreateTokenInput longUserId "host" None)
    = inl ValidationFailed.
Proof.
  split; [reflexivity|]. split; [|by vm_compute]. eexists.
  apply (createToken_success demoConfig demoDb 1000 1000 "j1" "T" "R"
           (mkCreateTokenInput longUserId "host" None)
           (DbRoom.mk "R" "r" 2 "T" 0) 3600);
    try by vm_compute.
  by apply (bool_decide_unpack _); vm_compute.
Qed.

(** ** The scenarios of the specification, run *)

(** Alice joins room R, bob joins, alice sends an offer, bob's connection
    closes. *)
Example scenario_two_peer_call :
  let rm0 := (handleConnection "c2" (mkWss [sock1])
                (handleConnection "c1" (mkWss []) emptyManager).2).2 in
  let step1 := handleMessage sock1 (Some (joinFrame "R" (issue "j1" "alice" "host")))
                             "secret" wssOpen 2000 rm0 in
  let step2 := handleMessage sock2
                             (Some (joinFrame "R" (issue "j2" "bob" "participant")))
                             "secret" wssOpen 2000 step1.1 in
  let step3 := handleMessage sock1 (Some (offerFrame sdpX))
                             "secret" wssOpen 2000 step2.1 in
  let step4 := handleDisconnect sock2 wssOpen step3.1 in
  step1.2 = [Send "c1" (JoinedMessage "R" "alice" [])] ∧
  step2.2 = [Send "c2" (JoinedMessage "R" "bob" ["alice"]);
             Send "c1" (PeerJoinedMessage "bob" true)] ∧
  step2.1 = rmAliceBob ∧
  step3.2 = [Send "c2" (RelayedOfferMessage sdpX "alice")] ∧
  step4.2 = [Send "c1" (PeerLeftMessage "bob")] ∧
  step4.1 = rmAlice.
Proof. by vm_compute. Qed.

(** A grant issued for one second, presented two seconds later. *)
Example scenario_expired_grant :
  match createToken demoConfig demoDb 1000 1000 "j4" "T" "R"
                    (mkCreateTokenInput "dave" "viewer" (Some "1s")) with
  | inr response =>
    (handleMessage sock1 (Some (joinFrame "R" (token response)))
                   "secret" wssOpen 1002 rmRegistered).2
    = [Send "c1" (ErrorMessage "TOKEN_EXPIRED" "Token has expired")] ∧
    (handleMessage sock1 (Some (joinFrame "R" (token response)))
                   "secret" wssOpen 1001 rmRegistered).2
    = [Send "c1" (ErrorMessage "TOKEN_EXPIRED" "Token has expired")] ∧
    (handleMessage sock1 (Some (joinFrame "R" (token response)))
                   "secret" wssOpen 1000 rmRegistered).2
    = [Send "c1" (JoinedMessage "R" "dave" [])]
  | inl _ => False
  end.
Proof. by vm_compute. Qed.

(** An offer before any join, and a frame that is not a message. *)
Example scenario_relay_before_join :
  handleMessage sock1 (Some (offerFrame sdpX)) "secret" wssOpen 2000 rmRegistered
    = (rmRegistered, [Send "c1" (ErrorMessage "NOT_IN_ROOM" "Must join a room first")]) ∧
  handleMessage sock1 (Some (JObj [("type", JStr "hello")])) "secret" wssOpen 2000
                rmRegistered
    = (rmRegistered, [Send "c1" (ErrorMessage "INVALID_MESSAGE" "Invalid message format")]) ∧
  handleMessage sock1 None "secret" wssOpen 2000 rmRegistered
    = (rmRegistered, [Send "c1" (ErrorMessage "INVALID_MESSAGE" "Invalid JSON")]).
Proof. by vm_compute. Qed.

(** A room created over REST with a cap of 100: the third holder of a
    grant for it is still refused. *)
Example scenario_room_full_with_rest_cap_100 :
  match RoomService.createRoom "R" 0 "T"
          (RoomService.mkCreateRoomInput "standup" (Some 100%Z)) ∅ with
  | inr (db, row) =>
    let grant jti userId :=
      match createToken demoConfig db 1000 1000 jti "T" "R"
                        (mkCreateTokenInput userId "participant" None) with
      | inr response => token response
      | inl _ => EmptyString
      end in
    let rm0 := (registerPeer "c3" (registerPeer "c2" rmRegistered).1).1 in
    let step1 := handleMessage sock1 (Some (joinFrame "R" (grant "j1" "alice")))
                               "secret" wssOpen 2000 rm0 in
    let step2 := handleMessage sock2 (Some (joinFrame "R" (grant "j2" "bob")))
                               "secret" wssOpen 2000 step1.1 in
    let step3 := handleMessage sock3 (Some (joinFrame "R" (grant "j3" "carol")))
                               "secret" wssOpen 2000 step2.1 in
    DbRoom.maxParticipants row = 100%Z ∧
    roomMembers "R" step2.1 = ["c1"; "c2"] ∧
    (Room.maxParticipants <$> getRoom "R" step2.1) = Some 2 ∧
    step3 = (step2.1, [Send "c3" (ErrorMessage "ROOM_FULL" "Room is full")])
  | inl _ => False
  end.
Proof. by vm_compute. Qed.

(** * Further properties *)

(** ** The presence registry: leaving and removing *)

Lemma set_delete_set_add c s : c ∉ s → set_delete c (set_add c s) = s.
Proof.
  intros Hc. unfold set_add. rewrite bool_decide_eq_false_2 by done.
  unfold set_delete. rewrite filter_app, filter_cons, filter_nil.
  rewrite decide_False by (by intros []). rewrite app_nil_r.
  induction s as [|y s IH]; [done|].
  apply not_elem_of_cons in Hc as [Hne Hc].
  rewrite filter_cons, decide_True by done. by rewrite IH.
Qed.

(** X1.  [leaveRoom] is idempotent: called again for the same connection
    it returns [null] and leaves the registry as the first call left it. *)
Theorem leaveRoom_idempotent c rm :
  leaveRoom c (leaveRoom c rm).1 = ((leaveRoom c rm).1, None).
Proof.
  destruct (leaveRoom c rm) as [rm' [lr|]] eqn:Hl; simpl.
  - apply leaveRoom_some in Hl as (peer & room & _ & _ & _ & _ & _ & _ & Hpeers).
    unfold leaveRoom. by rewrite Hpeers, lookup_insert_eq.
  - by pose proof (leaveRoom_none _ _ _ Hl) as ->.
Qed.

(** X2.  Joining and leaving is a round trip: when an unadmitted connection
    is admitted to a room with a non-empty id and then leaves, [leaveRoom]
    returns that room with the members it had before the admission, and the
    registry is again what it was before the admission; a room entry made
    for the admission is deleted. *)
Theorem joinRoom_leaveRoom_roundtrip c r u a rm peer :
  inv rm →
  peers rm !! c = Some peer →
  Peer.roomId peer = None → Peer.userId peer = None → Peer.appId peer = None →
  r ≠ EmptyString →
  (joinRoom c r u a rm).2 = JoinSuccess →
  leaveRoom c (joinRoom c r u a rm).1 =
    (rm, Some (mkLeaveResult r (roomMembers r rm))).
Proof.
  intros Hinv Hpeer Hrid Huid Haid Hr Hok.
  destruct (joinRoom c r u a rm) as [rm' res] eqn:Hjoin. simpl in Hok. subst res.
  apply joinRoom_success in Hjoin
    as (peer0 & room & Hpeer0 & _ & Hroom & _ & _ & Hrooms & Hpeers).
  rewrite Hpeer in Hpeer0. injection Hpeer0 as <-.
  assert (c ∉ Room.peers room) as Hnotin.
  { destruct Hroom as [Hroom|[_ ->]]; [|apply not_elem_of_nil].
    intros Hin. destruct (inv_reverse _ Hinv _ _ _ Hroom Hin) as (p & Hp & Hpr).
    congruence. }
  assert (roomMembers r rm = Room.peers room) as Hmembers.
  { unfold roomMembers. by destruct Hroom as [->|[-> ->]]. }
  destruct rm as [rs ps], rm' as [rs' ps']; simpl in *. subst rs' ps'.
  unfold leaveRoom; simpl. rewrite !lookup_insert_eq; simpl.
  rewrite bool_decide_eq_false_2 by done. simpl.
  rewrite lookup_insert_eq. simpl.
  rewrite set_delete_set_add by done. rewrite Hmembers.
  rewrite !insert_insert_eq.
  assert (<[c:=Peer.mk (Peer.socketId peer) None None None]> ps = ps) as ->.
  { apply insert_id. rewrite Hpeer. f_equal. destruct peer; simpl in *. congruence. }
  destruct Hroom as [Hroom|[Hroom ->]]; simpl.
  - rewrite bool_decide_eq_false_2.
    + f_equal. f_equal. apply insert_id.
      rewrite Hroom. by destruct room.
    + intros Hlen. apply nil_length_inv in Hlen.
      by apply (inv_nonempty _ Hinv _ _ Hroom).
  - by rewrite delete_insert_id.
Qed.

Lemma joinRoom_leaveRoom_roundtrip_witness :
  leaveRoom "c2" (joinRoom "c2" "R" "bob" "T" (registerPeer "c2" rmAlice).1).1 =
    ((registerPeer "c2" rmAlice).1, Some (mkLeaveResult "R" ["c1"])).
Proof.
  apply (joinRoom_leaveRoom_roundtrip "c2" "R" "bob" "T"
           (registerPeer "c2" rmAlice).1 (freshPeer "c2"));
    try by vm_compute.
  apply invb_sound. by vm_compute.
Defined.

(** X3.  [removePeer] forgets the connection: afterwards it has no peer
    record, whatever it was before, and it is in no member set when the
    invariants held and it was not in the room with the empty id.  For a
    connection without a record [removePeer] returns [null] and changes
    nothing; for one admitted as [u] to room [r] it returns [r], the other
    members of [r] and [u]. *)
Theorem removePeer_forgets c rm :
  getPeer c (removePeer c rm).1 = None ∧
  (getPeer c rm = None → removePeer c rm = (rm, None)) ∧
  (inv rm → notInEmptyNamedRoom c rm →
   ∀ r, c ∉ roomMembers r (removePeer c rm).1) ∧
  (∀ peer r u room,
     getPeer c rm = Some peer →
     Peer.roomId peer = Some r → r ≠ EmptyString →
     Peer.userId peer = Some u → u ≠ EmptyString →
     rooms rm !! r = Some room →
     (removePeer c rm).2 =
       Some (mkRemoveResult r (others c (Room.peers room)) u)).
Proof.
  unfold getPeer. split_and!.
  - destruct (removePeer_rooms_peers c rm) as [_ ->]. apply lookup_delete_eq.
  - intros Hnone. unfold removePeer. by rewrite Hnone.
  - intros Hinv Hc r Hin.
    pose proof (removePeer_inv c rm Hinv Hc) as Hinv'.
    unfold roomMembers in Hin.
    destruct (rooms (removePeer c rm).1 !! r) as [room|] eqn:Hroom;
      [|by apply not_elem_of_nil in Hin].
    destruct (inv_reverse _ Hinv' _ _ _ Hroom Hin) as (p & Hp & _).
    destruct (removePeer_rooms_peers c rm) as [_ Hpeers].
    by rewrite Hpeers, lookup_delete_eq in Hp.
  - intros peer r u room Hpeer Hrid Hr Huid Hu Hroom.
    unfold removePeer, leaveRoom. rewrite Hpeer, Hrid, Huid, Hroom. simpl.
    rewrite !(bool_decide_eq_false_2 (_ = EmptyString)) by done. by simpl.
Qed.

Lemma removePeer_forgets_witness :
  (∀ r, "c2" ∉ roomMembers r (removePeer "c2" rmAliceBob).1) ∧
  (removePeer "c2" rmAliceBob).2 = Some (mkRemoveResult "R" ["c1"] "bob") ∧
  removePeer "c9" rmAliceBob = (rmAliceBob, None).
Proof.
  destruct (removePeer_forgets "c2" rmAliceBob) as (_ & _ & Hout & Hres).
  destruct (removePeer_forgets "c9" rmAliceBob) as (_ & Hnone & _).
  split_and!.
  - apply Hout; [apply invb_sound; by vm_compute|].
    intros p Hp. vm_compute in Hp. by simplify_eq.
  - apply (Hres (Peer.mk "c2" (Some "R") (Some "bob") (Some "T")) "R" "bob"
                (Room.mk "R" "T" ["c1"; "c2"] 2)); by vm_compute.
  - apply Hnone. reflexivity.
Defined.

(** X4.  The user list of a room grows by exactly the admitted user: after
    a successful [joinRoom] with a non-empty user id, [getRoomUserIds] of
    the room is the list it returned before, followed by the new user
    id. *)
Theorem getRoomUserIds_after_join c r u a rm :
  inv rm → u ≠ EmptyString →
  (joinRoom c r u a rm).2 = JoinSuccess →
  getRoomUserIds r (joinRoom c r u a rm).1 = getRoomUserIds r rm ++ [u].
Proof.
  intros Hinv Hu Hok.
  destruct (joinRoom c r u a rm) as [rm' res] eqn:Hjoin. simpl in Hok. subst res.
  apply joinRoom_success in Hjoin
    as (peer & room & Hpeer & Hrid & Hroom & _ & _ & Hrooms & Hpeers).
  assert (c ∉ Room.peers room) as Hnotin.
  { destruct Hroom as [Hroom|[_ ->]]; [|apply not_elem_of_nil].
    intros Hin. destruct (inv_reverse _ Hinv _ _ _ Hroom Hin) as (p & Hp & Hpr).
    congruence. }
  assert (getRoomUserIds r rm = omap (memberUserId rm) (Room.peers room)) as ->.
  { unfold getRoomUserIds. by destruct Hroom as [->|[-> ->]]. }
  simpl. unfold getRoomUserIds. rewrite Hrooms, lookup_insert_eq. simpl.
  unfold set_add. rewrite bool_decide_eq_false_2 by done.
  rewrite omap_app. f_equal.
  - apply list_omap_ext. apply Forall_Forall2_diag, Forall_forall.
    intros m Hm. unfold memberUserId. rewrite Hpeers.
    rewrite lookup_insert_ne; [done|]. by intros ->.
  - simpl. unfold memberUserId. rewrite Hpeers, lookup_insert_eq. simpl.
    by rewrite bool_decide_eq_false_2.
Qed.

Lemma getRoomUserIds_after_join_witness :
  getRoomUserIds "R" (joinRoom "c2" "R" "bob" "T" (registerPeer "c2" rmAlice).1).1
    = ["alice"; "bob"].
Proof.
  refine (getRoomUserIds_after_join "c2" "R" "bob" "T"
            (registerPeer "c2" rmAlice).1 _ _ _); try by vm_compute.
  apply invb_sound. by vm_compute.
Defined.

(** ** The presence registry: tenants, records, statistics *)

Lemma sameTenantb_sound rm : sameTenantb rm = true → sameTenant rm.
Proof.
  unfold sameTenantb. rewrite forallb_forall. intros Hall r room c p Hroom Hin Hp.
  assert (In (r, room) (map_to_list (rooms rm))) as Hrr
    by (by apply list_elem_of_In, elem_of_map_to_list).
  apply Hall in Hrr. rewrite forallb_forall in Hrr.
  apply list_elem_of_In, Hrr in Hin. simpl in Hin. rewrite Hp in Hin.
  by apply bool_decide_eq_true in Hin.
Qed.

Lemma joinRoom_sameTenant c r u a rm :
  inv rm → sameTenant rm → sameTenant (joinRoom c r u a rm).1.
Proof.
  intros Hinv Hten. destruct (joinRoom c r u a rm) as [rm' res] eqn:Hj.
  destruct res as [|e code]; simpl;
    [|by rewrite (joinRoom_failure _ _ _ _ _ _ _ _ Hj)].
  apply joinRoom_success in Hj
    as (peer & room & Hpeer & Hrid & Hroom & Happ & _ & Hrooms & Hpeers).
  assert (∀ r0 room0, rooms rm !! r0 = Some room0 → c ∉ Room.peers room0) as Hout.
  { intros r0 room0 H0 Hin.
    destruct (inv_reverse _ Hinv _ _ _ H0 Hin) as (p & Hp & Hpr). congruence. }
  intros r' room' c' p'. rewrite Hrooms, Hpeers.
  destruct (decide (r = r')) as [<-|Hrr].
  - rewrite lookup_insert_eq. intros [= <-]; simpl.
    intros [->|Hin]%elem_of_set_add.
    + rewrite lookup_insert_eq. intros [= <-]; simpl. f_equal.
      destruct Hroom as [Hroom|[_ ->]]; [|done].
      destruct Happ as [Hnil|Happ]; [|done].
      by destruct (inv_nonempty _ Hinv _ _ Hroom).
    + destruct Hroom as [Hroom|[_ ->]]; [|by apply not_elem_of_nil in Hin].
      rewrite lookup_insert_ne by (intros ->; by apply (Hout _ _ Hroom)).
      by apply (Hten r).
  - rewrite lookup_insert_ne by done. intros H0 Hin.
    rewrite lookup_insert_ne by (intros ->; by apply (Hout _ _ H0)).
    by apply (Hten r').
Qed.

Lemma leaveRoom_sameTenant c rm :
  inv rm → sameTenant rm → sameTenant (leaveRoom c rm).1.
Proof.
  intros Hinv Hten. destruct (leaveRoom c rm) as [rm' [lr|]] eqn:Hl; simpl;
    [|by rewrite (leaveRoom_none _ _ _ Hl)].
  apply leaveRoom_some in Hl
    as (peer & room & Hpeer & Hrid & _ & Hroom & Hrem & Hrooms & Hpeers).
  destruct (inv_forward _ Hinv _ _ _ Hpeer Hrid) as (room0 & Hroom0 & Hcin).
  rewrite Hroom in Hroom0. injection Hroom0 as <-.
  intros r' room' c' p'. rewrite Hrooms, Hpeers, Hrem.
  intros Hr' Hin.
  assert (c' ≠ c ∧ ∃ old, rooms rm !! r' = Some old ∧ c' ∈ Room.peers old ∧
                          Room.appId room' = Room.appId old) as (Hcc & old & Hold & Hino & Happ).
  { destruct (decide (lr_roomId lr = r')) as [<-|Hrr].
    - case_bool_decide; [by rewrite lookup_delete_eq in Hr'|].
      rewrite lookup_insert_eq in Hr'. injection Hr' as <-. simpl in *.
      apply elem_of_set_delete in Hin as [Hin Hcc]. eauto.
    - assert (rooms rm !! r' = Some room') as Hold.
      { case_bool_decide; by rewrite ?lookup_delete_ne, ?lookup_insert_ne in Hr'. }
      split; [|eauto]. intros ->.
      by destruct Hrr; apply (inv_one_room _ Hinv _ _ _ _ _ Hroom Hold Hcin Hin). }
  rewrite lookup_insert_ne by done. rewrite Happ. by apply (Hten r').
Qed.

(** X5.  Tenant isolation of rooms: in a registry that satisfies the
    invariants and in which every member of a room is of the room's pinned
    tenant, this stays so after [joinRoom], [leaveRoom] and [removePeer],
    whatever their arguments, and after [registerPeer] of a connection that
    is in no room. *)
Theorem registry_operations_keep_tenants_apart rm :
  inv rm → sameTenant rm →
  (∀ c, notInRoom c rm → sameTenant (registerPeer c rm).1) ∧
  (∀ c r u a, sameTenant (joinRoom c r u a rm).1) ∧
  (∀ c, sameTenant (leaveRoom c rm).1) ∧
  (∀ c, sameTenant (removePeer c rm).1).
Proof.
  intros Hinv Hten. split_and!.
  - intros c Hc r room c' p Hroom Hin; simpl in *.
    destruct (inv_reverse _ Hinv _ _ _ Hroom Hin) as (p0 & Hp0 & Hr0).
    rewrite lookup_insert_ne; [by apply (Hten r)|].
    intros ->. apply Hc in Hp0. congruence.
  - intros c r u a. by apply joinRoom_sameTenant.
  - intros c. by apply leaveRoom_sameTenant.
  - intros c r room c' p.
    destruct (removePeer_rooms_peers c rm) as [-> ->].
    intros Hroom Hin [_ Hp]%lookup_delete_Some.
    by apply (leaveRoom_sameTenant c rm Hinv Hten r room c' p).
Qed.

Lemma registry_operations_keep_tenants_apart_witness :
  sameTenant (registerPeer "c2" rmAlice).1 ∧
  sameTenant (joinRoom "c2" "R" "bob" "T" rmAlice).1 ∧
  sameTenant (leaveRoom "c1" rmAlice).1 ∧
  sameTenant (removePeer "c1" rmAlice).1.
Proof.
  assert (inv rmAlice) as Hinv by (apply invb_sound; by vm_compute).
  assert (sameTenant rmAlice) as Hten by (apply sameTenantb_sound; by vm_compute).
  destruct (registry_operations_keep_tenants_apart rmAlice Hinv Hten)
    as (Hreg & Hjoin & Hleave & Hremove).
  split_and!; [apply Hreg|apply Hjoin|apply Hleave|apply Hremove].
  intros p Hp. vm_compute in Hp. discriminate.
Defined.

Lemma joinRoom_wellFormed c r u a rm :
  wellFormed rm → wellFormed (joinRoom c r u a rm).1.
Proof.
  intros [Hpeers Hrooms]. destruct (joinRoom c r u a rm) as [rm' res] eqn:Hj.
  destruct res as [|e code]; simpl;
    [|by rewrite (joinRoom_failure _ _ _ _ _ _ _ _ Hj)].
  apply joinRoom_success in Hj
    as (peer & room & Hpeer & _ & Hroom & _ & _ & Hrs & Hps).
  split.
  - intros c' p'. rewrite Hps. destruct (decide (c = c')) as [<-|Hcc].
    + rewrite lookup_insert_eq. intros [= <-]; simpl.
      split; [by apply Hpeers|]. right. eauto.
    + rewrite lookup_insert_ne by done. apply Hpeers.
  - intros r' room'. rewrite Hrs. destruct (decide (r = r')) as [<-|Hrr].
    + rewrite lookup_insert_eq. intros [= <-]; simpl.
      destruct Hroom as [Hroom|[_ ->]]; [by apply Hrooms|done].
    + rewrite lookup_insert_ne by done. apply Hrooms.
Qed.

Lemma leaveRoom_wellFormed c rm :
  wellFormed rm → wellFormed (leaveRoom c rm).1.
Proof.
  intros [Hpeers Hrooms]. destruct (leaveRoom c rm) as [rm' [lr|]] eqn:Hl; simpl;
    [|by rewrite (leaveRoom_none _ _ _ Hl)].
  apply leaveRoom_some in Hl
    as (peer & room & Hpeer & _ & _ & Hroom & _ & Hrs & Hps).
  split.
  - intros c' p'. rewrite Hps. destruct (decide (c = c')) as [<-|Hcc].
    + rewrite lookup_insert_eq. intros [= <-]; simpl.
      split; [by apply Hpeers|]. by left.
    + rewrite lookup_insert_ne by done. apply Hpeers.
  - intros r' room'. rewrite Hrs. case_bool_decide.
    + intros [_ H0]%lookup_delete_Some. by apply Hrooms.
    + destruct (decide (lr_roomId lr = r')) as [<-|Hrr].
      * rewrite lookup_insert_eq. intros [= <-]; simpl. by apply Hrooms.
      * rewrite lookup_insert_ne by done. apply Hrooms.
Qed.

(** X6.  In every registry that the four operations build from the empty
    one, a peer record is stored under its own socket id and is either
    unadmitted, with room, user and tenant all [null], or admitted, with
    all three set; and a room entry is stored under its own id. *)
Theorem reachable_wellFormed rm : reachable rm → wellFormed rm.
Proof.
  induction 1 as [|c rm _ IH|c r u a rm _ IH|c rm _ IH|c rm _ IH].
  - split; intros ??; simpl; by rewrite lookup_empty.
  - destruct IH as [Hpeers Hrooms]. split; [|done].
    intros c' p'; simpl. destruct (decide (c = c')) as [<-|Hcc].
    + rewrite lookup_insert_eq. intros [= <-]; simpl. split; [done|by left].
    + rewrite lookup_insert_ne by done. apply Hpeers.
  - by apply joinRoom_wellFormed.
  - by apply leaveRoom_wellFormed.
  - destruct (leaveRoom_wellFormed c rm IH) as [Hpeers Hrooms].
    destruct (removePeer_rooms_peers c rm) as [Hrs Hps]. split.
    + intros c' p'. rewrite Hps. intros [_ Hp]%lookup_delete_Some. by apply Hpeers.
    + intros r' room'. rewrite Hrs. apply Hrooms.
Qed.

Lemma reachable_wellFormed_witness : wellFormed rmAliceBob.
Proof. apply reachable_wellFormed. repeat constructor. Defined.

Lemma fold_members_bounds (m : gmap string Room.t) (lo hi : nat) :
  ((∀ i room, m !! i = Some room → lo ≤ length (Room.peers room)) →
   lo * size m ≤ map_fold (λ _ room acc, acc + length (Room.peers room)) 0 m) ∧
  ((∀ i room, m !! i = Some room → length (Room.peers room) ≤ hi) →
   map_fold (λ _ room acc, acc + length (Room.peers room)) 0 m ≤ hi * size m).
Proof.
  apply (map_fold_weak_ind
    (λ r (m : gmap string Room.t),
       ((∀ i room, m !! i = Some room → lo ≤ length (Room.peers room)) →
        lo * size m ≤ r) ∧
       ((∀ i room, m !! i = Some room → length (Room.peers room) ≤ hi) →
        r ≤ hi * size m))).
  - rewrite map_size_empty. split; intros _; lia.
  - intros i x m' r Hi [IHlo IHhi].
    rewrite map_size_insert_None by done. split; intros Hall.
    + assert (lo * size m' ≤ r) as Hr.
      { apply IHlo. intros j room Hj. apply (Hall j).
        rewrite lookup_insert_ne; [done|]. intros ->. congruence. }
      pose proof (Hall i x (lookup_insert_eq _ _ _)). lia.
    + assert (r ≤ hi * size m') as Hr.
      { apply IHhi. intros j room Hj. apply (Hall j).
        rewrite lookup_insert_ne; [done|]. intros ->. congruence. }
      pose proof (Hall i x (lookup_insert_eq _ _ _)). lia.
Qed.

Lemma fold_members_set rm (m : gmap string Room.t) :
  inv rm → m ⊆ rooms rm →
  ∃ S : gset string,
    size S = map_fold (λ _ room acc, acc + length (Room.peers room)) 0 m ∧
    ∀ c, c ∈ S → ∃ i room, m !! i = Some room ∧ c ∈ Room.peers room.
Proof.
  intros Hinv.
  apply (map_fold_weak_ind
    (λ r (m : gmap string Room.t),
       m ⊆ rooms rm →
       ∃ S : gset string,
         size S = r ∧
         ∀ c, c ∈ S → ∃ i room, m !! i = Some room ∧ c ∈ Room.peers room)).
  - intros _. exists ∅. split; [apply size_empty|]. intros c Hc. set_solver.
  - intros i x m' r Hi IH Hsub.
    assert (m' ⊆ rooms rm) as Hsub'.
    { etrans; [|exact Hsub]. by apply insert_subseteq. }
    destruct (IH Hsub') as (S & Hsize & Hmem).
    assert (rooms rm !! i = Some x) as Hx.
    { eapply lookup_weaken; [|exact Hsub]. apply lookup_insert_eq. }
    exists (S ∪ list_to_set (Room.peers x)). split.
    + rewrite size_union.
      * rewrite Hsize, size_list_to_set; [done|]. by apply (inv_nodup _ Hinv i).
      * intros c Hc Hcx. apply elem_of_list_to_set in Hcx.
        destruct (Hmem c Hc) as (j & room & Hj & Hcj).
        assert (rooms rm !! j = Some room) as Hj' by (by eapply lookup_weaken).
        assert (j = i) as -> by (by eapply (inv_one_room _ Hinv)).
        congruence.
    + intros c [Hc|Hc]%elem_of_union.
      * destruct (Hmem c Hc) as (j & room & Hj & Hcj). exists j, room.
        split; [|done]. rewrite lookup_insert_ne; [done|]. intros ->. congruence.
      * apply elem_of_list_to_set in Hc. exists i, x.
        by rewrite lookup_insert_eq.
Qed.

(** X7.  The statistics of a registry that satisfies the invariants are
    consistent: there are at least as many peers in rooms as rooms, and no
    more than there are peers; and no more than two per room when every
    room entry has the default cap. *)
Theorem getStats_bounds rm :
  inv rm →
  totalRooms (getStats rm) ≤ peersInRooms (getStats rm) ∧
  peersInRooms (getStats rm) ≤ totalPeers (getStats rm) ∧
  (capped rm → peersInRooms (getStats rm) ≤ 2 * totalRooms (getStats rm)).
Proof.
  intros Hinv. unfold getStats; simpl. split_and!.
  - destruct (fold_members_bounds (rooms rm) 1 0) as [Hlo _].
    rewrite Nat.mul_1_l in Hlo. apply Hlo. intros i room Hroom.
    pose proof (inv_nonempty _ Hinv _ _ Hroom).
    destruct (Room.peers room); [done|simpl; lia].
  - destruct (fold_members_set rm (rooms rm) Hinv) as (S & <- & Hmem); [done|].
    rewrite <- (size_dom (D:=gset string) (peers rm)).
    apply subseteq_size. intros c Hc.
    destruct (Hmem c Hc) as (i & room & Hroom & Hin).
    destruct (inv_reverse _ Hinv _ _ _ Hroom Hin) as (p & Hp & _).
    apply elem_of_dom. eauto.
  - intros Hcap. destruct (fold_members_bounds (rooms rm) 0 2) as [_ Hhi].
    apply Hhi. intros i room Hroom. by destruct (Hcap _ _ Hroom).
Qed.

Lemma getStats_bounds_witness :
  getStats rmAliceBob = mkStats 2 1 2 ∧
  totalRooms (getStats rmAliceBob) ≤ peersInRooms (getStats rmAliceBob) ∧
  peersInRooms (getStats rmAliceBob) ≤ totalPeers (getStats rmAliceBob).
Proof.
  split; [reflexivity|].
  assert (inv rmAliceBob) as Hinv by (apply invb_sound; by vm_compute).
  destruct (getStats_bounds rmAliceBob Hinv) as (H1 & H2 & _). by split.
Defined.

(** ** The signaling endpoint: registry, leave, disconnect *)

Section EndpointProperties.
Context `{JwtLib}.

(** The registry after a message is the one before, or the one that
    [joinRoom] or [leaveRoom] makes of it for the socket of the message. *)
Lemma handleMessage_registry socket data jwtSecret wss now rm :
  (handleMessage socket data jwtSecret wss now rm).1 = rm ∨
  (∃ r u a, (handleMessage socket data jwtSecret wss now rm).1
            = (joinRoom (ws_socketId socket) r u a rm).1) ∨
  (handleMessage socket data jwtSecret wss now rm).1
    = (leaveRoom (ws_socketId socket) rm).1.
Proof.
  unfold handleMessage. destruct data as [json|]; [|by left].
  destruct (negb (isValidIncomingMessage json)); [by left|].
  destruct (asIncomingMessage json) as [[roomId token|sdp|sdp|candidate|]|];
    try by left.
  - unfold handleJoin.
    destruct (jwt_verify token jwtSecret now) as [[|?]|claims]; try by left.
    case_bool_decide; [by left|]. right; left. unfold admitAndNotify.
    exists roomId, (TokenPayload.userId claims), (TokenPayload.appId claims).
    by destruct (joinRoom _ _ _ _ rm) as [rm1 [|error code]].
  - unfold handleLeave. destruct (joinedUserId socket rm) as [u|]; [|by left].
    right; right. by destruct (leaveRoom _ rm) as [rm1 [lr|]].
Qed.

(** X8.  Message handling keeps the registry sound: whatever the frame and
    whatever the token in it, if the registry satisfies the invariants and
    keeps tenants apart before [handleMessage], it does so after. *)
Theorem handleMessage_keeps_invariants socket data jwtSecret wss now rm :
  inv rm → sameTenant rm →
  inv (handleMessage socket data jwtSecret wss now rm).1 ∧
  sameTenant (handleMessage socket data jwtSecret wss now rm).1.
Proof.
  intros Hinv Hten.
  destruct (handleMessage_registry socket data jwtSecret wss now rm)
    as [->|[(r & u & a & ->)| ->]].
  - done.
  - split; [by apply joinRoom_inv|by apply joinRoom_sameTenant].
  - split; [by apply leaveRoom_inv|by apply leaveRoom_sameTenant].
Qed.
End EndpointProperties.

Lemma handleMessage_keeps_invariants_witness :
  inv (handleMessage sock2 (Some (joinFrame "R" (issue "j2" "bob" "participant")))
                     "secret" wssOpen 2000 (registerPeer "c2" rmAlice).1).1 ∧
  sameTenant (handleMessage sock2 (Some (joinFrame "R" (issue "j2" "bob" "participant")))
                            "secret" wssOpen 2000 (registerPeer "c2" rmAlice).1).1.
Proof.
  apply handleMessage_keeps_invariants.
  - apply invb_sound. by vm_compute.
  - apply sameTenantb_sound. by vm_compute.
Defined.

Lemma leaveRoom_admitted c rm peer r room :
  peers rm !! c = Some peer → Peer.roomId peer = Some r → r ≠ EmptyString →
  rooms rm !! r = Some room →
  (leaveRoom c rm).2 = Some (mkLeaveResult r (others c (Room.peers room))) ∧
  peers (leaveRoom c rm).1 =
    <[c := Peer.mk (Peer.socketId peer) None None None]> (peers rm).
Proof.
  intros Hpeer Hrid Hr Hroom. unfold leaveRoom. rewrite Hpeer, Hrid, Hroom. simpl.
  by rewrite bool_decide_eq_false_2.
Qed.

(** X9.  Leaving: when a connection admitted to room [r] as user [u] (both
    non-empty, the room in the registry) sends a leave frame, the server
    takes it out of the room with [leaveRoom] and sends one peer-left
    message with [u] to every other member of [r] whose socket is open, to
    no one else and nothing to the leaver; from then on the connection is
    in no room, so a relay frame from it is answered NOT_IN_ROOM.  A leave
    frame from a connection that is in no room does nothing. *)
Theorem handleLeave_notifies_remaining socket wss rm :
  let c := ws_socketId socket in
  (∀ peer r u room,
     getPeer c rm = Some peer →
     Peer.roomId peer = Some r → r ≠ EmptyString →
     Peer.userId peer = Some u → u ≠ EmptyString →
     rooms rm !! r = Some room →
     handleLeave socket wss rm =
       ((leaveRoom c rm).1,
        List.map (λ id, Send id (PeerLeftMessage u))
                 (openPeers wss (others c (Room.peers room)))) ∧
     notInRoom c (handleLeave socket wss rm).1 ∧
     (readyState socket = OPEN →
      ∀ sdp, handleOffer socket sdp wss (handleLeave socket wss rm).1 =
             [Send c (ErrorMessage "NOT_IN_ROOM" "Must join a room first")])) ∧
  (notInRoom c rm → handleLeave socket wss rm = (rm, [])).
Proof.
  intros c. subst c. split.
  - intros peer r u room Hpeer Hrid Hr Huid Hu Hroom.
    destruct (leaveRoom_admitted _ _ _ _ _ Hpeer Hrid Hr Hroom) as [Hres Hpeers].
    assert (handleLeave socket wss rm =
            ((leaveRoom (ws_socketId socket) rm).1,
             List.map (λ id, Send id (PeerLeftMessage u))
               (openPeers wss (others (ws_socketId socket) (Room.peers room)))))
      as Heq.
    { unfold handleLeave.
      rewrite (joinedUserId_Some _ _ _ _ _ Hpeer Hrid Hr Huid Hu).
      destruct (leaveRoom (ws_socketId socket) rm) as [rm' res]. simpl in *.
      subst res. unfold notifyPeerLeft. by rewrite sendToPeers_spec. }
    rewrite Heq. simpl.
    assert (notInRoom (ws_socketId socket) (leaveRoom (ws_socketId socket) rm).1)
      as Hout.
    { intros p. rewrite Hpeers, lookup_insert_eq. by intros [= <-]. }
    split_and!; [done|done|].
    intros Hopen sdp. unfold handleOffer. by apply relay_notInRoom.
  - intros Hout. unfold handleLeave. by rewrite joinedUserId_notInRoom.
Qed.

Lemma handleLeave_notifies_remaining_witness :
  handleLeave sock2 wssOpen rmAliceBob =
    ((leaveRoom "c2" rmAliceBob).1, [Send "c1" (PeerLeftMessage "bob")]) ∧
  handleOffer sock2 sdpX wssOpen (handleLeave sock2 wssOpen rmAliceBob).1 =
    [Send "c2" (ErrorMessage "NOT_IN_ROOM" "Must join a room first")] ∧
  handleLeave sock3 wssOpen rmAliceBob = (rmAliceBob, []).
Proof.
  destruct (handleLeave_notifies_remaining sock2 wssOpen rmAliceBob) as [Hin _].
  destruct (handleLeave_notifies_remaining sock3 wssOpen rmAliceBob) as [_ Hout].
  pose proof (Hin (Peer.mk "c2" (Some "R") (Some "bob") (Some "T")) "R" "bob"
                  (Room.mk "R" "T" ["c1"; "c2"] 2)
                  ltac:(by vm_compute) ltac:(by vm_compute) ltac:(by vm_compute)
                  ltac:(by vm_compute) ltac:(by vm_compute) ltac:(by vm_compute))
    as (Heq & _ & Herr).
  split_and!.
  - exact Heq.
  - apply Herr. reflexivity.
  - apply Hout. intros p Hp. vm_compute in Hp. discriminate.
Defined.

(** X10.  Disconnecting: when the socket of a connection admitted to room
    [r] as user [u] (both non-empty, the room in the registry) closes, the
    server sends one peer-left message with [u] to every other member of
    [r] whose socket is open and to no one else, and the connection has no
    peer record afterwards.  When the connection was in no room nothing is
    sent, and its record is removed all the same. *)
Theorem handleDisconnect_notifies_remaining socket wss rm :
  let c := ws_socketId socket in
  (∀ peer r u room,
     getPeer c rm = Some peer →
     Peer.roomId peer = Some r → r ≠ EmptyString →
     Peer.userId peer = Some u → u ≠ EmptyString →
     rooms rm !! r = Some room →
     handleDisconnect socket wss rm =
       ((removePeer c rm).1,
        List.map (λ id, Send id (PeerLeftMessage u))
                 (openPeers wss (others c (Room.peers room))))) ∧
  (notInRoom c rm → handleDisconnect socket wss rm = ((removePeer c rm).1, [])) ∧
  getPeer c (handleDisconnect socket wss rm).1 = None.
Proof.
  intros c. subst c. split_and!.
  - intros peer r u room Hpeer Hrid Hr Huid Hu Hroom.
    unfold handleDisconnect.
    assert ((removePeer (ws_socketId socket) rm).2 =
            Some (mkRemoveResult r (others (ws_socketId socket) (Room.peers room)) u))
      as Hres.
    { unfold removePeer, leaveRoom. unfold getPeer in Hpeer.
      rewrite Hpeer, Hrid, Huid, Hroom. simpl.
      rewrite !(bool_decide_eq_false_2 (_ = EmptyString)) by done. by simpl. }
    destruct (removePeer (ws_socketId socket) rm) as [rm' res]. simpl in *.
    subst res. simpl. unfold notifyPeerLeft. by rewrite sendToPeers_spec.
  - intros Hout. unfold handleDisconnect.
    assert ((removePeer (ws_socketId socket) rm).2 = None) as Hres.
    { unfold removePeer, leaveRoom.
      destruct (peers rm !! ws_socketId socket) as [peer|] eqn:Hpeer; [|done].
      rewrite (Hout _ Hpeer). by destruct (Peer.userId peer). }
    destruct (removePeer (ws_socketId socket) rm) as [rm' res]. simpl in *.
    by subst res.
  - assert ((handleDisconnect socket wss rm).1 = (removePeer (ws_socketId socket) rm).1)
      as ->.
    { unfold handleDisconnect.
      by destruct (removePeer (ws_socketId socket) rm) as [rm' [res|]]. }
    unfold getPeer. destruct (removePeer_rooms_peers (ws_socketId socket) rm) as [_ ->].
    apply lookup_delete_eq.
Qed.

Lemma handleDisconnect_notifies_remaining_witness :
  handleDisconnect sock2 wssOpen rmAliceBob =
    ((removePeer "c2" rmAliceBob).1, [Send "c1" (PeerLeftMessage "bob")]) ∧
  handleDisconnect sock1 wssOpen rmRegistered = (emptyManager, []).
Proof.
  destruct (handleDisconnect_notifies_remaining sock2 wssOpen rmAliceBob) as [Hin _].
  destruct (handleDisconnect_notifies_remaining sock1 wssOpen rmRegistered)
    as (_ & Hout & _).
  split.
  - apply (Hin (Peer.mk "c2" (Some "R") (Some "bob") (Some "T")) "R" "bob"
               (Room.mk "R" "T" ["c1"; "c2"] 2)); by vm_compute.
  - apply Hout. intros p Hp. vm_compute in Hp. by simplify_eq.
Defined.

(** ** The signaling endpoint: refusals of a join, isolation of a relay *)

Section JoinRefusals.
Context `{JwtLib}.

Lemma sendError_open socket code message :
  readyState socket = OPEN →
  sendError socket code message = [Send (ws_socketId socket) (ErrorMessage code message)].
Proof. intros Hopen. unfold sendError, send. by rewrite bool_decide_eq_true_2. Qed.

(** X11.  What the join handler answers to a grant it does not accept,
    for a token signed by [jwt.sign] with a lifetime of [secs] seconds at
    time [signTime] and presented on an open socket: TOKEN_EXPIRED from
    the instant [signTime + secs] on, that instant included; INVALID_TOKEN
    when the server's secret gives another signature, whether the token
    has expired or not; INVALID_TOKEN when the token names another room
    than the frame; and INVALID_TOKEN for a string that is no token.  In
    each case the error frame is all that happens and the registry is
    unchanged. *)
Theorem handleJoin_refusals socket roomId claims secret secs signTime wss now rm :
  let token := jwt_sign claims secret secs signTime in
  let payload :=
    TokenPayload.mk (TokenClaims.jti claims) (TokenClaims.appId claims)
                    (TokenClaims.roomId claims) (TokenClaims.userId claims)
                    (TokenClaims.role claims) signTime (Some (signTime + secs)%Z) in
  let refuse code message :=
    (rm, [Send (ws_socketId socket) (ErrorMessage code message)]) in
  readyState socket = OPEN →
  ((signTime + secs ≤ now)%Z →
   handleJoin socket roomId token secret wss now rm =
     refuse "TOKEN_EXPIRED" "Token has expired") ∧
  (∀ secret', hmacSha256 secret' payload ≠ hmacSha256 secret payload →
   handleJoin socket roomId token secret' wss now rm =
     refuse "INVALID_TOKEN" "Invalid token") ∧
  ((now < signTime + secs)%Z → TokenClaims.roomId claims ≠ roomId →
   handleJoin socket roomId token secret wss now rm =
     refuse "INVALID_TOKEN" "Token not valid for this room") ∧
  (∀ garbage, jwtDecode garbage = None →
   handleJoin socket roomId garbage secret wss now rm =
     refuse "INVALID_TOKEN" "Invalid token").
Proof.
  intros token payload refuse Hopen. subst token payload refuse.
  unfold handleJoin, jwt_verify, jwt_sign. split_and!.
  - intros Hexp. rewrite jwtDecode_encode.
    rewrite bool_decide_eq_false_2 by (by intros []). simpl.
    rewrite bool_decide_eq_true_2 by lia.
    by rewrite sendError_open.
  - intros secret' Hsig. rewrite jwtDecode_encode.
    rewrite bool_decide_eq_true_2 by (by intros ?).
    by rewrite sendError_open.
  - intros Hexp Hroom. rewrite jwtDecode_encode.
    rewrite bool_decide_eq_false_2 by (by intros []). simpl.
    rewrite bool_decide_eq_false_2 by lia.
    rewrite bool_decide_eq_true_2 by done.
    by rewrite sendError_open.
  - intros garbage ->. by rewrite sendError_open.
Qed.

(** X12.  A connection is admitted at most once, and only if registered:
    a join with a grant that verifies and names the room of the frame is
    answered ALREADY_IN_ROOM when the connection is in a room already, and
    INTERNAL_ERROR when it has no peer record; the registry is unchanged in
    both cases. *)
Theorem handleJoin_needs_unadmitted_peer
    socket roomId token jwtSecret wss now rm claims :
  jwt_verify token jwtSecret now = inr claims →
  TokenPayload.roomId claims = roomId →
  readyState socket = OPEN →
  (∀ peer, getPeer (ws_socketId socket) rm = Some peer →
           Peer.roomId peer ≠ None →
           handleJoin socket roomId token jwtSecret wss now rm =
             (rm, [Send (ws_socketId socket)
                        (ErrorMessage "ALREADY_IN_ROOM" "Already in a room")])) ∧
  (getPeer (ws_socketId socket) rm = None →
   handleJoin socket roomId token jwtSecret wss now rm =
     (rm, [Send (ws_socketId socket)
                (ErrorMessage "INTERNAL_ERROR" "Peer not found")])).
Proof.
  intros Hverify Hroom Hopen. unfold getPeer.
  rewrite (handleJoin_verified _ _ _ _ _ _ _ _ Hverify Hroom).
  unfold admitAndNotify, joinRoom. split.
  - intros peer -> Hrid. rewrite bool_decide_eq_true_2 by done.
    by rewrite sendError_open.
  - intros ->. by rewrite sendError_open.
Qed.

(** X13.  A grant admits its holder: [createToken] issues a token for a
    user of a room when its checks pass and the expiry is within the range
    of [Date], and that token, presented before its [exp] on an open
    socket by a registered connection that is in no room, is accepted for
    the room when the registry has no entry for the room or an entry of
    the same tenant below its cap; the connection is then a member of the
    room under the trimmed user id of the grant, and the joined message
    carries that id. *)
Theorem issued_grant_admits
    config db now0 signTime jti appId roomId input dbRoom secs
    socket wss now rm peer :
  appId ≠ EmptyString → roomId ≠ EmptyString →
  trim (input_userId input) ≠ EmptyString →
  input_role input ∈ VALID_ROLES →
  db !! roomId = Some dbRoom → DbRoom.appId dbRoom = appId →
  parseExpiresIn (expiresInOrDefault config input) = inr secs →
  (0 ≤ now0)%Z → ((now0 + secs) * 1000 ≤ MAX_TIME_VALUE)%Z →
  (now < signTime + secs)%Z →
  readyState socket = OPEN →
  peers rm !! ws_socketId socket = Some peer → Peer.roomId peer = None →
  (∀ room, rooms rm !! roomId = Some room →
           Room.appId room = appId ∧
           length (Room.peers room) < Room.maxParticipants room) →
  ∃ response rm',
    createToken config db now0 signTime jti appId roomId input = inr response ∧
    handleJoin socket roomId (token response) (jwt_secret config) wss now rm =
      (rm',
       Send (ws_socketId socket)
            (JoinedMessage roomId (trim (input_userId input))
                           (getRoomUserIds roomId rm))
       :: List.map (λ id, Send id (PeerJoinedMessage (trim (input_userId input)) true))
                   (openPeers wss (others (ws_socketId socket)
                                          (roomMembers roomId rm)))) ∧
    ws_socketId socket ∈ roomMembers roomId rm' ∧
    getUserId (ws_socketId socket) rm' = Some (trim (input_userId input)).
Proof.
  intros Happ Hrid Huser Hrole Hdb Howner Hparse Hnow0 Hrange Hexp Hopen Hpeer
         Hnull Hfree.
  set (c := ws_socketId socket). set (u := trim (input_userId input)).
  exists (mkCreateTokenResponse
            (jwt_sign (issuedClaims jti appId roomId input) (jwt_secret config)
                      secs signTime)
            (now0 + secs)%Z),
         (joinRoom c roomId u appId rm).1.
  split; [by eapply createToken_success|]. simpl.
  set (payload := TokenPayload.mk jti appId roomId u (input_role input)
                                  signTime (Some (signTime + secs)%Z)).
  assert (jwt_verify (jwt_sign (issuedClaims jti appId roomId input)
                               (jwt_secret config) secs signTime)
                     (jwt_secret config) now = inr payload) as Hverify.
  { apply jwt_verify_signed; [apply jwtDecode_encode|].
    simpl. intros exp [= <-]. lia. }
  rewrite (handleJoin_verified _ _ _ _ _ _ _ payload Hverify eq_refl).
  unfold admitAndNotify. simpl. fold c.
  destruct (joinRoom c roomId u appId rm) as [rm' res] eqn:Hjoin.
  assert (res = JoinSuccess) as ->.
  { revert Hjoin. unfold joinRoom. subst c. rewrite Hpeer, Hnull.
    rewrite bool_decide_eq_false_2 by (by intros []).
    destruct (rooms rm !! roomId) as [room|] eqn:Hroom; simpl.
    - destruct (Hfree room eq_refl) as [Ha Hlt].
      rewrite (bool_decide_eq_false_2 (_ ≠ _)) by (by intros []).
      rewrite andb_false_r. rewrite bool_decide_eq_false_2 by lia.
      by intros [= _ <-].
    - by intros [= _ <-]. }
  destruct (joinRoom_success_members _ _ _ _ _ _ Hjoin)
    as (Hmembers & peer' & Hpeer' & Hrid').
  pose proof Hjoin as Hjoin'.
  apply joinRoom_success in Hjoin' as (p0 & r0 & _ & _ & _ & _ & _ & _ & Hpeers).
  simpl. split_and!.
  - rewrite sendToPeers_spec, (getRoomPeers_spec _ _ _ _ Hpeer' Hrid' Hrid).
    rewrite Hmembers, others_set_add.
    unfold send. by rewrite bool_decide_eq_true_2.
  - rewrite Hmembers. apply elem_of_set_add. by left.
  - unfold getUserId. by rewrite Hpeers, lookup_insert_eq.
Qed.
End JoinRefusals.

Lemma handleJoin_refusals_witness :
  handleJoin sock1 "R" (issue "j1" "alice" "host") "secret" wssOpen 4600 rmRegistered
    = (rmRegistered, [Send "c1" (ErrorMessage "TOKEN_EXPIRED" "Token has expired")]) ∧
  handleJoin sock1 "R" (issue "j1" "alice" "host") "other" wssOpen 2000 rmRegistered
    = (rmRegistered, [Send "c1" (ErrorMessage "INVALID_TOKEN" "Invalid token")]) ∧
  handleJoin sock1 "R2" (issue "j1" "alice" "host") "secret" wssOpen 2000 rmRegistered
    = (rmRegistered,
       [Send "c1" (ErrorMessage "INVALID_TOKEN" "Token not valid for this room")]) ∧
  handleJoin sock1 "R" "x" "secret" wssOpen 2000 rmRegistered
    = (rmRegistered, [Send "c1" (ErrorMessage "INVALID_TOKEN" "Invalid token")]).
Proof.
  pose proof (λ roomId secs now,
    handleJoin_refusals sock1 roomId (TokenClaims.mk "j1" "T" "R" "alice" "host")
                        "secret" secs 1000 wssOpen now rmRegistered eq_refl) as Href.
  split_and!.
  - apply (proj1 (Href "R" 3600%Z 4600%Z)). by vm_compute.
  - apply (proj1 (proj2 (Href "R" 3600%Z 2000%Z))). by vm_compute.
  - apply (proj1 (proj2 (proj2 (Href "R2" 3600%Z 2000%Z)))); by vm_compute.
  - apply (proj2 (proj2 (proj2 (Href "R" 3600%Z 2000%Z)))). by vm_compute.
Defined.

Lemma handleJoin_needs_unadmitted_peer_witness :
  handleJoin sock1 "R" (issue "j1" "alice" "host") "secret" wssOpen 2000 rmAlice
    = (rmAlice, [Send "c1" (ErrorMessage "ALREADY_IN_ROOM" "Already in a room")]) ∧
  handleJoin sock2 "R" (issue "j2" "bob" "host") "secret" wssOpen 2000 rmAlice
    = (rmAlice, [Send "c2" (ErrorMessage "INTERNAL_ERROR" "Peer not found")]).
Proof.
  split.
  - refine (proj1 (handleJoin_needs_unadmitted_peer sock1 "R" _ "secret" wssOpen 2000
                     rmAlice (TokenPayload.mk "j1" "T" "R" "alice" "host" 1000 (Some 4600%Z))
                     _ _ _)
                  (Peer.mk "c1" (Some "R") (Some "alice") (Some "T")) _ _);
      by vm_compute.
  - refine (proj2 (handleJoin_needs_unadmitted_peer sock2 "R" _ "secret" wssOpen 2000
                     rmAlice (TokenPayload.mk "j2" "T" "R" "bob" "host" 1000 (Some 4600%Z))
                     _ _ _) _);
      by vm_compute.
Defined.

Lemma issued_grant_admits_witness :
  ∃ response rm',
    createToken demoConfig demoDb 1000 1000 "j2" "T" "R"
                (mkCreateTokenInput " bob " "participant" None) = inr response ∧
    handleJoin sock2 "R" (token response) "secret" wssOpen 2000
               (registerPeer "c2" rmAlice).1 =
      (rm',
       Send "c2" (JoinedMessage "R" "bob" ["alice"])
       :: [Send "c1" (PeerJoinedMessage "bob" true)]) ∧
    "c2" ∈ roomMembers "R" rm' ∧
    getUserId "c2" rm' = Some "bob".
Proof.
  refine (issued_grant_admits demoConfig demoDb 1000 1000 "j2" "T" "R"
            (mkCreateTokenInput " bob " "participant" None)
            (DbRoom.mk "R" "r" 2 "T" 0) 3600 sock2 wssOpen 2000
            (registerPeer "c2" rmAlice).1 (freshPeer "c2")
            _ _ _ _ _ _ _ _ _ _ _ _ _ _);
    try by vm_compute.
  - by apply (bool_decide_unpack _); vm_compute.
  - intros room Hroom. vm_compute in Hroom. injection Hroom as <-.
    split; [reflexivity|]. simpl. lia.
Defined.

(** ** The signaling endpoint: where a relayed frame goes, what the guard
    lets through, the heartbeat *)

Lemma elem_of_getRoomPeers id c rm :
  id ∈ getRoomPeers c rm →
  id ≠ c ∧
  ∃ peer r room,
    peers rm !! c = Some peer ∧ Peer.roomId peer = Some r ∧
    rooms rm !! r = Some room ∧ id ∈ Room.peers room.
Proof.
  unfold getRoomPeers.
  destruct (peers rm !! c) as [peer|] eqn:Hpeer; [|by intros ?%not_elem_of_nil].
  destruct (Peer.roomId peer) as [r|] eqn:Hrid; [|by intros ?%not_elem_of_nil].
  destruct (negb (truthy (Some r))); [by intros ?%not_elem_of_nil|].
  destruct (rooms rm !! r) as [room|] eqn:Hroom; [|by intros ?%not_elem_of_nil].
  intros [Hne Hin]%list_elem_of_filter. split; [done|]. by exists peer, r, room.
Qed.

Lemma elem_of_relay socket wss rm frame id message :
  Send id message ∈ relay socket wss rm frame →
  (id = ws_socketId socket ∧
   message = ErrorMessage "NOT_IN_ROOM" "Must join a room first") ∨
  (id ∈ getRoomPeers (ws_socketId socket) rm ∧ ∃ u, message = frame u).
Proof.
  unfold relay. destruct (joinedUserId socket rm) as [u|].
  - rewrite sendToPeers_spec. intros (id' & [= <- ->] & Hin)%list_elem_of_fmap.
    right. split; [|by exists u].
    unfold openPeers in Hin. by apply list_elem_of_filter in Hin as [_ Hin].
  - unfold sendError, send. case_bool_decide.
    + intros [= -> ->]%list_elem_of_singleton. by left.
    + by intros ?%not_elem_of_nil.
Qed.

(** X14.  A relayed frame stays in the room: in a registry that satisfies
    the invariants and keeps tenants apart, every frame that [handleOffer],
    [handleAnswer] or [handleIce] sends goes either back to the sender, and
    is then the NOT_IN_ROOM error, or to another connection whose peer
    record names the same room and the same tenant as the sender's. *)
Theorem relay_stays_in_room socket payload wss rm id message :
  inv rm → sameTenant rm →
  Send id message ∈ handleOffer socket payload wss rm
                    ++ handleAnswer socket payload wss rm
                    ++ handleIce socket payload wss rm →
  (id = ws_socketId socket ∧
   message = ErrorMessage "NOT_IN_ROOM" "Must join a room first") ∨
  (id ≠ ws_socketId socket ∧
   ∃ sender recipient r,
     getPeer (ws_socketId socket) rm = Some sender ∧
     getPeer id rm = Some recipient ∧
     Peer.roomId sender = Some r ∧ Peer.roomId recipient = Some r ∧
     Peer.appId recipient = Peer.appId sender).
Proof.
  intros Hinv Hten Hin.
  assert (∃ frame, Send id message ∈ relay socket wss rm frame) as [frame Hrelay].
  { unfold handleOffer, handleAnswer, handleIce in Hin.
    apply elem_of_app in Hin as [Hin|Hin%elem_of_app]; [eauto|]. destruct Hin; eauto. }
  apply elem_of_relay in Hrelay as [?|[Hpeers _]]; [by left|]. right.
  apply elem_of_getRoomPeers in Hpeers
    as (Hne & sender & r & room & Hsender & Hrid & Hroom & Hmember).
  split; [done|].
  destruct (inv_reverse _ Hinv _ _ _ Hroom Hmember) as (recipient & Hrec & Hrecr).
  destruct (inv_forward _ Hinv _ _ _ Hsender Hrid) as (room' & Hroom' & Hsin).
  rewrite Hroom in Hroom'. injection Hroom' as <-.
  exists sender, recipient, r. unfold getPeer. split_and!; try done.
  rewrite (Hten _ _ _ _ Hroom Hmember Hrec).
  by rewrite (Hten _ _ _ _ Hroom Hsin Hsender).
Qed.

Lemma relay_stays_in_room_witness :
  (∃ sender recipient r,
     getPeer "c1" rmAliceBob = Some sender ∧
     getPeer "c2" rmAliceBob = Some recipient ∧
     Peer.roomId sender = Some r ∧ Peer.roomId recipient = Some r ∧
     Peer.appId recipient = Peer.appId sender).
Proof.
  destruct (relay_stays_in_room sock1 sdpX wssOpen rmAliceBob "c2"
              (RelayedOfferMessage sdpX "alice")) as [[Heq _]|[_ Hsame]].
  - apply invb_sound. by vm_compute.
  - apply sameTenantb_sound. by vm_compute.
  - apply elem_of_app. left.
    assert (handleOffer sock1 sdpX wssOpen rmAliceBob
            = [Send "c2" (RelayedOfferMessage sdpX "alice")]) as -> by reflexivity.
    apply list_elem_of_here.
  - discriminate.
  - exact Hsame.
Defined.

(** X15.  What the type guard lets through: a frame that
    [isValidIncomingMessage] accepts is a JSON object, one of the five
    cases of the [switch] of [handleMessage] applies to it, a join frame
    has its room id and token as strings, and the payload of an offer,
    answer or ice frame is an object or an array, never [null], a string, a
    number or a boolean. *)
Theorem guard_lets_dispatchable_frames_through json :
  isValidIncomingMessage json = true →
  (∃ props, json = JObj props) ∧
  ∃ message,
    asIncomingMessage json = Some message ∧
    match message with
    | JoinMessage roomId token =>
      prop "roomId" json = Some (JStr roomId) ∧ prop "token" json = Some (JStr token)
    | OfferMessage payload | AnswerMessage payload | IceCandidateMessage payload =>
      (∃ props, payload = JObj props) ∨ (∃ items, payload = JArr items)
    | LeaveMessage => True
    end.
Proof.
  assert (∀ v, isObject v = true →
               ∃ payload, v = Some payload ∧
                 ((∃ props, payload = JObj props) ∨ (∃ items, payload = JArr items)))
    as Hobj.
  { intros [[| | | | |]|]; simpl; try done; eauto. }
  unfold isValidIncomingMessage, asIncomingMessage.
  destruct json as [| | | |items|props]; try done. intros Hvalid.
  split; [eauto|]. revert Hvalid.
  destruct (prop "type" (JObj props)) as [[| | |type| |]|]; try done.
  destruct (bool_decide (type = "join")) eqn:Hjoin.
  { intros [H1 H2]%andb_true_iff.
    destruct (prop "roomId" (JObj props)) as [[| | |roomId| |]|]; try done.
    destruct (prop "token" (JObj props)) as [[| | |token| |]|]; try done.
    by eexists. }
  destruct (bool_decide (type = "offer")) eqn:Hoffer; simpl.
  { intros (payload & -> & Hp)%Hobj. simpl. by eexists. }
  destruct (bool_decide (type = "answer")) eqn:Hanswer; simpl.
  { intros (payload & -> & Hp)%Hobj. simpl. by eexists. }
  destruct (bool_decide (type = "ice")) eqn:Hice.
  { intros (payload & -> & Hp)%Hobj. simpl. by eexists. }
  destruct (bool_decide (type = "leave")); [by eexists|done].
Qed.

Lemma guard_lets_dispatchable_frames_through_witness :
  ∃ message,
    asIncomingMessage (offerFrame sdpX) = Some message ∧
    match message with
    | JoinMessage roomId token =>
      prop "roomId" (offerFrame sdpX) = Some (JStr roomId) ∧
      prop "token" (offerFrame sdpX) = Some (JStr token)
    | OfferMessage payload | AnswerMessage payload | IceCandidateMessage payload =>
      (∃ props, payload = JObj props) ∨ (∃ items, payload = JArr items)
    | LeaveMessage => True
    end.
Proof.
  apply (proj2 (guard_lets_dispatchable_frames_through (offerFrame sdpX) eq_refl)).
Defined.

(** X16.  The heartbeat reaps a socket that does not answer.  On the
    sockets of a server, none of which is CONNECTING, a tick pings every
    socket whose flag is set and clears the flag, leaving its ready
    state; it terminates every socket whose flag is clear, which is
    closing from then on unless it was closed already; no socket is
    CONNECTING afterwards.  After a tick every
    flag is clear and the socket ids are as before, so at the next tick
    every socket that is still a client and has not answered is
    terminated, and is closing or closed; a socket that answered the ping
    with a pong is pinged again and not terminated.  A socket leaves the
    clients with its ['close'] event, and no later tick touches it. *)
Theorem heartbeat_reaps_silent_sockets wss :
  serverSockets wss →
  serverSockets (heartbeat wss).1 ∧
  Forall (λ socket, isAlive socket = false) (clients (heartbeat wss).1) ∧
  List.map ws_socketId (clients (heartbeat wss).1)
    = List.map ws_socketId (clients wss) ∧
  (∀ socket, socket ∈ clients wss → isAlive socket = true →
     Ping (ws_socketId socket) ∈ (heartbeat wss).2 ∧
     mkSocket (ws_socketId socket) (readyState socket) false
       ∈ clients (heartbeat wss).1) ∧
  (∀ socket, socket ∈ clients wss → isAlive socket = false →
     Terminate (ws_socketId socket) ∈ (heartbeat wss).2 ∧
     terminate socket ∈ clients (heartbeat wss).1 ∧
     (readyState socket ≠ CLOSED → readyState (terminate socket) = CLOSING)) ∧
  (∀ wss',
     (∀ socket, socket ∈ clients wss' → socket ∈ clients (heartbeat wss).1) →
     (heartbeat wss').2
       = List.map (λ socket, Terminate (ws_socketId socket)) (clients wss') ∧
     Forall (λ socket, readyState socket = CLOSING ∨ readyState socket = CLOSED)
            (clients (heartbeat wss').1)) ∧
  (∀ socket, socket ∈ clients wss → isAlive socket = true →
     Ping (ws_socketId socket)
       ∈ (heartbeat (handlePong (ws_socketId socket) (heartbeat wss).1)).2 ∧
     Terminate (ws_socketId socket)
       ∉ (heartbeat (handlePong (ws_socketId socket) (heartbeat wss).1)).2) ∧
  (∀ socket rm,
     (ws_socketId socket
        ∉ List.map ws_socketId (clients (handleClose socket wss rm).1)) ∧
     (Ping (ws_socketId socket) ∉ (heartbeat (handleClose socket wss rm).1).2) ∧
     Terminate (ws_socketId socket) ∉ (heartbeat (handleClose socket wss rm).1).2).
Proof.
  assert (∀ cs, Forall (λ socket, isAlive socket = false)
                       (clients (heartbeat (mkWss cs)).1)) as Hclear.
  { intros cs. apply Forall_forall. simpl.
    intros s (s0 & -> & _)%list_elem_of_fmap.
    destruct (isAlive s0) eqn:Halive; [done|].
    unfold terminate. by case_bool_decide. }
  destruct wss as [cs]. intros Hserver. split_and!.
  - apply Forall_forall. simpl. intros s (s0 & -> & Hs0)%list_elem_of_fmap.
    apply (proj1 (Forall_forall _ _) Hserver) in Hs0.
    destruct (isAlive s0); [done|]. unfold terminate. by case_bool_decide.
  - apply Hclear.
  - simpl. rewrite List.map_map. apply List.map_ext. intros s.
    destruct (isAlive s); [done|]. unfold terminate. by case_bool_decide.
  - intros socket Hin Halive. simpl in *. split.
    + apply list_elem_of_fmap. exists socket. by rewrite Halive.
    + apply list_elem_of_fmap. exists socket. by rewrite Halive.
  - intros socket Hin Halive. simpl in *. split_and!.
    + apply list_elem_of_fmap. exists socket. by rewrite Halive.
    + apply list_elem_of_fmap. exists socket. by rewrite Halive.
    + intros Hstate. unfold terminate. by rewrite bool_decide_eq_false_2.
  - intros [cs'] Hsub. simpl in Hsub.
    assert (∀ s, s ∈ cs' → isAlive s = false) as Hdead.
    { intros s Hs. apply Hsub in Hs.
      by apply (proj1 (Forall_forall _ _) (Hclear cs)) in Hs. }
    simpl. split.
    + apply List.map_ext_in. intros s Hs%list_elem_of_In. simpl.
      by rewrite (Hdead s).
    + apply Forall_forall. intros s (s0 & -> & Hs0)%list_elem_of_fmap.
      rewrite (Hdead s0) by done. unfold terminate.
      case_bool_decide; simpl; auto.
  - intros socket Hin Halive. unfold heartbeat, handlePong. simpl.
    rewrite !List.map_map. split.
    + apply list_elem_of_fmap. exists socket. split; [|done].
      rewrite Halive. simpl. by rewrite bool_decide_eq_true_2.
    + intros (s & Heq & _)%list_elem_of_fmap. revert Heq. cbv beta.
      set (s' := if isAlive s
                 then mkSocket (ws_socketId s) (readyState s) false
                 else terminate s).
      assert (ws_socketId s' = ws_socketId s ∧ isAlive s' = false) as [Hid Hfalse].
      { subst s'. destruct (isAlive s) eqn:Hs; simpl; [done|].
        unfold terminate. by case_bool_decide. }
      destruct (bool_decide (ws_socketId s' = ws_socketId socket)) eqn:Hb;
        simpl; [done|].
      rewrite Hfalse. intros [= Heq]. apply bool_decide_eq_false in Hb. congruence.
  - intros socket rm. unfold handleClose. simpl.
    assert (∀ s, s ∈ filter (λ client, ws_socketId client ≠ ws_socketId socket) cs →
                 ws_socketId s ≠ ws_socketId socket) as Hgone.
    { by intros s [? _]%list_elem_of_filter. }
    split_and!.
    + intros (s & Heq & Hs)%list_elem_of_fmap. by apply Hgone in Hs.
    + intros (s & Heq & Hs)%list_elem_of_fmap. apply Hgone in Hs.
      destruct (isAlive s); simplify_eq.
    + intros (s & Heq & Hs)%list_elem_of_fmap. apply Hgone in Hs.
      destruct (isAlive s); simplify_eq.
Qed.

Lemma heartbeat_reaps_silent_sockets_witness :
  Ping "c1" ∈ (heartbeat (handlePong "c1" (heartbeat wssOpen).1)).2 ∧
  (heartbeat (heartbeat wssOpen).1).2 = [Terminate "c1"; Terminate "c2"; Terminate "c3"] ∧
  readyState (terminate (mkSocket "c2" OPEN false)) = CLOSING.
Proof.
  destruct (heartbeat_reaps_silent_sockets wssOpen)
    as (_ & _ & _ & _ & _ & Hnext & Hpong & _).
  { by repeat constructor. }
  destruct (heartbeat_reaps_silent_sockets (mkWss [mkSocket "c2" OPEN false]))
    as (_ & _ & _ & _ & Hdead & _).
  { by repeat constructor. }
  split_and!.
  - apply (Hpong sock1); [apply list_elem_of_here|reflexivity].
  - apply (Hnext (heartbeat wssOpen).1). auto.
  - apply (Hdead (mkSocket "c2" OPEN false)); [apply list_elem_of_here|done|done].
Defined.

(** ** The grant issuer: time to live, trimming, refusals *)

Lemma lastChar_empty s : lastChar s = None → s = EmptyString.
Proof. destruct s as [|c rest]; [done|]. simpl. by destruct (lastChar rest). Qed.

Lemma trimStart_first s c :
  firstChar (trimStart s) = Some c → isWhiteSpace c = false.
Proof.
  induction s as [|d rest IH]; simpl; [done|].
  destruct (isWhiteSpace d) eqn:Hd; [done|]. simpl. by intros [= <-].
Qed.

Lemma trimEnd_first s c :
  firstChar (trimEnd s) = Some c → firstChar s = Some c.
Proof.
  destruct s as [|d rest]; simpl; [done|].
  by destruct (isWhiteSpace d && bool_decide (trimEnd rest = EmptyString)).
Qed.

Lemma trimEnd_last s c :
  lastChar (trimEnd s) = Some c → isWhiteSpace c = false.
Proof.
  induction s as [|d rest IH]; simpl; [done|].
  destruct (isWhiteSpace d) eqn:Hd; simpl.
  - case_bool_decide as Hrest; [done|]. simpl.
    destruct (lastChar (trimEnd rest)) as [e|] eqn:Hlast; [intros [= <-]; auto|].
    by apply lastChar_empty in Hlast.
  - destruct (lastChar (trimEnd rest)) as [e|] eqn:Hlast; intros [= <-]; auto.
Qed.

Lemma trimStart_id s :
  (∀ c, firstChar s = Some c → isWhiteSpace c = false) → trimStart s = s.
Proof. destruct s as [|d rest]; simpl; [done|]. intros Hc. by rewrite (Hc d). Qed.

Lemma trimEnd_id s :
  (∀ c, lastChar s = Some c → isWhiteSpace c = false) → trimEnd s = s.
Proof.
  induction s as [|d rest IH]; simpl; [done|]. intros Hc.
  destruct (lastChar rest) as [e|] eqn:Hlast.
  - rewrite IH by done. destruct rest; [done|].
    rewrite (bool_decide_eq_false_2 (_ = EmptyString)) by done.
    by rewrite andb_false_r.
  - apply lastChar_empty in Hlast as ->. simpl. by rewrite (Hc d).
Qed.

Lemma trim_is_trimmed s : trimmed (trim s) ∧ (trimmed s → trim s = s).
Proof.
  split.
  - split.
    + intros c Hc. apply trimEnd_first in Hc. by apply (trimStart_first s).
    + intros c. apply trimEnd_last.
  - intros [Hfirst Hlast]. unfold trim. rewrite trimStart_id by done.
    by apply trimEnd_id.
Qed.

(** X17.  [trim] yields a string without white space at either end and is
    idempotent; it leaves a string that has none at its ends as it is.  So
    the user id that [createToken] signs never begins or ends with white
    space. *)
Theorem trim_trimmed s :
  trimmed (trim s) ∧
  trim (trim s) = trim s ∧
  (trimmed s → trim s = s) ∧
  ∀ jti appId roomId role expiresIn,
    trimmed (TokenClaims.userId
               (issuedClaims jti appId roomId (mkCreateTokenInput s role expiresIn))).
Proof.
  assert (∀ t, trimmed (trim t)) as Htrimmed by (intros t; apply trim_is_trimmed).
  assert (∀ t, trimmed t → trim t = t) as Hid by (intros t; apply trim_is_trimmed).
  split_and!; [done|by apply Hid|apply Hid|intros; apply Htrimmed].
Qed.

Lemma trim_trimmed_witness : trim "alice" = "alice".
Proof.
  destruct (trim_trimmed "alice") as (_ & _ & Hid & _). apply Hid.
  split; intros c Hc; vm_compute in Hc; by simplify_eq.
Defined.

(** X18.  [parseExpiresIn] accepts exactly the strings made of one or more
    decimal digits followed by one of s, m, h, d, and returns the number
    they denote times 1, 60, 3600 or 86400 (as long as that is a safe
    integer, which is where the numbers of the source are exact); the
    result is never negative.  Every other string is refused with the
    format error; the "Invalid time unit" error is never raised. *)
Theorem parseExpiresIn_spec :
  (∀ ds unit,
     ds ≠ [] → Forall (λ d, d < 10) ds → unit ∈ ["s"; "m"; "h"; "d"]%char →
     (decimalValue 0 ds * unitSeconds unit ≤ MAX_SAFE_INTEGER)%Z →
     parseExpiresIn (digitString ds +:+ String unit EmptyString) =
       inr (decimalValue 0 ds * unitSeconds unit)%Z) ∧
  (∀ s seconds,
     parseExpiresIn s = inr seconds →
     (0 ≤ seconds)%Z ∧
     ∃ ds unit,
       ds ≠ [] ∧ Forall (λ d, d < 10) ds ∧ unit ∈ ["s"; "m"; "h"; "d"]%char ∧
       s = digitString ds +:+ String unit EmptyString) ∧
  (∀ s e, parseExpiresIn s = inl e → e = ValidationError invalidExpiresInMessage).
Proof.
  split_and!.
  - intros ds unit Hne Hds Hunit _. by apply parseExpiresIn_accepts.
  - intros s seconds Hparse.
    apply parseExpiresIn_inv in Hparse as (Hpos & ds & unit & ? & ? & ? & ? & _).
    split; [done|]. by exists ds, unit.
  - apply parseExpiresIn_error.
Qed.

Lemma parseExpiresIn_spec_witness :
  parseExpiresIn "90m" = inr 5400%Z ∧
  (∃ ds unit, "7d" = digitString ds +:+ String unit EmptyString) ∧
  parseExpiresIn "1 h" = inl (ValidationError invalidExpiresInMessage).
Proof.
  destruct parseExpiresIn_spec as (Hparse & Hinv & Herr). split_and!.
  - apply (Hparse [9; 0] "m"%char); [done| | |].
    + repeat constructor.
    + by apply (bool_decide_unpack _); vm_compute.
    + by vm_compute.
  - destruct (Hinv "7d" 604800%Z eq_refl) as (_ & ds & unit & _ & _ & _ & Hs).
    eauto.
  - destruct (parseExpiresIn "1 h") as [e|seconds] eqn:Hparsed.
    + by rewrite (Herr _ _ Hparsed).
    + vm_compute in Hparsed. discriminate.
Defined.

Section TokenServiceProperties.
Context `{JwtLib}.
Variable config : Config.

(** The four input checks of [createToken], one case each. *)
Ltac createToken_checks Happ Hroom Huser Htrim Hrole Hvalid :=
  unfold createToken, truthy_str, RoomService.getRoomInternal;
  match goal with
  | |- context [bool_decide (?appId = EmptyString)] =>
    destruct (bool_decide (appId = EmptyString)) eqn:Happ; simpl; [done|]
  end;
  match goal with
  | |- context [negb (bool_decide (?roomId = EmptyString))] =>
    destruct (bool_decide (roomId = EmptyString)) eqn:Hroom; simpl; [done|]
  end;
  match goal with
  | |- context [input_userId ?input] =>
    destruct (bool_decide (input_userId input = EmptyString)) eqn:Huser;
      simpl; [done|];
    destruct (bool_decide (String.length (trim (input_userId input)) = 0))
      eqn:Htrim; simpl; [done|];
    destruct (bool_decide (input_role input = EmptyString)) eqn:Hrole;
      simpl; [done|];
    destruct (bool_decide (input_role input ∈ VALID_ROLES)) eqn:Hvalid;
      simpl; [|done]
  end;
  apply bool_decide_eq_false in Happ, Hroom, Htrim;
  apply bool_decide_eq_true in Hvalid;
  rewrite length_zero_empty in Htrim.

Lemma createToken_inv db now signTime jti appId roomId input response :
  createToken config db now signTime jti appId roomId input = inr response →
  appId ≠ EmptyString ∧ roomId ≠ EmptyString ∧
  trim (input_userId input) ≠ EmptyString ∧
  input_role input ∈ VALID_ROLES ∧
  ∃ room seconds,
    db !! roomId = Some room ∧ DbRoom.appId room = appId ∧
    parseExpiresIn (expiresInOrDefault config input) = inr seconds ∧
    (0 ≤ seconds)%Z ∧
    response =
      mkCreateTokenResponse
        (jwt_sign (issuedClaims jti appId roomId input) (jwt_secret config)
                  seconds signTime)
        (now + seconds).
Proof.
  createToken_checks Happ Hroom Huser Htrim Hrole Hvalid.
  destruct (db !! roomId) as [room|] eqn:Hdb; [|done].
  destruct (bool_decide (DbRoom.appId room ≠ appId)) eqn:Howner; [done|].
  apply bool_decide_eq_false in Howner. apply dec_stable in Howner.
  destruct (parseExpiresIn (expiresInOrDefault config input))
    as [e|seconds] eqn:Hparse; [done|].
  destruct (bool_decide (MAX_SAFE_INTEGER < seconds)%Z); [done|].
  destruct (validTimeValue ((now + seconds) * 1000)); simpl; [|done].
  intros [= <-]. split_and!; try done. exists room, seconds.
  split_and!; try done. by apply parseExpiresIn_nonneg in Hparse.
Qed.

(** X19.  [createToken] issues a token only when every check held: app id,
    room id and trimmed user id non-empty, the role one of the three, the
    room in the table and owned by the calling app, and the time to live
    well formed; the response then carries the signature over exactly
    [issuedClaims] and expires [seconds] after [now].  It answers
    NotFoundError only when the table has no such room, and ForbiddenError
    only when the room is owned by another app. *)
Theorem createToken_sound db now signTime jti appId roomId input :
  (∀ response,
     createToken config db now signTime jti appId roomId input = inr response →
     appId ≠ EmptyString ∧ roomId ≠ EmptyString ∧
     trim (input_userId input) ≠ EmptyString ∧
     input_role input ∈ VALID_ROLES ∧
     ∃ room seconds,
       db !! roomId = Some room ∧ DbRoom.appId room = appId ∧
       parseExpiresIn (expiresInOrDefault config input) = inr seconds ∧
       (0 ≤ seconds)%Z ∧
       response =
         mkCreateTokenResponse
           (jwt_sign (issuedClaims jti appId roomId input) (jwt_secret config)
                     seconds signTime)
           (now + seconds)) ∧
  (∀ resource id,
     createToken config db now signTime jti appId roomId input
       = inl (AppErr (NotFoundError resource id)) →
     db !! roomId = None ∧ resource = "Room" ∧ id = roomId) ∧
  (∀ message,
     createToken config db now signTime jti appId roomId input
       = inl (AppErr (ForbiddenError message)) →
     ∃ room, db !! roomId = Some room ∧ DbRoom.appId room ≠ appId).
Proof.
  split; [intros response; apply createToken_inv|].
  createToken_checks Happ Hroom Huser Htrim Hrole Hvalid.
  destruct (db !! roomId) as [room|] eqn:Hdb.
  - destruct (bool_decide (DbRoom.appId room ≠ appId)) eqn:Howner.
    + apply bool_decide_eq_true in Howner.
      split; [done|]. intros message _. by exists room.
    + destruct (parseExpiresIn (expiresInOrDefault config input))
        as [e|seconds] eqn:Hparse.
      * apply parseExpiresIn_error in Hparse as ->. done.
      * destruct (bool_decide (MAX_SAFE_INTEGER < seconds)%Z); [done|].
        by destruct (validTimeValue ((now + seconds) * 1000)).
  - split; [|done]. by intros resource id [= <- <-].
Qed.

(** X20.  [verifyToken] returns claims only for a token that decodes to a
    payload signed under the configured secret and whose [exp], when it
    has one, is after the clock, and then returns the five claim fields
    of that payload; a signed token without [exp] is accepted at any time.
    A token of [jwt.sign] with a lifetime, read at or after its [exp] (the
    boundary included), is refused with "Token has expired"; a token that
    does not decode, or whose signature is not the one under the
    configured secret, is refused with "Invalid token", also when it has
    expired.  Both refusals are validation errors (status 400). *)
Theorem verifyToken_sound token now :
  (∀ claims,
     verifyToken config token now = inr claims →
     ∃ payload,
       jwtDecode token = Some (payload, hmacSha256 (jwt_secret config) payload) ∧
       (∀ exp, TokenPayload.exp payload = Some exp → (now < exp)%Z) ∧
       claims = TokenClaims.mk
                  (TokenPayload.jti payload) (TokenPayload.appId payload)
                  (TokenPayload.roomId payload) (TokenPayload.userId payload)
                  (TokenPayload.role payload)) ∧
  (∀ payload,
     jwtDecode token = Some (payload, hmacSha256 (jwt_secret config) payload) →
     TokenPayload.exp payload = None →
     verifyToken config token now =
       inr (TokenClaims.mk
              (TokenPayload.jti payload) (TokenPayload.appId payload)
              (TokenPayload.roomId payload) (TokenPayload.userId payload)
              (TokenPayload.role payload))) ∧
  (∀ claims seconds signTime,
     token = jwt_sign claims (jwt_secret config) seconds signTime →
     (signTime + seconds ≤ now)%Z →
     verifyToken config token now = inl (ValidationError "Token has expired")) ∧
  (jwtDecode token = None →
   verifyToken config token now = inl (ValidationError "Invalid token")) ∧
  (∀ payload signature,
     jwtDecode token = Some (payload, signature) →
     signature ≠ hmacSha256 (jwt_secret config) payload →
     verifyToken config token now = inl (ValidationError "Invalid token")) ∧
  (∀ e, verifyToken config token now = inl e → statusCode e = 400%Z).
Proof.
  unfold verifyToken, jwt_verify. split_and!.
  - intros claims.
    destruct (jwtDecode token) as [[payload signature]|] eqn:Hdecode; [|done].
    case_bool_decide as Hsig; [done|]. subst signature.
    destruct (TokenPayload.exp payload) as [exp|] eqn:Hexp.
    + case_bool_decide as Hclock; [done|]. intros [= <-].
      exists payload. split_and!; [done| |done]. intros exp' ?. simplify_eq. lia.
    + intros [= <-]. exists payload. split_and!; [done| |done]. congruence.
  - intros payload -> ->.
    by rewrite bool_decide_eq_false_2 by (by intros []).
  - intros claims seconds signTime -> Hexp. unfold jwt_sign.
    rewrite jwtDecode_encode.
    rewrite bool_decide_eq_false_2 by (by intros []). simpl.
    by rewrite bool_decide_eq_true_2.
  - by intros ->.
  - intros payload signature -> Hsig. by rewrite bool_decide_eq_true_2.
  - intros e.
    destruct (jwtDecode token) as [[payload signature]|]; [|by intros [= <-]].
    case_bool_decide; [by intros [= <-]|].
    destruct (TokenPayload.exp payload) as [exp|]; [|done].
    case_bool_decide; by intros [= <-].
Qed.
End TokenServiceProperties.

Lemma createToken_sound_witness :
  ∃ room seconds,
    demoDb !! "R" = Some room ∧ DbRoom.appId room = "T" ∧
    parseExpiresIn (expiresInOrDefault demoConfig (mkCreateTokenInput "alice" "host" None))
      = inr seconds ∧ (0 ≤ seconds)%Z.
Proof.
  destruct (createToken_sound demoConfig demoDb 1000 1000 "j1" "T" "R"
              (mkCreateTokenInput "alice" "host" None)) as (Hok & _ & _).
  destruct (Hok (mkCreateTokenResponse
                   (jwt_sign (issuedClaims "j1" "T" "R"
                                (mkCreateTokenInput "alice" "host" None))
                             "secret" 3600 1000) 4600) eq_refl)
    as (_ & _ & _ & _ & room & seconds & ? & ? & ? & ? & _).
  by exists room, seconds.
Defined.

Lemma verifyToken_sound_witness :
  verifyToken demoConfig (issue "j1" "alice" "host") 4600
    = inl (ValidationError "Token has expired") ∧
  verifyToken demoConfig
              (jwtEncode (TokenPayload.mk "j1" "T" "R" "alice" "host" 1000 None)
                 (hmacSha256 "secret"
                    (TokenPayload.mk "j1" "T" "R" "alice" "host" 1000 None)))
              1000000000
    = inr (TokenClaims.mk "j1" "T" "R" "alice" "host").
Proof.
  split.
  - destruct (verifyToken_sound demoConfig (issue "j1" "alice" "host") 4600)
      as (_ & _ & Hexpired & _).
    apply (Hexpired (TokenClaims.mk "j1" "T" "R" "alice" "host") 3600%Z 1000%Z).
    + reflexivity.
    + lia.
  - destruct (verifyToken_sound demoConfig
                (jwtEncode (TokenPayload.mk "j1" "T" "R" "alice" "host" 1000 None)
                   (hmacSha256 "secret"
                      (TokenPayload.mk "j1" "T" "R" "alice" "host" 1000 None)))
                1000000000)
      as (_ & Hforever & _).
    apply (Hforever (TokenPayload.mk "j1" "T" "R" "alice" "host" 1000 None)).
    + apply jwtDecode_encode.
    + reflexivity.
Defined.

(** ** The room service *)

Lemma createRoom_inv newId createdAt appId input db db' room :
  RoomService.createRoom newId createdAt appId input db = inr (db', room) →
  appId ≠ EmptyString ∧
  trim (RoomService.name input) ≠ EmptyString ∧
  (1 ≤ default 2 (RoomService.maxParticipants input) ≤ 1000)%Z ∧
  room = DbRoom.mk newId (trim (RoomService.name input))
                   (default 2%Z (RoomService.maxParticipants input)) appId createdAt ∧
  db' = <[newId := room]> db.
Proof.
  unfold RoomService.createRoom, truthy_str,
    RoomService.DEFAULT_MAX_PARTICIPANTS, RoomService.MAX_PARTICIPANTS_LIMIT.
  destruct (bool_decide (RoomService.name input = EmptyString)); simpl; [done|].
  destruct (bool_decide (trim (RoomService.name input) = EmptyString)) eqn:Hname;
    simpl; [done|].
  destruct (bool_decide (appId = EmptyString)) eqn:Happ; simpl; [done|].
  destruct (bool_decide (default 2 (RoomService.maxParticipants input) < 1)%Z)
    eqn:Hlow; simpl; [done|].
  destruct (bool_decide (default 2 (RoomService.maxParticipants input) > 1000)%Z)
    eqn:Hhigh; simpl; [done|].
  apply bool_decide_eq_false in Hname, Happ, Hlow, Hhigh.
  intros [= <- <-]. split_and!; try done; lia.
Qed.

Lemma getRoomById_owner appId roomId db room :
  db !! roomId = Some room → DbRoom.appId room = appId →
  getRoomById appId roomId db = inr room ∧
  roomExistsForApp appId roomId db = true ∧
  deleteRoom appId roomId db = inr (delete roomId db).
Proof.
  intros Hdb Howner. unfold getRoomById, roomExistsForApp, deleteRoom.
  rewrite Hdb.
  rewrite (bool_decide_eq_true_2 (DbRoom.appId room = appId)) by done.
  by rewrite (bool_decide_eq_false_2 (DbRoom.appId room ≠ appId))
    by (intros Hne; by apply Hne).
Qed.

Lemma getRoomById_stranger appId roomId db room :
  db !! roomId = Some room → DbRoom.appId room ≠ appId →
  getRoomById appId roomId db = inl (ForbiddenError "Room does not belong to this app") ∧
  roomExistsForApp appId roomId db = false ∧
  deleteRoom appId roomId db = inl (ForbiddenError "Room does not belong to this app").
Proof.
  intros Hdb Howner. unfold getRoomById, roomExistsForApp, deleteRoom.
  rewrite Hdb.
  rewrite (bool_decide_eq_false_2 (DbRoom.appId room = appId)) by done.
  by rewrite (bool_decide_eq_true_2 (DbRoom.appId room ≠ appId)) by done.
Qed.

Lemma getRoomById_missing appId roomId db :
  db !! roomId = None →
  getRoomById appId roomId db = inl (NotFoundError "Room" roomId) ∧
  roomExistsForApp appId roomId db = false ∧
  deleteRoom appId roomId db = inl (NotFoundError "Room" roomId).
Proof.
  intros Hdb. unfold getRoomById, roomExistsForApp, deleteRoom. by rewrite Hdb.
Qed.

(** X21.  A room that [createRoom] stores belongs to its creator alone.
    When [createRoom] succeeds for app [appId] under the fresh id [newId]:
    the stored row has a non-empty name without white space at its ends
    and a capacity between 1 and 1000 (2 when none was asked for);
    [getRoomById], [roomExistsForApp] and [deleteRoom] of [appId] find it,
    and deleting it gives back the table as it was; for every other app
    [getRoomById] and [deleteRoom] answer ForbiddenError and
    [roomExistsForApp] answers false; the rows under other ids read as
    before. *)
Theorem created_room_belongs_to_creator newId createdAt appId input db db' room :
  db !! newId = None →
  RoomService.createRoom newId createdAt appId input db = inr (db', room) →
  (DbRoom.name room ≠ EmptyString ∧ trimmed (DbRoom.name room) ∧
   (1 ≤ DbRoom.maxParticipants room ≤ 1000)%Z ∧
   (RoomService.maxParticipants input = None → DbRoom.maxParticipants room = 2%Z)) ∧
  (getRoomById appId newId db' = inr room ∧
   roomExistsForApp appId newId db' = true ∧
   deleteRoom appId newId db' = inr db) ∧
  (∀ other, other ≠ appId →
     getRoomById other newId db'
       = inl (ForbiddenError "Room does not belong to this app") ∧
     roomExistsForApp other newId db' = false ∧
     deleteRoom other newId db'
       = inl (ForbiddenError "Room does not belong to this app")) ∧
  (∀ app roomId, roomId ≠ newId →
     getRoomById app roomId db' = getRoomById app roomId db ∧
     roomExistsForApp app roomId db' = roomExistsForApp app roomId db).
Proof.
  intros Hfresh Hcreate.
  apply createRoom_inv in Hcreate as (Happ & Hname & Hcap & -> & ->).
  set (room := DbRoom.mk _ _ _ _ _).
  assert (<[newId := room]> db !! newId = Some room) as Hrow
    by apply lookup_insert_eq.
  split; [|split; [|split]].
  - split; [done|]. split; [apply (proj1 (trim_is_trimmed _))|].
    split; [simpl; lia|]. intros Hnone. subst room. simpl. by rewrite Hnone.
  - destruct (getRoomById_owner appId newId _ room Hrow eq_refl) as (-> & -> & ->).
    by rewrite delete_insert_id.
  - intros other Hother. apply getRoomById_stranger with room; [done|].
    simpl. congruence.
  - intros app roomId Hne. unfold getRoomById, roomExistsForApp.
    by rewrite lookup_insert_ne.
Qed.

Lemma created_room_belongs_to_creator_witness :
  getRoomById "T2" "R2"
    (<["R2" := DbRoom.mk "R2" "standup" 2 "T2" 5]> demoDb)
    = inr (DbRoom.mk "R2" "standup" 2 "T2" 5) ∧
  getRoomById "T" "R2"
    (<["R2" := DbRoom.mk "R2" "standup" 2 "T2" 5]> demoDb)
    = inl (ForbiddenError "Room does not belong to this app").
Proof.
  destruct (created_room_belongs_to_creator "R2" 5 "T2"
              (RoomService.mkCreateRoomInput " standup " None) demoDb
              (<["R2" := DbRoom.mk "R2" "standup" 2 "T2" 5]> demoDb)
              (DbRoom.mk "R2" "standup" 2 "T2" 5))
    as (_ & (Hget & _) & Hother & _).
  - reflexivity.
  - reflexivity.
  - split; [exact Hget|]. by apply Hother.
Defined.

(** X22.  The three app-scoped reads of a room agree: [roomExistsForApp]
    answers true exactly when [getRoomById] returns a room, and exactly
    when [deleteRoom] goes through; the room returned is the row that
    [getRoomInternal] reads and is owned by the caller; and when they
    refuse, [getRoomById] and [deleteRoom] refuse with the same error,
    NotFoundError (404) when there is no such row and ForbiddenError (403)
    when the row is owned by another app. *)
Theorem room_reads_agree appId roomId db :
  (roomExistsForApp appId roomId db = true ↔
   ∃ room, getRoomById appId roomId db = inr room) ∧
  (roomExistsForApp appId roomId db = true ↔
   ∃ db', deleteRoom appId roomId db = inr db') ∧
  (∀ room, getRoomById appId roomId db = inr room →
     RoomService.getRoomInternal roomId db = Some room ∧ DbRoom.appId room = appId) ∧
  (∀ e, getRoomById appId roomId db = inl e ↔ deleteRoom appId roomId db = inl e) ∧
  (∀ e, getRoomById appId roomId db = inl e →
     (statusCode e = 404%Z ∧ RoomService.getRoomInternal roomId db = None) ∨
     (statusCode e = 403%Z ∧
      ∃ room, RoomService.getRoomInternal roomId db = Some room
              ∧ DbRoom.appId room ≠ appId)).
Proof.
  unfold RoomService.getRoomInternal.
  destruct (db !! roomId) as [room|] eqn:Hdb.
  - destruct (decide (DbRoom.appId room = appId)) as [Howner|Howner].
    + destruct (getRoomById_owner _ _ _ _ Hdb Howner) as (-> & -> & ->).
      split_and!.
      * split; [eauto|done].
      * split; [eauto|done].
      * by intros ? [= <-].
      * by intros e; split.
      * by intros e.
    + destruct (getRoomById_stranger _ _ _ _ Hdb Howner) as (-> & -> & ->).
      split_and!.
      * split; [done|by intros [? ?]].
      * split; [done|by intros [? ?]].
      * by intros ?.
      * intros e; split; by intros [= <-].
      * intros e [= <-]. right. split; [done|]. by exists room.
  - destruct (getRoomById_missing appId _ _ Hdb) as (-> & -> & ->).
    split_and!.
    + split; [done|by intros [? ?]].
    + split; [done|by intros [? ?]].
    + by intros ?.
    + intros e; split; by intros [= <-].
    + intros e [= <-]. by left.
Qed.

Section RoomsAndGrants.
Context `{JwtLib}.
Variable config : Config.

(** X23.  Deleting a room takes away exactly that row and ends the issue
    of grants for it: after a [deleteRoom] that went through, the room is
    not found by [getRoomInternal], [getRoomById] or [roomExistsForApp]
    for any app, every other row reads as before, and [createToken] for
    the room, with arguments that pass its four input checks, answers
    NotFoundError. *)
Theorem deleteRoom_removes_the_room appId roomId db db' :
  deleteRoom appId roomId db = inr db' →
  RoomService.getRoomInternal roomId db' = None ∧
  (∀ app, getRoomById app roomId db' = inl (NotFoundError "Room" roomId) ∧
          roomExistsForApp app roomId db' = false) ∧
  (∀ other, other ≠ roomId →
     RoomService.getRoomInternal other db' = RoomService.getRoomInternal other db) ∧
  (∀ now signTime jti app input,
     app ≠ EmptyString → roomId ≠ EmptyString →
     trim (input_userId input) ≠ EmptyString →
     input_role input ∈ VALID_ROLES →
     createToken config db' now signTime jti app roomId input
       = inl (AppErr (NotFoundError "Room" roomId))).
Proof.
  unfold deleteRoom.
  destruct (db !! roomId) as [room|] eqn:Hdb; [|done].
  destruct (bool_decide (DbRoom.appId room ≠ appId)); [done|]. intros [= <-].
  assert (delete roomId db !! roomId = None) as Hgone by apply lookup_delete_eq.
  unfold RoomService.getRoomInternal. split_and!.
  - done.
  - intros app. by destruct (getRoomById_missing app _ _ Hgone) as (-> & -> & _).
  - intros other Hother. by rewrite lookup_delete_ne.
  - intros now signTime jti app input Happ Hroom Huser Hrole.
    unfold createToken, truthy_str, RoomService.getRoomInternal.
    rewrite Hgone.
    rewrite !(bool_decide_eq_false_2 (_ = EmptyString))
      by eauto using trim_nonempty, valid_role_nonempty.
    rewrite (bool_decide_eq_false_2 (String.length _ = 0))
      by (by rewrite length_zero_empty).
    by rewrite bool_decide_eq_true_2.
Qed.

(** X24.  Grants follow ownership: for a room that [createRoom] has just
    stored for app [appId], [createToken] issues a token to [appId] for
    every user id that is not blank, every role of the three and every
    well-formed time to live whose expiry is within the range of [Date],
    and the token verifies, before it expires, to claims that name
    [appId] and the new room; to every other app [createToken] answers
    ForbiddenError for that room, whatever the input that passes the four
    input checks. *)
Theorem created_room_grants_to_owner_only
    newId createdAt appId roomInput db db' room now signTime jti input seconds :
  RoomService.createRoom newId createdAt appId roomInput db = inr (db', room) →
  newId ≠ EmptyString →
  trim (input_userId input) ≠ EmptyString →
  input_role input ∈ VALID_ROLES →
  parseExpiresIn (expiresInOrDefault config input) = inr seconds →
  (0 ≤ now)%Z → ((now + seconds) * 1000 ≤ MAX_TIME_VALUE)%Z →
  (∃ response,
     createToken config db' now signTime jti appId newId input = inr response ∧
     expiresAt response = (now + seconds)%Z ∧
     ∀ clock, (clock < signTime + seconds)%Z →
       verifyToken config (token response) clock
         = inr (TokenClaims.mk jti appId newId (trim (input_userId input))
                               (input_role input))) ∧
  (∀ other, other ≠ EmptyString → other ≠ appId →
     createToken config db' now signTime jti other newId input
       = inl (AppErr (ForbiddenError "Room does not belong to this app"))).
Proof.
  intros Hcreate Hid Huser Hrole Hparse Hnow Hrange.
  apply createRoom_inv in Hcreate as (Happ & _ & _ & -> & ->).
  set (room := DbRoom.mk _ _ _ _ _).
  assert (<[newId := room]> db !! newId = Some room) as Hrow
    by apply lookup_insert_eq.
  split.
  - eexists. split; [|split].
    + by apply createToken_success with room.
    + done.
    + intros clock Hclock. simpl. by rewrite verifyToken_signed.
  - intros other Hother Hne.
    unfold createToken, truthy_str, RoomService.getRoomInternal.
    rewrite Hrow.
    rewrite !(bool_decide_eq_false_2 (_ = EmptyString))
      by eauto using trim_nonempty, valid_role_nonempty.
    rewrite (bool_decide_eq_false_2 (String.length _ = 0))
      by (by rewrite length_zero_empty).
    rewrite (bool_decide_eq_true_2 (_ ∈ _)) by done. simpl.
    rewrite bool_decide_eq_true_2; [done|]. simpl. congruence.
Qed.
End RoomsAndGrants.

Lemma room_reads_agree_witness :
  roomExistsForApp "T" "R" demoDb = true ∧
  ∃ room, getRoomById "T" "R" demoDb = inr room.
Proof.
  destruct (room_reads_agree "T" "R" demoDb) as (Hexists & _).
  split; [reflexivity|]. by apply Hexists.
Defined.

Lemma deleteRoom_removes_the_room_witness :
  createToken demoConfig ∅ 1000 1000 "j1" "T" "R"
              (mkCreateTokenInput "alice" "host" None)
    = inl (AppErr (NotFoundError "Room" "R")).
Proof.
  destruct (deleteRoom_removes_the_room demoConfig "T" "R" demoDb ∅ eq_refl)
    as (_ & _ & _ & Hgrant).
  apply Hgrant; try done.
  by apply (bool_decide_unpack _); vm_compute.
Defined.

Lemma created_room_grants_to_owner_only_witness :
  createToken demoConfig (<["R2" := DbRoom.mk "R2" "standup" 2 "T2" 5]> demoDb)
              1000 1000 "j1" "T" "R2" (mkCreateTokenInput "alice" "host" None)
    = inl (AppErr (ForbiddenError "Room does not belong to this app")).
Proof.
  destruct (created_room_grants_to_owner_only demoConfig "R2" 5 "T2"
              (RoomService.mkCreateRoomInput " standup " None) demoDb
              (<["R2" := DbRoom.mk "R2" "standup" 2 "T2" 5]> demoDb)
              (DbRoom.mk "R2" "standup" 2 "T2" 5)
              1000%Z 1000%Z "j1" (mkCreateTokenInput "alice" "host" None) 3600%Z)
    as (_ & Hother).
  - reflexivity.
  - done.
  - done.
  - by apply (bool_decide_unpack _); vm_compute.
  - reflexivity.
  - done.
  - by vm_compute.
  - by apply Hother.
Defined.

(** ** Tenant authentication and the protected routes *)

Lemma headerString_Some v s :
  headerString v = Some s ↔ v = Some (HeaderString s) ∧ s ≠ EmptyString.
Proof.
  unfold headerString, truthy_str. destruct v as [[s'|l]|].
  - destruct (bool_decide (s' = EmptyString)) eqn:Hs; simpl.
    + apply bool_decide_eq_true in Hs. split; [done|]. intros [[= ->] ?]. done.
    + apply bool_decide_eq_false in Hs. split.
      * by intros [= <-].
      * by intros [[= ->] _].
  - split; [done|]. by intros [? _].
  - split; [done|]. by intros [? _].
Qed.

Lemma validateAppCredentials_Some appId appSecret apps app :
  AppService.validateAppCredentials appId appSecret apps = Some app →
  app ∈ apps ∧ App.id app = appId ∧ App.secret app = appSecret.
Proof.
  unfold AppService.validateAppCredentials. intros Hfind.
  apply List.find_some in Hfind as [Hin Hmatch].
  apply andb_true_iff in Hmatch as [Hid Hsecret].
  apply bool_decide_eq_true in Hid, Hsecret.
  split; [by apply list_elem_of_In|done].
Qed.

(** The hook lets a request pass only with the id and the secret of one
    row of the table, both non-empty strings. *)
Lemma preHandler_inv headers apps app :
  preHandler headers apps = inr app →
  app ∈ apps ∧
  headers !! "x-app-id" = Some (HeaderString (App.id app)) ∧
  headers !! "x-app-secret" = Some (HeaderString (App.secret app)) ∧
  App.id app ≠ EmptyString ∧ App.secret app ≠ EmptyString.
Proof.
  unfold preHandler.
  destruct (headerString (headers !! "x-app-id")) as [appId|] eqn:Hid; [|done].
  destruct (headerString (headers !! "x-app-secret")) as [appSecret|] eqn:Hsecret;
    [|done].
  destruct (AppService.validateAppCredentials appId appSecret apps)
    as [app'|] eqn:Hvalid; [|done].
  intros [= ->].
  apply validateAppCredentials_Some in Hvalid as (Hin & <- & <-).
  apply headerString_Some in Hid as [Hid ?], Hsecret as [Hsecret ?].
  done.
Qed.

Lemma preHandler_error headers apps e :
  preHandler headers apps = inl e → routeStatus e = 401%Z.
Proof.
  unfold preHandler.
  destruct (headerString (headers !! "x-app-id")) as [appId|]; [|by intros [= <-]].
  destruct (headerString (headers !! "x-app-secret")) as [appSecret|];
    [|by intros [= <-]].
  by destruct (AppService.validateAppCredentials appId appSecret apps);
    [|intros [= <-]].
Qed.

Lemma requestHeaders_lookup raw key value :
  requestHeaders raw !! key = Some (HeaderString value) → raw !! key = Some value.
Proof.
  unfold requestHeaders. rewrite lookup_fmap.
  destruct (raw !! key) as [v|]; simpl; [|done]. by intros [= ->].
Qed.

(** What the hook lets pass, in the header lines of the request. *)
Lemma preHandler_lines raw apps app :
  preHandler (requestHeaders raw) apps = inr app →
  app ∈ apps ∧
  raw !! "x-app-id" = Some (App.id app) ∧
  raw !! "x-app-secret" = Some (App.secret app).
Proof.
  intros (Hin & Hid & Hsecret & _)%preHandler_inv.
  split_and!; [done|by apply requestHeaders_lookup..].
Qed.

Lemma find_snoc {A} (f : A → bool) l x :
  List.find f (l ++ [x]) =
    match List.find f l with
    | Some y => Some y
    | None => if f x then Some x else None
    end.
Proof.
  induction l as [|y l IH]; simpl; [done|]. by destruct (f y).
Qed.

Lemma find_none {A} (f : A → bool) l :
  (∀ y, y ∈ l → f y = false) → List.find f l = None.
Proof.
  intros Hl. destruct (List.find f l) as [y|] eqn:Hfind; [|done].
  apply List.find_some in Hfind as [Hin Hy].
  apply list_elem_of_In, Hl in Hin. congruence.
Qed.

Lemma credentials_lookup appId appSecret :
  credentials appId appSecret !! "x-app-id" = Some (HeaderString appId) ∧
  credentials appId appSecret !! "x-app-secret" = Some (HeaderString appSecret).
Proof.
  unfold credentials. split.
  - apply lookup_insert_eq.
  - rewrite lookup_insert_ne by done. apply lookup_singleton_eq.
Qed.

Lemma preHandler_credentials appId appSecret apps :
  appId ≠ EmptyString → appSecret ≠ EmptyString →
  preHandler (credentials appId appSecret) apps =
    match AppService.validateAppCredentials appId appSecret apps with
    | None => inl (UnauthorizedError "Invalid app credentials")
    | Some app => inr app
    end.
Proof.
  intros Hid Hsecret. unfold preHandler.
  destruct (credentials_lookup appId appSecret) as [-> ->].
  unfold headerString, truthy_str.
  by rewrite !bool_decide_eq_false_2 by done.
Qed.

Section ProtectedRoutes.
Context `{JwtLib}.
Variable config : Config.

(** X25.  The routes behind the appAuth hook serve the holder of a
    tenant's credentials, and serve it that tenant's rooms only.  When
    [POST /rooms/:roomId/token] answers with a token, the body passed the
    schema, the request carried the id and the secret of a row [app] of
    the app table, the room is in the room table and is owned by [app],
    and the token verifies, before it expires, to claims that name [app]
    and this room.  When [GET /rooms/:roomId] answers with a room, the
    request carried the credentials of the app that owns it.  The room
    that [POST /rooms] stores is owned by the app whose credentials the
    request carried, and its capacity is the one asked for, or 100, the
    default of the schema, when none was.  A request without one of the
    two headers is answered 400 by all three routes, before the hook
    runs; a request with both headers and a body that passes the schema,
    which the hook refuses, is answered with the hook's error, status
    401, whatever the room table holds. *)
Theorem protected_routes_serve_credential_holders raw apps db roomId :
  (∀ now signTime jti body response,
     postToken config raw apps db now signTime jti roomId body = inr response →
     createTokenSchema_body body = true ∧
     ∃ app room seconds,
       app ∈ apps ∧
       raw !! "x-app-id" = Some (App.id app) ∧
       raw !! "x-app-secret" = Some (App.secret app) ∧
       db !! roomId = Some room ∧ DbRoom.appId room = App.id app ∧
       ∀ clock, (clock < signTime + seconds)%Z →
         verifyToken config (token response) clock =
           inr (TokenClaims.mk jti (App.id app) roomId
                               (trim (input_userId body)) (input_role body))) ∧
  (∀ room,
     getRoomRoute raw apps roomId db = inr room →
     ∃ app,
       app ∈ apps ∧
       raw !! "x-app-id" = Some (App.id app) ∧
       raw !! "x-app-secret" = Some (App.secret app) ∧
       db !! roomId = Some room ∧ DbRoom.appId room = App.id app) ∧
  (∀ createdAt body db' room,
     postRooms raw apps roomId createdAt body db = inr (db', room) →
     createRoomSchema_body body = true ∧
     DbRoom.maxParticipants room
       = default 100%Z (RoomService.maxParticipants body) ∧
     ∃ app,
       app ∈ apps ∧
       raw !! "x-app-id" = Some (App.id app) ∧
       raw !! "x-app-secret" = Some (App.secret app) ∧
       DbRoom.appId room = App.id app ∧ db' !! roomId = Some room) ∧
  (hasCredentialHeaders raw = false →
   routeStatus ValidationFailed = 400%Z ∧
   getRoomRoute raw apps roomId db = inl ValidationFailed ∧
   (∀ createdAt body,
      postRooms raw apps roomId createdAt body db = inl ValidationFailed) ∧
   (∀ now signTime jti body,
      postToken config raw apps db now signTime jti roomId body
        = inl ValidationFailed)) ∧
  (∀ e,
     hasCredentialHeaders raw = true →
     preHandler (requestHeaders raw) apps = inl e →
     routeStatus e = 401%Z ∧
     getRoomRoute raw apps roomId db = inl e ∧
     (∀ createdAt body,
        createRoomSchema_body body = true →
        postRooms raw apps roomId createdAt body db = inl e) ∧
     (∀ now signTime jti body,
        createTokenSchema_body body = true →
        postToken config raw apps db now signTime jti roomId body = inl e)).
Proof.
  split_and!.
  - intros now signTime jti body response. unfold postToken.
    destruct (hasCredentialHeaders raw); simpl; [|done].
    destruct (createTokenSchema_body body); simpl; [|done].
    destruct (preHandler (requestHeaders raw) apps) as [e|app] eqn:Hauth; [done|].
    destruct (createToken config db now signTime jti (App.id app) roomId
                          (createTokenBodyDefaults body))
      as [[e| |]|response'] eqn:Hissue; try done.
    intros [= <-]. split; [done|].
    apply preHandler_lines in Hauth as (Hin & Hid & Hsecret).
    apply createToken_inv in Hissue
      as (_ & _ & _ & _ & room & seconds & Hdb & Howner & _ & _ & ->).
    exists app, room, seconds. split_and!; try done.
    intros clock Hclock. simpl. by rewrite verifyToken_signed.
  - intros room. unfold getRoomRoute.
    destruct (hasCredentialHeaders raw); simpl; [|done].
    destruct (preHandler (requestHeaders raw) apps) as [e|app] eqn:Hauth; [done|].
    apply preHandler_lines in Hauth as (Hin & Hid & Hsecret).
    unfold getRoomById. destruct (db !! roomId) as [room'|]; [|done].
    destruct (bool_decide (DbRoom.appId room' ≠ App.id app)) eqn:Howner; [done|].
    apply bool_decide_eq_false in Howner. apply dec_stable in Howner.
    intros [= <-]. by exists app.
  - intros createdAt body db' room. unfold postRooms.
    destruct (hasCredentialHeaders raw); simpl; [|done].
    destruct (createRoomSchema_body body); simpl; [|done].
    destruct (preHandler (requestHeaders raw) apps) as [e|app] eqn:Hauth; [done|].
    apply preHandler_lines in Hauth as (Hin & Hid & Hsecret).
    destruct (RoomService.createRoom roomId createdAt (App.id app)
                                     (createRoomBodyDefaults body) db)
      as [e|[db'' room']] eqn:Hcreate; [done|].
    intros [= <- <-].
    apply createRoom_inv in Hcreate as (_ & _ & _ & -> & ->).
    split; [done|]. split; [done|].
    exists app. split_and!; try done. apply lookup_insert_eq.
  - intros Hheaders. unfold getRoomRoute, postRooms, postToken.
    by rewrite Hheaders.
  - intros e Hheaders He. split; [by apply preHandler_error in He|].
    unfold getRoomRoute, postRooms, postToken. rewrite Hheaders, He.
    split; [done|]. split.
    + by intros createdAt body ->.
    + by intros now signTime jti body ->.
Qed.
End ProtectedRoutes.

Lemma protected_routes_serve_credential_holders_witness :
  (∃ app,
     app ∈ [App.mk "T" "acme" "s3cret" 0 0] ∧
     DbRoom.appId (DbRoom.mk "R" "r" 2 "T" 0) = App.id app) ∧
  getRoomRoute ∅ [App.mk "T" "acme" "s3cret" 0 0] "R" demoDb
    = inl ValidationFailed ∧
  getRoomRoute (credentialLines "T" "guess") [App.mk "T" "acme" "s3cret" 0 0]
               "R" demoDb
    = inl (UnauthorizedError "Invalid app credentials").
Proof.
  split_and!.
  - destruct (protected_routes_serve_credential_holders demoConfig
                (credentialLines "T" "s3cret") [App.mk "T" "acme" "s3cret" 0 0]
                demoDb "R") as (_ & Hget & _).
    destruct (Hget (DbRoom.mk "R" "r" 2 "T" 0) eq_refl)
      as (app & Hin & _ & _ & _ & Howner).
    by exists app.
  - destruct (protected_routes_serve_credential_holders demoConfig
                ∅ [App.mk "T" "acme" "s3cret" 0 0] demoDb "R")
      as (_ & _ & _ & Hmissing & _).
    by apply Hmissing.
  - destruct (protected_routes_serve_credential_holders demoConfig
                (credentialLines "T" "guess") [App.mk "T" "acme" "s3cret" 0 0]
                demoDb "R") as (_ & _ & _ & _ & Hrefused).
    by apply Hrefused.
Defined.

(** X26.  A tenant can authenticate with what [createApp] returned, and
    only with that.  After [createApp] has stored an app under a fresh id
    with a non-empty secret: the hook lets a request with the returned id
    and secret pass as the new app, whose name has no white space at its
    ends; with the id and any other secret the request is refused with
    status 401; [getAppById] and [appExists] find the app; and
    [validateAppCredentials] answers for every other id as before. *)
Theorem created_app_authenticates newId newSecret now inputName apps apps' response :
  AppService.createApp newId newSecret now inputName apps = inr (apps', response) →
  newId ≠ EmptyString → newSecret ≠ EmptyString →
  (∀ app, app ∈ apps → App.id app ≠ newId) →
  let app := App.mk newId (trim inputName) newSecret now now in
  AppService.id response = newId ∧ AppService.secret response = newSecret ∧
  trimmed (App.name app) ∧ App.name app ≠ EmptyString ∧
  preHandler (credentials (AppService.id response) (AppService.secret response)) apps'
    = inr app ∧
  (∀ other, other ≠ newSecret →
     ∃ e, preHandler (credentials newId other) apps' = inl e ∧ routeStatus e = 401%Z) ∧
  AppService.getAppById newId apps'
    = inr (AppService.mkGetAppResponse newId (trim inputName) now) ∧
  AppService.appExists newId apps' = true ∧
  (∀ appId appSecret, appId ≠ newId →
     AppService.validateAppCredentials appId appSecret apps'
       = AppService.validateAppCredentials appId appSecret apps).
Proof.
  intros Hcreate Hid Hsecret Hfresh app.
  unfold AppService.createApp, truthy_str in Hcreate.
  destruct (bool_decide (inputName = EmptyString)); simpl in Hcreate; [done|].
  destruct (bool_decide (String.length (trim inputName) = 0)) eqn:Hname;
    simpl in Hcreate; [done|].
  apply bool_decide_eq_false in Hname. rewrite length_zero_empty in Hname.
  injection Hcreate as <- <-. simpl. fold app.
  assert (∀ f : App.t → bool,
            (∀ y, App.id y ≠ newId → f y = false) →
            List.find f (apps ++ [app]) = if f app then Some app else None)
    as Hfind.
  { intros f Hf. rewrite find_snoc, find_none; [done|].
    intros y Hy. by apply Hf, Hfresh. }
  split_and!; try done.
  - apply (proj1 (trim_is_trimmed _)).
  - rewrite preHandler_credentials by done.
    unfold AppService.validateAppCredentials. rewrite Hfind.
    + simpl. by rewrite !bool_decide_eq_true_2.
    + intros y Hy. by rewrite (bool_decide_eq_false_2 (App.id y = newId)).
  - intros other Hother.
    destruct (preHandler (credentials newId other) (apps ++ [app]))
      as [e|app'] eqn:Hauth.
    + exists e. split; [done|]. by apply preHandler_error in Hauth.
    + apply preHandler_inv in Hauth as (Hin & Hid' & Hsecret' & _).
      destruct (credentials_lookup newId other) as [Hcid Hcsecret].
      rewrite Hcid in Hid'. rewrite Hcsecret in Hsecret'.
      injection Hid' as Hid'. injection Hsecret' as Hsecret'.
      apply elem_of_app in Hin as [Hin|Hin].
      * by apply Hfresh in Hin.
      * apply list_elem_of_singleton in Hin as ->. simpl in Hsecret'. congruence.
  - unfold AppService.getAppById. rewrite Hfind.
    + simpl. by rewrite bool_decide_eq_true_2.
    + intros y Hy. by apply bool_decide_eq_false_2.
  - unfold AppService.appExists. apply bool_decide_eq_true_2.
    rewrite List.filter_app, length_app. simpl.
    rewrite bool_decide_eq_true_2 by done. simpl. lia.
  - intros appId appSecret Hne. unfold AppService.validateAppCredentials.
    rewrite find_snoc. simpl.
    rewrite (bool_decide_eq_false_2 (newId = appId)) by done. simpl.
    by destruct (List.find _ apps).
Qed.

Lemma created_app_authenticates_witness :
  preHandler (credentials "T2" "k3y")
             ([App.mk "T" "acme" "s3cret" 0 0] ++ [App.mk "T2" "globex" "k3y" 7 7])
    = inr (App.mk "T2" "globex" "k3y" 7 7).
Proof.
  refine (proj1 (proj2 (proj2 (proj2 (proj2
            (created_app_authenticates "T2" "k3y" 7 " globex "
               [App.mk "T" "acme" "s3cret" 0 0]
               ([App.mk "T" "acme" "s3cret" 0 0] ++ [App.mk "T2" "globex" "k3y" 7 7])
               (AppService.mkCreateAppResponse "T2" "globex" "k3y" 7)
               _ _ _ _)))))).
  - reflexivity.
  - done.
  - done.
  - intros app Hin. apply list_elem_of_singleton in Hin as ->. done.
Defined.
